(** * GraphLocal: the graph substrate of LocalGraphClustering

    A shallow embedding of [localgraphclustering/GraphLocal.py].

    - Python objects ([GraphLocal] instances) and numpy buffers live in an
      explicit store ([world]); methods are programs of a state-and-exception
      monad [M] over that store.  An exception does not roll the store back.
    - float64 values are idealised as exact rationals ([Qc]); a float64 that
      [np.sqrt] produced is kept symbolic ([Sqrt q]).
    - the numpy index types [np.uint32] / [np.int64] wrap around ([astype]).
    - scipy's sparse matrices are CSR triples [(indptr, indices, data)];
      the scipy operations the file calls are modelled on those triples with
      the semantics scipy documents (duplicates summed and columns sorted on
      construction, zero results of binary operations not stored). *)

From Stdlib Require Import QArith Qcanon.
From stdpp Require Import base numbers list strings gmap sorting.

Local Open Scope Z_scope.

(** ** Numbers *)

(** [np.sqrt]: the result is not rational in general, so it is kept as its
    radicand. *)
Inductive surd := Sqrt (radicand : Qc).

Definition Qc_sum (l : list Qc) : Qc := foldl Qcplus 0%Qc l.

Inductive dtype := uint32 | int32 | int64 | float64.

#[global] Instance dtype_eq_dec : EqDecision dtype.
Proof. solve_decision. Defined.

(** [t(x)] for an integer dtype [t]: the value wraps around. *)
Definition astype (t : dtype) (z : Z) : Z :=
  match t with
  | uint32 => z mod 2^32
  | int32 => (z + 2^31) mod 2^32 - 2^31
  | int64 => (z + 2^63) mod 2^64 - 2^63
  | float64 => z
  end.

(** ** Exceptions *)

Inductive exn :=
  | ValueError | IndexError | KeyError | AttributeError | AssertionError
  | TypeError | Exception (msg : string).

Inductive result (A : Type) := Ok (a : A) | Raise (e : exn).
Arguments Ok {A} a.
Arguments Raise {A} e.

(** ** numpy indexing on lists *)

(** The position [a[i]] reads: negative indices count from the end. *)
Definition np_index {A} (l : list A) (i : Z) : option nat :=
  let len := Z.of_nat (length l) in
  if decide (0 ≤ i < len) then Some (Z.to_nat i)
  else if decide (- len ≤ i < 0) then Some (Z.to_nat (len + i))
  else None.

Definition np_getitem {A} (l : list A) (i : Z) : result A :=
  match np_index l i ≫= (l !!.) with
  | Some x => Ok x
  | None => Raise IndexError
  end.

(** [a[idx]] for a list of indices [idx]. *)
Fixpoint np_take {A} (l : list A) (idx : list Z) : result (list A) :=
  match idx with
  | [] => Ok []
  | i :: idx' =>
      match np_getitem l i with
      | Ok x => match np_take l idx' with Ok xs => Ok (x :: xs) | Raise e => Raise e end
      | Raise e => Raise e
      end
  end.

(** [a[idx] = x] for a list of indices [idx]. *)
Fixpoint np_put {A} (l : list A) (idx : list Z) (x : A) : result (list A) :=
  match idx with
  | [] => Ok l
  | i :: idx' =>
      match np_index l i with
      | Some k => np_put (<[k:=x]> l) idx' x
      | None => Raise IndexError
      end
  end.

(** [a[start:stop]]: a slice never raises; bounds are clipped. *)
Definition clip_bound (len i : Z) : Z :=
  if decide (i < 0) then Z.max 0 (len + i) else Z.min i len.

Definition np_slice {A} (l : list A) (start stop : Z) : list A :=
  let len := Z.of_nat (length l) in
  let s := clip_bound len start in
  let e := clip_bound len stop in
  take (Z.to_nat (e - s)) (drop (Z.to_nat s) l).

(** [range(a, b)] *)
Definition range (a b : Z) : list Z :=
  (λ k, a + Z.of_nat k) <$> seq 0 (Z.to_nat (b - a)).

(** ** CSR matrices (values) *)

Record csr := CSR {
  shape : nat;            (* the matrices of this file are square *)
  indptr : list Z;
  indices : list Z;
  data : list Qc
}.

(** Row [i] as stored: [(column, weight)] pairs in storage order. *)
Definition row (A : csr) (i : nat) : list (Z * Qc) :=
  let s := default 0 (indptr A !! i) in
  let e := default 0 (indptr A !! S i) in
  zip (np_slice (indices A) s e) (np_slice (data A) s e).

Definition rows (A : csr) : list (list (Z * Qc)) := row A <$> seq 0 (shape A).

(** The stored entries [(u, v, w)], row by row. *)
Definition entries (A : csr) : list (Z * Z * Qc) :=
  i ← seq 0 (shape A); (λ e : Z * Qc, (Z.of_nat i, e.1, e.2)) <$> row A i.

Fixpoint lookup_col (j : Z) (r : list (Z * Qc)) : option Qc :=
  match r with
  | [] => None
  | (c, w) :: r' => if decide (c = j) then Some w else lookup_col j r'
  end.

(** The stored entry at [(i, j)], if any. *)
Definition get (A : csr) (i j : nat) : option Qc := lookup_col (Z.of_nat j) (row A i).

(** The value at [(i, j)]: a position that is not stored reads 0. *)
Definition val (A : csr) (i j : nat) : Qc := default 0%Qc (get A i j).

Fixpoint offsets_from (acc : Z) (lens : list nat) : list Z :=
  acc :: match lens with
         | [] => []
         | k :: ks => offsets_from (acc + Z.of_nat k) ks
         end.

Definition row_length (r : list (Z * Qc)) : nat := length r.
Definition row_indices (r : list (Z * Qc)) : list Z := r.*1.
Definition row_data (r : list (Z * Qc)) : list Qc := r.*2.

Definition of_rows (n : nat) (rs : list (list (Z * Qc))) : csr :=
  {| shape := n;
     indptr := offsets_from 0 (row_length <$> rs);
     indices := concat (row_indices <$> rs);
     data := concat (row_data <$> rs) |}.

(** The canonical CSR matrix with entry [f i j] at [(i, j)]: rows in order,
    columns ascending within a row. *)
Definition tabulate (n : nat) (f : nat → nat → option Qc) : csr :=
  of_rows n ((λ i, omap (λ j, (Z.of_nat j,.) <$> f i j) (seq 0 n)) <$> seq 0 n).

Definition nnz (A : csr) : Z := Z.of_nat (length (data A)).

(** [sp.csr_matrix((data, (row, col)), shape=(n, n))]: the triplets are
    checked, entries at the same position are summed, columns are sorted. *)
Definition coo_sum (r c : list Z) (w : list Qc) (i j : nat) : option Qc :=
  let hits := filter (λ e : Z * Z * Qc, e.1.1 = Z.of_nat i ∧ e.1.2 = Z.of_nat j)
                     (zip (zip r c) w) in
  match hits with
  | [] => None
  | _ => Some (Qc_sum (snd <$> hits))
  end.

Definition csr_from_coo (w : list Qc) (r c : list Z) (n : Z) : result csr :=
  if decide (n < 0) then Raise ValueError
  else if decide (length r = length w ∧ length c = length w) then
    if decide (Forall (λ i, 0 ≤ i < n) r ∧ Forall (λ j, 0 ≤ j < n) c)
    then Ok (tabulate (Z.to_nat n) (coo_sum r c w))
    else Raise ValueError
  else Raise ValueError.

(** [A.T] *)
Definition transpose (A : csr) : csr := tabulate (shape A) (λ i j, get A j i).

Definition nonzero (q : Qc) : option Qc := if decide (q = 0%Qc) then None else Some q.

(** scipy's element-wise binary operations on two sparse matrices: operands
    read 0 where nothing is stored and a zero result is not stored. *)
Definition binop (op : Qc → Qc → Qc) (A B : csr) : csr :=
  tabulate (shape A) (λ i j, nonzero (op (val A i j) (val B i j))).

Definition Qc_of_bool (b : bool) : Qc := if b then 1%Qc else 0%Qc.

Definition csr_ne (A B : csr) : csr := binop (λ a b, Qc_of_bool (bool_decide (a ≠ b))) A B.
Definition csr_gt (A B : csr) : csr := binop (λ a b, Qc_of_bool (bool_decide (b < a)%Qc)) A B.
Definition csr_multiply : csr → csr → csr := binop Qcmult.
Definition csr_sub : csr → csr → csr := binop Qcminus.
Definition csr_add : csr → csr → csr := binop Qcplus.

(** [A.sum()] *)
Definition csr_sum (A : csr) : Qc := Qc_sum (data A).

(** [A.sum(axis=1)], ravelled *)
Definition row_sums (A : csr) : list Qc := (λ r, Qc_sum (row_data r)) <$> rows A.

(** [A.dot(v)] for a dense vector [v] *)
Definition csr_dot (A : csr) (v : list Qc) : list Qc :=
  (λ r, Qc_sum ((λ e : Z * Qc, (e.2 * default 0 (v !! Z.to_nat e.1))%Qc) <$> r)) <$> rows A.

(** [np.dot(u, v)] for two dense vectors *)
Definition np_dot (u v : list Qc) : Qc := Qc_sum (zip_with Qcmult u v).

(** [A[idx, :].tocsc()[:, idx].tocsr()]: the submatrix on the rows and
    columns listed in [idx], renumbered by position. *)
Definition submatrix (A : csr) (idx : list nat) : csr :=
  tabulate (length idx)
    (λ a b, i ← idx !! a; j ← idx !! b; get A i j).

(** ** The store: numpy buffers and Python objects *)

Definition loc := nat.
Definition oid := nat.

(** What a buffer holds.  An integer buffer carries its numpy dtype; a
    [floats] or [surds] buffer is a float64 buffer. *)
Inductive buffer :=
  | ints (t : dtype) (l : list Z)
  | floats (l : list Qc)
  | surds (l : list surd).

(** A memory block: [shared] blocks are the ones [mp.RawArray] allocates. *)
Record cell := Cell { shared : bool; contents : buffer }.

(** A [scipy.sparse.csr_matrix] object: its shape and the three arrays it
    holds (by reference). *)
Record csr_matrix := CsrMatrix {
  m_shape : nat;
  m_data : loc;
  m_indices : loc;
  m_indptr : loc
}.

(** A Python value.  A numpy array is a view of a buffer of the store;
    [VShared] is the triple [(sabuf, dtype, shape)] of [_copy_to_shared]. *)
Inductive value :=
  | VInt (z : Z)
  | VBool (b : bool)
  | VFloat (q : Qc)
  | VArray (a : loc)
  | VMatrix (A : csr_matrix)
  | VShared (sabuf : loc) (dt : dtype) (shp : nat).

(** An object is its attribute dictionary. *)
Record world := World {
  heap : list cell;
  objs : list (gmap string value)
}.

(** ** The monad of methods *)

Definition M (A : Type) : Type := world → result A * world.

#[global] Instance M_ret : MRet M := λ A a σ, (Ok a, σ).
#[global] Instance M_bind : MBind M := λ A B k c σ,
  match c σ with
  | (Ok a, σ') => k a σ'
  | (Raise e, σ') => (Raise e, σ')
  end.

Definition raise {A} (e : exn) : M A := λ σ, (Raise e, σ).

Definition lift {A} (r : result A) : M A := λ σ, (r, σ).

(** [assert b] *)
Definition py_assert (b : bool) : M unit :=
  if b then mret () else raise AssertionError.

Definition alloc_cell (c : cell) : M loc := λ σ,
  (Ok (length (heap σ)), World (heap σ ++ [c]) (objs σ)).

(** A fresh numpy array owning its buffer. *)
Definition alloc (b : buffer) : M loc := alloc_cell (Cell false b).

Definition load (a : loc) : M buffer := λ σ,
  match heap σ !! a with
  | Some c => (Ok (contents c), σ)
  | None => (Raise ValueError, σ)
  end.

(** An in-place write: the block keeps its address and its kind. *)
Definition store (a : loc) (b : buffer) : M unit := λ σ,
  match heap σ !! a with
  | Some c => (Ok (), World (<[a := Cell (shared c) b]> (heap σ)) (objs σ))
  | None => (Raise ValueError, σ)
  end.

Definition load_ints (a : loc) : M (list Z) :=
  b ← load a; match b with ints _ l => mret l | _ => raise TypeError end.

Definition load_floats (a : loc) : M (list Qc) :=
  b ← load a; match b with floats l => mret l | _ => raise TypeError end.

(** [cls()] with no file name: an object with no attribute. *)
Definition new_object : M oid := λ σ,
  (Ok (length (objs σ)), World (heap σ) (objs σ ++ [∅])).

Definition getattr (o : oid) (a : string) : M value := λ σ,
  match objs σ !! o ≫= (.!! a) with
  | Some v => (Ok v, σ)
  | None => (Raise AttributeError, σ)
  end.

Definition setattr (o : oid) (a : string) (v : value) : M unit := λ σ,
  match objs σ !! o with
  | Some attrs => (Ok (), World (heap σ) (<[o := <[a := v]> attrs]> (objs σ)))
  | None => (Raise AttributeError, σ)
  end.

Definition get_int (o : oid) (a : string) : M Z :=
  v ← getattr o a; match v with VInt z => mret z | _ => raise TypeError end.
Definition get_bool (o : oid) (a : string) : M bool :=
  v ← getattr o a; match v with VBool b => mret b | _ => raise TypeError end.
Definition get_float (o : oid) (a : string) : M Qc :=
  v ← getattr o a; match v with VFloat q => mret q | _ => raise TypeError end.
Definition get_array (o : oid) (a : string) : M loc :=
  v ← getattr o a; match v with VArray l => mret l | _ => raise TypeError end.
Definition get_matrix (o : oid) (a : string) : M csr_matrix :=
  v ← getattr o a; match v with VMatrix A => mret A | _ => raise TypeError end.

(** The value of a sparse-matrix object: its three arrays read from the store. *)
Definition load_csr (A : csr_matrix) : M csr :=
  dat ← load_floats (m_data A);
  ind ← load_ints (m_indices A);
  ptr ← load_ints (m_indptr A);
  mret (CSR (m_shape A) ptr ind dat).

(** A sparse matrix scipy computed: three fresh arrays (scipy's own index
    arrays are int32). *)
Definition new_csr (A : csr) : M csr_matrix :=
  dat ← alloc (floats (data A));
  ind ← alloc (ints int32 (indices A));
  ptr ← alloc (ints int32 (indptr A));
  mret (CsrMatrix (shape A) dat ind ptr).

(** The values an int32 holds. *)
Definition fits_int32 (z : Z) : Prop := - 2^31 ≤ z < 2^31.

#[global] Instance fits_int32_dec z : Decision (fits_int32 z).
Proof. unfold fits_int32. apply _. Defined.

(** scipy's choice of index dtype for a matrix of dimension [n] given the
    two index arrays: int32 when the dimension and the contents fit, int64
    otherwise. *)
Definition get_index_dtype (ind ptr : list Z) (n : Z) : dtype :=
  if decide (fits_int32 n ∧ Forall fits_int32 ind ∧ Forall fits_int32 ptr)
  then int32 else int64.

(** [np.array(a, copy=False, dtype=t)] on an integer array: the array itself
    when it has the dtype [t], a converted copy otherwise. *)
Definition np_array_as (a : loc) (t : dtype) : M loc :=
  b ← load a;
  match b with
  | ints t' xs => if decide (t' = t) then mret a else alloc (ints t (astype t <$> xs))
  | _ => raise TypeError
  end.

(** [sp.csr_matrix((data, indices, indptr), shape=(n, n))] with the default
    [copy=False]: the new matrix object refers to the float64 data array it
    is given; an index array is referred to only when it already has scipy's
    index dtype and is converted otherwise (the [np.uint32] arrays of a graph
    are); then scipy checks the format. *)
Definition csr_from_arrays (dat ind ptr : loc) (n : Z) : M csr_matrix :=
  d ← load_floats dat;
  i ← load_ints ind;
  p ← load_ints ptr;
  let t := get_index_dtype i p n in
  ind' ← np_array_as ind t;
  ptr' ← np_array_as ptr t;
  if decide (n < 0) then raise ValueError
  else if decide (Z.of_nat (length p) ≠ n + 1) then raise ValueError
  else if decide (p !! 0%nat ≠ Some 0) then raise ValueError
  else if decide (length i ≠ length d) then raise ValueError
  else if decide (Z.of_nat (length i) < default 0 (last p)) then raise ValueError
  else mret (CsrMatrix (Z.to_nat n) dat ind' ptr').

(** ** scipy.sparse.csgraph.connected_components (undirected)

    An entry stored at [(u, v)] or at [(v, u)] joins [u] and [v].  scipy scans
    the vertices in increasing order and gives the next label to every vertex
    it has not reached yet, so a component's label is the number of
    components with a smaller least vertex. *)

Definition adjacent (A : csr) (u v : nat) : Prop :=
  is_Some (get A u v) ∨ is_Some (get A v u).

#[global] Instance adjacent_dec A u v : Decision (adjacent A u v).
Proof. unfold adjacent. apply _. Defined.

(** One more step of the traversal from the set [S]. *)
Definition grow (A : csr) (S : gset nat) : gset nat :=
  S ∪ list_to_set (filter (λ v, Exists (λ u, adjacent A u v) (elements S))
                          (seq 0 (shape A))).

Definition component_of (A : csr) (v : nat) : gset nat :=
  Nat.iter (shape A) (grow A) {[v]}.

(** The least vertex of the component of [v]. *)
Definition component_root (A : csr) (v : nat) : nat :=
  default v (head (filter (λ u, u ∈ component_of A v) (seq 0 (shape A)))).

Definition is_root (A : csr) (r : nat) : Prop := component_root A r = r.

#[global] Instance is_root_dec A r : Decision (is_root A r).
Proof. unfold is_root. apply _. Defined.

Definition component_label (A : csr) (v : nat) : Z :=
  Z.of_nat (length (filter (is_root A) (seq 0 (component_root A v)))).

(** [(n_components, labels)] *)
Definition csgraph_connected_components (A : csr) : Z * list Z :=
  (Z.of_nat (length (filter (is_root A) (seq 0 (shape A)))),
   component_label A <$> seq 0 (shape A)).

(** ** collections.Counter(xs).most_common(1)[0][0]

    The keys of a [Counter] are kept in the order of their first occurrence
    and [most_common(1)] returns the first key with the largest count. *)

Definition count_of (x : Z) (xs : list Z) : nat := length (filter (x =.) xs).

Fixpoint first_max (xs : list Z) (keys : list Z) (best : option Z) : option Z :=
  match keys with
  | [] => best
  | k :: keys' =>
      first_max xs keys'
        (match best with
         | None => Some k
         | Some b => if decide (count_of b xs < count_of k xs)%nat then Some k else Some b
         end)
  end.

(** The keys of [Counter(xs)]: an element becomes a key when it is met for
    the first time, after the keys already [seen]. *)
Fixpoint counter_keys (seen : list Z) (xs : list Z) : list Z :=
  match xs with
  | [] => []
  | x :: xs' =>
      if decide (x ∈ seen) then counter_keys seen xs'
      else x :: counter_keys (x :: seen) xs'
  end.

Definition most_common_key (xs : list Z) : result Z :=
  match first_max xs (counter_keys [] xs) None with
  | Some k => Ok k
  | None => Raise IndexError
  end.

(** ** numpy reductions *)

(** [a.max()] *)
Definition np_max (l : list Z) : result Z :=
  match l with
  | [] => Raise ValueError
  | x :: l' => Ok (foldl Z.max x l')
  end.

(** Python's [min(a, b)] *)
Definition py_min (a b : Qc) : Qc := if decide (b < a)%Qc then b else a.

(** ** GraphLocal *)

(** [compute_statistics] (l. 327-338) *)
Definition compute_statistics (self : oid) : M unit :=
  A ← get_matrix self "adjacency_matrix";
  Av ← load_csr A;
  let dv := row_sums Av in
  d ← alloc (floats dv);
  setattr self "d" (VArray d);;
  n ← get_int self "_num_vertices";
  (if decide (n < 0) then raise ValueError else mret ());;
  dn ← alloc (floats (replicate (Z.to_nat n) 0%Qc));
  setattr self "dn" (VArray dn);;
  (* the boolean mask [self.d != 0] must have the length of [self.dn] *)
  (if decide (length dv = Z.to_nat n) then mret () else raise IndexError);;
  let dnv := (λ x, if decide (x = 0%Qc) then 0%Qc else (1 / x)%Qc) <$> dv in
  store dn (floats dnv);;
  d_sqrt ← alloc (surds (Sqrt <$> dv));
  setattr self "d_sqrt" (VArray d_sqrt);;
  dn_sqrt ← alloc (surds (Sqrt <$> dnv));
  setattr self "dn_sqrt" (VArray dn_sqrt);;
  setattr self "vol_G" (VFloat (Qc_sum dv)).

(** The statements that [read_graph] (l. 213-228) and [list_to_gl]
    (l. 302-317) share word for word: the weighted flag, the symmetrization,
    the statistics and the index arrays. *)
Definition symmetrize_and_index (self : oid) (vtype itype : dtype) : M unit :=
  A ← get_matrix self "adjacency_matrix";
  Av ← load_csr A;
  setattr self "_weighted" (VBool (bool_decide (Exists (λ x, x ≠ 1%Qc) (data Av))));;
  let is_symmetric := bool_decide (csr_sum (csr_ne Av (transpose Av)) = 0%Qc) in
  (if is_symmetric then mret ()
   else
     (* Symmetrize matrix, choosing larger weight *)
     let sel := csr_gt (transpose Av) Av in
     let Av' := csr_add (csr_sub Av (csr_multiply Av sel))
                        (csr_multiply (transpose Av) sel) in
     A' ← new_csr Av';
     setattr self "adjacency_matrix" (VMatrix A');;
     py_assert (bool_decide (csr_sum (csr_ne Av' (transpose Av')) = 0%Qc)));;
  A ← get_matrix self "adjacency_matrix";
  Av ← load_csr A;
  setattr self "_num_edges" (VInt (nnz Av));;
  compute_statistics self;;
  A ← get_matrix self "adjacency_matrix";
  Av ← load_csr A;
  ai ← alloc (ints itype (astype itype <$> indptr Av));
  setattr self "ai" (VArray ai);;
  aj ← alloc (ints vtype (astype vtype <$> indices Av));
  setattr self "aj" (VArray aj).

(** The table [pd.read_csv] parsed.  The model covers the tables whose id
    columns, the first two, were parsed as integers (pandas gives them the
    dtype int64); a table whose id column holds a missing or fractional
    field, which pandas parses as float64, is outside it.  The other columns
    are integer or float columns.  (Parsing the file is outside this model
    as well.) *)
Inductive column := IntCol (l : list Z) | FloatCol (l : list Qc).

Inductive DataFrame :=
  | Column (c : column)
  | Columns (source target : list Z) (others : list column).

(** [df.shape[1]] *)
Definition shape1 (df : DataFrame) : nat :=
  match df with
  | Column _ => 1
  | Columns _ _ others => 2 + length others
  end.

(** [df[cols[0]].values, df[cols[1]].values] (l. 183-184): with a single
    column [cols[1]] is an IndexError. *)
Definition id_columns (df : DataFrame) : M (list Z * list Z) :=
  match df with
  | Column _ => raise IndexError
  | Columns source target _ => mret (source, target)
  end.

(** [c.astype(np.float64)] *)
Definition column_values (c : column) : list Qc :=
  match c with
  | IntCol l => Qc_of_Z <$> l
  | FloatCol l => l
  end.

(** [df[cols[2]].values] *)
Definition weight_column (df : DataFrame) : M (list Qc) :=
  match df with
  | Columns _ _ (c :: _) => mret (column_values c)
  | _ => raise IndexError
  end.

(** [read_graph] for [file_type='edgelist'], from the parsed table on
    (l. 180-228). *)
Definition read_graph (self : oid) (df : DataFrame) (vtype itype : dtype) : M unit :=
  '(source, target) ← id_columns df;
  weights ←
    (if decide (shape1 df = 2%nat) then mret (replicate (length source) 1%Qc)
     else if decide (shape1 df = 3%nat) then weight_column df
     else raise (Exception "GraphLocal.read_graph: df.shape[1] not in (2, 3)"));
  smax ← lift (np_max source);
  tmax ← lift (np_max target);
  setattr self "_num_vertices" (VInt (Z.max (smax + 1) (tmax + 1)));;
  n ← get_int self "_num_vertices";
  Av ← lift (csr_from_coo weights source target n);
  A ← new_csr Av;
  setattr self "adjacency_matrix" (VMatrix A);;
  symmetrize_and_index self vtype itype.

(** [list_to_gl] (l. 269-317) *)
Definition list_to_gl (self : oid) (source target : list Z) (weights : list Qc)
    (vtype itype : dtype) : M unit :=
  let source := astype vtype <$> source in
  let target := astype vtype <$> target in
  setattr self "_num_edges" (VInt (Z.of_nat (length source)));;
  smax ← lift (np_max source);
  tmax ← lift (np_max target);
  setattr self "_num_vertices" (VInt (Z.max (smax + 1) (tmax + 1)));;
  n ← get_int self "_num_vertices";
  Av ← lift (csr_from_coo weights source target n);
  A ← new_csr Av;
  setattr self "adjacency_matrix" (VMatrix A);;
  symmetrize_and_index self vtype itype.

(** [discard_weights] (l. 319-325) *)
Definition discard_weights (self : oid) : M unit :=
  A ← get_matrix self "adjacency_matrix";
  dat ← load_floats (m_data A);
  store (m_data A) (floats (replicate (length dat) 1%Qc));;
  setattr self "_weighted" (VBool false);;
  compute_statistics self.

(** [neighbors] (l. 467-472) *)
Definition neighbors (self : oid) (vertex : Z) : M (list Z) :=
  aj ← get_array self "aj" ≫= load_ints;
  ai ← get_array self "ai" ≫= load_ints;
  s ← lift (np_getitem ai vertex);
  e ← lift (np_getitem ai (vertex + 1));
  mret (np_slice aj s e).

(** The dictionary [set_scores] returns: the local variables that are left
    when [R], [self], [cpp] and [v_ones_R] have been deleted. *)
Record scores := Scores {
  voltrue : Qc; cut : Qc; voleff : Qc;
  sizetrue : Z; sizeeff : Z;
  edgestrue : Qc; edgeseff : Qc;
  cond : Qc; isop : Qc
}.

(** Modelled from the spec: [set_scores_cpp], the accelerated scorer, lives in
    the package's compiled [cpp] module, which is not among the sources.  The
    spec (4.4, "Accelerated"): iterate only the rows of the vertices in [R],
    test each neighbour for membership in [R] with a transient lookup
    structure, accumulate the cut contributions directly.  The arguments are
    those of the call in [set_scores]; reads past the end of an array read 0. *)
Definition set_scores_cpp (n : Z) (ai aj : list Z) (a d : list Qc) (R : list Z)
    (weighted : bool) : Qc * Qc :=
  let in_R : gset Z := list_to_set R in
  foldl (λ acc v,
           let s := default 0 (ai !! Z.to_nat v) in
           let e := default 0 (ai !! Z.to_nat (v + 1)) in
           ((acc.1 + default 0 (d !! Z.to_nat v))%Qc,
            foldl (λ c k, if decide (default 0 (aj !! Z.to_nat k) ∈ in_R) then c
                          else (c + default 0 (a !! Z.to_nat k))%Qc)
                  acc.2 (range s e)))
        (0%Qc, 0%Qc) R.

(** [set_scores] (l. 484-517) *)
Definition set_scores (self : oid) (R : list Z) (cpp : bool) : M scores :=
  n ← get_int self "_num_vertices";
  '(voltrue, cut) ←
    (if cpp then
       ai ← get_array self "ai" ≫= load_ints;
       aj ← get_array self "aj" ≫= load_ints;
       A ← get_matrix self "adjacency_matrix";
       a ← load_floats (m_data A);
       d ← get_array self "d" ≫= load_floats;
       weighted ← get_bool self "_weighted";
       mret (set_scores_cpp n ai aj a d R weighted)
     else
       d ← get_array self "d" ≫= load_floats;
       dR ← lift (np_take d R);
       let voltrue := Qc_sum dR in
       (if decide (n < 0) then raise ValueError else mret ());;
       v_ones_R ← lift (np_put (replicate (Z.to_nat n) 0%Qc) R 1%Qc);
       A ← get_matrix self "adjacency_matrix";
       Av ← load_csr A;
       (if decide (length v_ones_R = shape Av) then mret () else raise ValueError);;
       mret (voltrue, (voltrue - np_dot v_ones_R (csr_dot Av v_ones_R))%Qc));
  vol_G ← get_float self "vol_G";
  let voleff := py_min voltrue (vol_G - voltrue)%Qc in
  let sizetrue := Z.of_nat (length R) in
  let sizeeff := if decide (voleff < voltrue)%Qc then n - sizetrue else sizetrue in
  let edgestrue := (voltrue - cut)%Qc in
  let edgeseff := (voleff - cut)%Qc in
  let cond := if decide (voleff ≠ 0%Qc) then (cut / voleff)%Qc else 1%Qc in
  let isop := if decide (sizeeff ≠ 0) then (cut / Qc_of_Z sizeeff)%Qc else 1%Qc in
  mret (Scores voltrue cut voleff sizetrue sizeeff edgestrue edgeseff cond isop).

(** [compute_conductance] (l. 475-482) *)
Definition compute_conductance (self : oid) (R : list Z) (cpp : bool) : M Qc :=
  records ← set_scores self R cpp;
  mret (cond records).

(** [connected_components] (l. 394-406) *)
Definition connected_components (self : oid) : M unit :=
  A ← get_matrix self "adjacency_matrix";
  Av ← load_csr A;
  let output := csgraph_connected_components Av in
  comps ← alloc (ints int32 output.2);
  setattr self "components" (VArray comps);;
  setattr self "number_of_components" (VInt output.1).

(** [a == []] for a one-dimensional array [a], as numpy evaluates it from
    version 1.25 on: the shapes [(len a,)] and [(0,)] are broadcast, which
    fails unless [len a ≤ 1] and then gives an array without elements. *)
Definition np_eq_empty_list (a : list Qc) : result (list bool) :=
  if decide (length a ≤ 1)%nat then Ok [] else Raise ValueError.

(** The truth value of an array ([if a:]): that of its element when it has
    exactly one, an error otherwise (for an array without elements from
    numpy 2.2 on). *)
Definition np_truth (a : list bool) : result bool :=
  match a with
  | [b] => Ok b
  | _ => Raise ValueError
  end.

(** [is_disconnected] (l. 408-436); [None] is the bare [return] of l. 427. *)
Definition is_disconnected (self : oid) : M (option bool) :=
  d ← get_array self "d" ≫= load_floats;
  eq ← lift (np_eq_empty_list d);
  unread ← lift (np_truth eq);
  if unread : bool then mret None
  else
    connected_components self;;
    k ← get_int self "number_of_components";
    mret (Some (bool_decide (1 < k))).

(** The inner loop of [local_extrema] (l. 593-609) over the positions
    [nzis] of row [i]: whether [lmin] is still true when the loop ends. *)
Fixpoint scan_row (aj : list Z) (vals : list Qc) (factor : Qc) (strict : bool)
    (i : Z) (vali : Qc) (nzis : list Z) : result bool :=
  match nzis with
  | [] => Ok true
  | nzi :: rest =>
      match np_getitem aj nzi with
      | Raise e => Raise e
      | Ok v =>
          if decide (v = i) then scan_row aj vals factor strict i vali rest
          else
            match np_getitem vals v with
            | Raise e => Raise e
            | Ok x =>
                if (if strict then bool_decide (vali < factor * x)%Qc
                    else bool_decide (vali ≤ factor * x)%Qc)
                then scan_row aj vals factor strict i vali rest
                else Ok false
            end
      end
  end.

(** The outer loop (l. 590-612) over the vertices [vs]: the vertices appended
    to [minverts]. *)
Fixpoint scan_vertices (ai aj : list Z) (vals : list Qc) (factor : Qc) (strict : bool)
    (vs : list Z) : result (list Z) :=
  match vs with
  | [] => Ok []
  | i :: rest =>
      match np_getitem vals i with
      | Raise e => Raise e
      | Ok x =>
          match np_getitem ai i, np_getitem ai (i + 1) with
          | Raise e, _ | Ok _, Raise e => Raise e
          | Ok s, Ok e =>
              match scan_row aj vals factor strict i (factor * x)%Qc (range s e) with
              | Raise e => Raise e
              | Ok lmin =>
                  match scan_vertices ai aj vals factor strict rest with
                  | Raise e => Raise e
                  | Ok minverts => Ok (if lmin then i :: minverts else minverts)
                  end
              end
          end
      end
  end.

(** [local_extrema] (l. 554-616) *)
Definition local_extrema (self : oid) (vals : list Qc) (strict reverse : bool)
    : M (list Z * list Qc) :=
  A ← get_matrix self "adjacency_matrix";
  let n := Z.of_nat (m_shape A) in
  ai ← get_array self "ai" ≫= load_ints;
  aj ← get_array self "aj" ≫= load_ints;
  let factor := if reverse then (-1)%Qc else 1%Qc in
  minverts ← lift (scan_vertices ai aj vals factor strict (range 0 n));
  minvals ← lift (np_take vals minverts);
  mret (minverts, minvals).

(** ** Shared memory *)

Definition buffer_dtype (b : buffer) : dtype :=
  match b with ints t _ => t | floats _ | surds _ => float64 end.

Definition buffer_length (b : buffer) : nat :=
  match b with ints _ l => length l | floats l => length l | surds l => length l end.

(** What [mp.RawArray(ctypes.c_uint8, a.nbytes)] holds before anything is
    copied into it: zeros. *)
Definition zeros_like (b : buffer) : buffer :=
  match b with
  | ints t l => ints t (replicate (length l) 0)
  | floats l => floats (replicate (length l) 0%Qc)
  | surds l => surds (replicate (length l) (Sqrt 0%Qc))
  end.

(** [_load_from_shared] (l. 18-19): [np.frombuffer(sabuf, dtype).reshape(shape)]
    is a view of the block [sabuf], not a copy. *)
Definition _load_from_shared (sabuf : loc) (dt : dtype) (shp : nat) : M loc :=
  b ← load sabuf;
  if decide (buffer_dtype b = dt ∧ buffer_length b = shp) then mret sabuf
  else raise ValueError.

(** [_copy_to_shared] (l. 23-30) *)
Definition _copy_to_shared (a : loc) : M (loc * value) :=
  b ← load a;
  let dt := buffer_dtype b in
  let shp := buffer_length b in
  sabuf ← alloc_cell (Cell true (zeros_like b));
  sa ← _load_from_shared sabuf dt shp;
  store sa b;;   (* np.copyto(sa, a) *)
  mret (sa, VShared sabuf dt shp).

(** [self.x, sgraphvars[k] = _copy_to_shared(self.x)] *)
Definition share_attr (self : oid) (x k : string) (sgraphvars : gmap string value)
    : M (gmap string value) :=
  a ← get_array self x;
  '(sa, desc) ← _copy_to_shared a;
  setattr self x (VArray sa);;
  mret (<[k := desc]> sgraphvars).

(** [to_shared] (l. 340-373) *)
Definition to_shared (self : oid) : M (gmap string value) :=
  let sgraphvars : gmap string value := ∅ in
  sgraphvars ← share_attr self "ai" "ai" sgraphvars;
  sgraphvars ← share_attr self "aj" "aj" sgraphvars;
  sgraphvars ← share_attr self "d" "d" sgraphvars;
  sgraphvars ← share_attr self "dn" "dn" sgraphvars;
  sgraphvars ← share_attr self "d_sqrt" "d_sqrt" sgraphvars;
  sgraphvars ← share_attr self "dn_sqrt" "dn_sqrt" sgraphvars;
  A ← get_matrix self "adjacency_matrix";
  '(sa, desc) ← _copy_to_shared (m_data A);
  setattr self "adjacency_matrix"
    (VMatrix (CsrMatrix (m_shape A) sa (m_indices A) (m_indptr A)));;
  let sgraphvars := <["a" := desc]> sgraphvars in
  (* this will rebuild without copying *)
  A ← get_matrix self "adjacency_matrix";
  aj ← get_array self "aj";
  ai ← get_array self "ai";
  n ← get_int self "_num_vertices";
  A' ← csr_from_arrays (m_data A) aj ai n;
  setattr self "adjacency_matrix" (VMatrix A');;
  (* scalars *)
  n ← getattr self "_num_vertices";
  let sgraphvars := <["n" := n]> sgraphvars in
  m ← getattr self "_num_edges";
  let sgraphvars := <["m" := m]> sgraphvars in
  vol ← getattr self "vol_G";
  let sgraphvars := <["vol" := vol]> sgraphvars in
  w ← getattr self "_weighted";
  let sgraphvars := <["weighted" := w]> sgraphvars in
  mret sgraphvars.

(** [sgraphvars[k]] *)
Definition dict_get (sgraphvars : gmap string value) (k : string) : M value :=
  match sgraphvars !! k with
  | Some v => mret v
  | None => raise KeyError
  end.

(** [_load_from_shared] applied to the triple [sgraphvars[k]] *)
Definition load_shared (sgraphvars : gmap string value) (k : string) : M loc :=
  v ← dict_get sgraphvars k;
  match v with
  | VShared sabuf dt shp => _load_from_shared sabuf dt shp
  | _ => raise TypeError
  end.

(** [from_shared] (l. 375-392) *)
Definition from_shared (sgraphvars : gmap string value) : M oid :=
  g ← new_object;
  (dict_get sgraphvars "n" ≫= setattr g "_num_vertices");;
  (dict_get sgraphvars "m" ≫= setattr g "_num_edges");;
  (dict_get sgraphvars "weighted" ≫= setattr g "_weighted");;
  (dict_get sgraphvars "vol" ≫= setattr g "vol_G");;
  ai ← load_shared sgraphvars "ai";
  setattr g "ai" (VArray ai);;
  aj ← load_shared sgraphvars "aj";
  setattr g "aj" (VArray aj);;
  a ← load_shared sgraphvars "a";
  aj ← get_array g "aj";
  ai ← get_array g "ai";
  n ← get_int g "_num_vertices";
  A ← csr_from_arrays a aj ai n;
  setattr g "adjacency_matrix" (VMatrix A);;
  d ← load_shared sgraphvars "d";
  setattr g "d" (VArray d);;
  dn ← load_shared sgraphvars "dn";
  setattr g "dn" (VArray dn);;
  d_sqrt ← load_shared sgraphvars "d_sqrt";
  setattr g "d_sqrt" (VArray d_sqrt);;
  dn_sqrt ← load_shared sgraphvars "dn_sqrt";
  setattr g "dn_sqrt" (VArray dn_sqrt);;
  mret g.

(** ** The largest component *)

(** [np.int64 if np.dtype(a[0]).name == 'int64' else np.uint32] *)
Definition index_type_of (a : loc) : M dtype :=
  b ← load a;
  match b with
  | ints t (_ :: _) => mret (if decide (t = int64) then int64 else uint32)
  | ints _ [] => raise IndexError
  | _ => raise TypeError
  end.

(** [largest_component] (l. 519-552): the object it returns. *)
Definition largest_component (self : oid) : M oid :=
  connected_components self;;
  k ← get_int self "number_of_components";
  if decide (k = 1) then
    mret self
  else
    (* find nodes of largest component *)
    components ← get_array self "components" ≫= load_ints;
    what_key ← lift (most_common_key components);
    n ← get_int self "_num_vertices";
    maxccnodes ←
      lift (foldr (λ i acc,
                     match np_getitem components i, acc with
                     | Raise e, _ | Ok _, Raise e => Raise e
                     | Ok c, Ok l => Ok (if decide (what_key = c) then i :: l else l)
                     end)
                  (Ok []) (range 0 n));
    g_copy ← new_object;
    A ← get_matrix self "adjacency_matrix";
    Av ← load_csr A;
    (if decide (Forall (λ i, 0 ≤ i < Z.of_nat (shape Av)) maxccnodes) then mret ()
     else raise IndexError);;
    A' ← new_csr (submatrix Av (Z.to_nat <$> maxccnodes));
    setattr g_copy "adjacency_matrix" (VMatrix A');;
    setattr g_copy "_num_vertices" (VInt (Z.of_nat (length maxccnodes)));;
    compute_statistics g_copy;;
    (getattr self "_weighted" ≫= setattr g_copy "_weighted");;
    itype ← get_array self "ai" ≫= index_type_of;
    vtype ← get_array self "aj" ≫= index_type_of;
    A' ← get_matrix g_copy "adjacency_matrix";
    Av' ← load_csr A';
    ai ← alloc (ints itype (astype itype <$> indptr Av'));
    setattr g_copy "ai" (VArray ai);;
    aj ← alloc (ints vtype (astype vtype <$> indices Av'));
    setattr g_copy "aj" (VArray aj);;
    setattr g_copy "_num_edges" (VInt (nnz Av'));;
    mret g_copy.

(** ** Running a program *)

(** The interpreter state in which nothing has been allocated. *)
Definition empty_world : world := World [] [].

(** [g = GraphLocal(); g.list_to_gl(source, target, weights)] with the
    default index types. *)
Definition build (source target : list Z) (weights : list Qc) : M oid :=
  g ← new_object;
  list_to_gl g source target weights uint32 uint32;;
  mret g.

(** [g = GraphLocal(); g.read_graph(...)] on the parsed table, with the
    default index types. *)
Definition build_from_table (df : DataFrame) : M oid :=
  g ← new_object;
  read_graph g df uint32 uint32;;
  mret g.

(** ** Reading a graph object

    [view g] reads every attribute a built graph has, and the arrays behind
    them: what a reader of the object observes. *)

Record Graph := MkGraph {
  g_n : Z;                      (* _num_vertices *)
  g_m : Z;                      (* _num_edges *)
  g_weighted : bool;            (* _weighted *)
  g_vol : Qc;                   (* vol_G *)
  g_matrix : csr;               (* adjacency_matrix *)
  g_ai : list Z;                (* ai *)
  g_aj : list Z;                (* aj *)
  g_d : list Qc;                (* d *)
  g_dn : list Qc;               (* dn *)
  g_d_sqrt : list surd;         (* d_sqrt *)
  g_dn_sqrt : list surd         (* dn_sqrt *)
}.

Definition load_surds (a : loc) : M (list surd) :=
  b ← load a; match b with surds l => mret l | _ => raise TypeError end.

Definition view (g : oid) : M Graph :=
  n ← get_int g "_num_vertices";
  m ← get_int g "_num_edges";
  w ← get_bool g "_weighted";
  vol ← get_float g "vol_G";
  A ← get_matrix g "adjacency_matrix" ≫= load_csr;
  ai ← get_array g "ai" ≫= load_ints;
  aj ← get_array g "aj" ≫= load_ints;
  d ← get_array g "d" ≫= load_floats;
  dn ← get_array g "dn" ≫= load_floats;
  d_sqrt ← get_array g "d_sqrt" ≫= load_surds;
  dn_sqrt ← get_array g "dn_sqrt" ≫= load_surds;
  mret (MkGraph n m w vol A ai aj d dn d_sqrt dn_sqrt).

(** The statistics [compute_statistics] derives from a matrix. *)
Definition inv_degree (x : Qc) : Qc := if decide (x = 0%Qc) then 0%Qc else (1 / x)%Qc.

(** The graph whose matrix is [A], with everything else derived from it as
    the constructors derive it. *)
Definition graph_of (A : csr) (weighted : bool) (vtype itype : dtype) : Graph :=
  let dv := row_sums A in
  {| g_n := Z.of_nat (shape A);
     g_m := nnz A;
     g_weighted := weighted;
     g_vol := Qc_sum dv;
     g_matrix := A;
     g_ai := astype itype <$> indptr A;
     g_aj := astype vtype <$> indices A;
     g_d := dv;
     g_dn := inv_degree <$> dv;
     g_d_sqrt := Sqrt <$> dv;
     g_dn_sqrt := Sqrt <$> (inv_degree <$> dv) |}.

(** What the constructors make of the matrix they build from the edge list:
    it is kept when it is symmetric, and replaced otherwise. *)
Definition symmetrized (A : csr) : csr :=
  if decide (csr_sum (csr_ne A (transpose A)) = 0%Qc) then A
  else
    let sel := csr_gt (transpose A) A in
    csr_add (csr_sub A (csr_multiply A sel)) (csr_multiply (transpose A) sel).

(** A graph some constructor built, in the world it left behind. *)
Inductive built (σ : world) (g : oid) : Prop :=
  | built_from_lists σ0 source target weights :
      build source target weights σ0 = (Ok g, σ) → built σ g
  | built_from_table σ0 df :
      build_from_table df σ0 = (Ok g, σ) → built σ g.

(** ** Where a graph object keeps its data *)

(** The attribute [a] of the object [g]. *)
Definition attr (σ : world) (g : oid) (a : string) : option value :=
  objs σ !! g ≫= (.!! a).

(** The memory blocks the arrays of a graph object are views of. *)
Record layout := Layout {
  l_matrix : csr_matrix;
  l_ai : loc; l_aj : loc;
  l_d : loc; l_dn : loc; l_d_sqrt : loc; l_dn_sqrt : loc;
  l_itype : dtype; l_vtype : dtype       (* the dtypes of [ai] and [aj] *)
}.

(** The blocks of a layout. *)
Definition blocks (L : layout) : list loc :=
  [m_data (l_matrix L); m_indices (l_matrix L); m_indptr (l_matrix L);
   l_ai L; l_aj L; l_d L; l_dn L; l_d_sqrt L; l_dn_sqrt L].

Definition floats_in (h : list cell) (l : loc) (xs : list Qc) : Prop :=
  ∃ s, h !! l = Some (Cell s (floats xs)).
Definition surds_in (h : list cell) (l : loc) (xs : list surd) : Prop :=
  ∃ s, h !! l = Some (Cell s (surds xs)).
Definition ints_in (h : list cell) (l : loc) (xs : list Z) : Prop :=
  ∃ s t, h !! l = Some (Cell s (ints t xs)).
Definition typed_ints_in (h : list cell) (l : loc) (t : dtype) (xs : list Z) : Prop :=
  ∃ s, h !! l = Some (Cell s (ints t xs)).

(** The arrays of the matrix object [A] hold the value [Av]. *)
Definition csr_in (h : list cell) (A : csr_matrix) (Av : csr) : Prop :=
  m_shape A = shape Av ∧
  floats_in h (m_data A) (data Av) ∧
  ints_in h (m_indices A) (indices Av) ∧
  ints_in h (m_indptr A) (indptr Av).

(** In the world [σ] the object [g] is a graph laid out as [L] whose
    attributes and arrays read [G]. *)
Definition graph_at (σ : world) (g : oid) (G : Graph) (L : layout) : Prop :=
  attr σ g "_num_vertices" = Some (VInt (g_n G)) ∧
  attr σ g "_num_edges" = Some (VInt (g_m G)) ∧
  attr σ g "_weighted" = Some (VBool (g_weighted G)) ∧
  attr σ g "vol_G" = Some (VFloat (g_vol G)) ∧
  attr σ g "adjacency_matrix" = Some (VMatrix (l_matrix L)) ∧
  attr σ g "ai" = Some (VArray (l_ai L)) ∧
  attr σ g "aj" = Some (VArray (l_aj L)) ∧
  attr σ g "d" = Some (VArray (l_d L)) ∧
  attr σ g "dn" = Some (VArray (l_dn L)) ∧
  attr σ g "d_sqrt" = Some (VArray (l_d_sqrt L)) ∧
  attr σ g "dn_sqrt" = Some (VArray (l_dn_sqrt L)) ∧
  csr_in (heap σ) (l_matrix L) (g_matrix G) ∧
  typed_ints_in (heap σ) (l_ai L) (l_itype L) (g_ai G) ∧
  typed_ints_in (heap σ) (l_aj L) (l_vtype L) (g_aj G) ∧
  floats_in (heap σ) (l_d L) (g_d G) ∧
  floats_in (heap σ) (l_dn L) (g_dn G) ∧
  surds_in (heap σ) (l_d_sqrt L) (g_d_sqrt G) ∧
  surds_in (heap σ) (l_dn_sqrt L) (g_dn_sqrt G).

(** ** What the constructors compute, as values *)

(** The loop that sets [_weighted]: some stored weight differs from 1. *)
Definition is_weighted (A : csr) : bool := bool_decide (Exists (λ x, x ≠ 1%Qc) (data A)).

(** The matrix a constructor builds from its three arrays, before it is
    symmetrized: [n] is one more than the largest id. *)
Definition edge_matrix (source target : list Z) (weights : list Qc) : result csr :=
  match np_max source, np_max target with
  | Ok smax, Ok tmax => csr_from_coo weights source target (Z.max (smax + 1) (tmax + 1))
  | Raise e, _ | Ok _, Raise e => Raise e
  end.

(** The three arrays [read_graph] takes from the parsed table (l. 180-190). *)
Definition table_edges (df : DataFrame) : result (list Z * list Z * list Qc) :=
  match df with
  | Column _ => Raise IndexError
  | Columns source target [] => Ok (source, target, replicate (length source) 1%Qc)
  | Columns source target [c] => Ok (source, target, column_values c)
  | Columns _ _ _ => Raise (Exception "GraphLocal.read_graph: df.shape[1] not in (2, 3)")
  end.

(** Nothing the world [σ0] held is changed in [σ]: blocks and objects are
    only added. *)
Definition extends (σ0 σ : world) : Prop :=
  heap σ0 `prefix_of` heap σ ∧ objs σ0 `prefix_of` objs σ.

(** ** Quantities the scoring claims speak of *)

(** [degree[v]] *)
Definition degree (G : Graph) (v : Z) : Qc := default 0%Qc (g_d G !! Z.to_nat v).

(** The sum of the weights of the stored entries [(u, v, w)] with both [u]
    and [v] in [R], each stored (directed) entry counted once. *)
Definition internal_weight (A : csr) (R : list Z) : Qc :=
  Qc_sum (snd <$> filter (λ e : Z * Z * Qc, e.1.1 ∈ R ∧ e.1.2 ∈ R) (entries A)).

(** The sum of the weights of the stored entries that leave [R]. *)
Definition boundary_weight (A : csr) (R : list Z) : Qc :=
  Qc_sum (snd <$> filter (λ e : Z * Z * Qc, e.1.1 ∈ R ∧ e.1.2 ∉ R) (entries A)).

(** The smaller of two rationals. *)
Definition Qc_min (a b : Qc) : Qc := if decide (a ≤ b)%Qc then a else b.

(** The larger of two rationals. *)
Definition Qc_max (a b : Qc) : Qc := if decide (a < b)%Qc then b else a.

(** ** The path graph 0 - 1 - 2 - 3 with unit weights *)

Definition path_program : M oid := build [0; 1; 2] [1; 2; 3] [1; 1; 1]%Qc.
Definition path_graph : oid := 0%nat.
Definition path_world : world := (path_program empty_world).2.

(** ** Definitions the proofs use *)

Definition tab_row (n : nat) (f : nat → nat → option Qc) (i : nat) : list (Z * Qc) :=
  omap (λ j, (Z.of_nat j,.) <$> f i j) (seq 0 n).

(** A world seen from the object [g]: the blocks [hs] allocated since the
    block list was [h0], and the attributes of [g]. *)
Definition focus (h0 hs : list cell) (os : list (gmap string value)) (g : oid)
    (attrs : gmap string value) : world :=
  World (h0 ++ hs) (<[g := attrs]> os).

(** The branch of the constructors that replaces an asymmetric matrix. *)
Definition symmetrize (A : csr) : csr :=
  let sel := csr_gt (transpose A) A in
  csr_add (csr_sub A (csr_multiply A sel)) (csr_multiply (transpose A) sel).

(** A built graph, as a value. *)
Definition constructed (G : Graph) : Prop :=
  ∃ s t w A0, edge_matrix s t w = Ok A0 ∧
              G = graph_of (symmetrized A0) (is_weighted A0) uint32 uint32.

(** The indicator of [R]. *)
Definition ind (R : list Z) (x : Z) : Qc := if decide (x ∈ R) then 1%Qc else 0%Qc.

(** * Built graphs as values *)

Definition tabulated (A : csr) : Prop := ∃ f, A = tabulate (shape A) f.

Record constructed_facts (G : Graph) : Prop := {
  cf_matrix : tabulated (g_matrix G);
  cf_n : g_n G = Z.of_nat (shape (g_matrix G));
  cf_pos : 0 < g_n G;
  cf_m : g_m G = nnz (g_matrix G);
  cf_d : g_d G = row_sums (g_matrix G);
  cf_vol : g_vol G = Qc_sum (g_d G);
  cf_dn : g_dn G = inv_degree <$> g_d G;
  cf_d_sqrt : g_d_sqrt G = Sqrt <$> g_d G;
  cf_dn_sqrt : g_dn_sqrt G = Sqrt <$> g_dn G;
  cf_ai : g_ai G = astype uint32 <$> indptr (g_matrix G);
  cf_aj : g_aj G = astype uint32 <$> indices (g_matrix G)
}.

(** What [set_scores] makes of [voltrue] and [cut] (l. 496-517). *)
Definition finish_scores (n : Z) (vol_G : Qc) (R : list Z) (voltrue cut : Qc) : scores :=
  let voleff := py_min voltrue (vol_G - voltrue)%Qc in
  let sizetrue := Z.of_nat (length R) in
  let sizeeff := if decide (voleff < voltrue)%Qc then n - sizetrue else sizetrue in
  Scores voltrue cut voleff sizetrue sizeeff (voltrue - cut)%Qc (voleff - cut)%Qc
    (if decide (voleff ≠ 0%Qc) then (cut / voleff)%Qc else 1%Qc)
    (if decide (sizeeff ≠ 0) then (cut / Qc_of_Z sizeeff)%Qc else 1%Qc).

(** [aj[ai[v]:ai[v+1]]] on the two arrays. *)
Definition neighbors_of (ai aj : list Z) (v : Z) : result (list Z) :=
  match np_getitem ai v with
  | Raise e => Raise e
  | Ok s =>
      match np_getitem ai (v + 1) with
      | Raise e => Raise e
      | Ok e => Ok (np_slice aj s e)
      end
  end.

(** The index arrays hold the matrix's own offsets and columns: nothing
    wrapped around in the cast to 32 bits. *)
Definition index_arrays_fit (G : Graph) : Prop :=
  g_m G < 2^32 ∧ g_n G ≤ 2^32.

(** The comparison [local_extrema] makes between a vertex and a neighbor. *)
Definition precedes (strict : bool) (a b : Qc) : Prop :=
  if strict then (a < b)%Qc else (a ≤ b)%Qc.

(** Vertex [i] with value [x] is an extremum among the vertices [ns]. *)
Definition extremum (vals : list Qc) (factor : Qc) (strict : bool) (i : Z) (x : Qc)
    (ns : list Z) : Prop :=
  ∀ j, j ∈ ns → j ≠ i →
    ∃ y, vals !! Z.to_nat j = Some y ∧ precedes strict (factor * x)%Qc (factor * y)%Qc.

(** The matrix [A] holds the larger of the two directed weights of [A0] at
    every position, reads the same in both directions, and stores the mirror
    of every entry whose weight is not zero. *)
Definition reconciled (A0 A : csr) : Prop :=
  shape A = shape A0 ∧
  (∀ i j, (i < shape A0)%nat → (j < shape A0)%nat →
          val A i j = Qc_max (val A0 i j) (val A0 j i)) ∧
  (∀ i j, (i < shape A0)%nat → (j < shape A0)%nat → val A i j = val A j i) ∧
  (∀ u v w, (u, v, w) ∈ entries A → w ≠ 0%Qc → (v, u, w) ∈ entries A).

(** The matrix with every stored weight replaced by 1 (l. 323). *)
Definition unit_weights (A : csr) : csr :=
  {| shape := shape A; indptr := indptr A; indices := indices A;
     data := replicate (length (data A)) 1%Qc |}.

(** What a reader of the graph [G] finds after [discard_weights]: the
    weights are 1, the flag is off, the statistics are those of the new
    weights; the counts and the index arrays are as they were. *)
Definition discarded (G : Graph) : Graph :=
  let A := unit_weights (g_matrix G) in
  let dv := row_sums A in
  {| g_n := g_n G;
     g_m := g_m G;
     g_weighted := false;
     g_vol := Qc_sum dv;
     g_matrix := A;
     g_ai := g_ai G;
     g_aj := g_aj G;
     g_d := dv;
     g_dn := inv_degree <$> dv;
     g_d_sqrt := Sqrt <$> dv;
     g_dn_sqrt := Sqrt <$> (inv_degree <$> dv) |}.

(** ** Shared blocks *)

(** The block [l] is one [mp.RawArray] allocated. *)
Definition shared_at (σ : world) (l : loc) : Prop :=
  ∃ b, heap σ !! l = Some (Cell true b).

(** The arrays [to_shared] exports, in the order it exports them. *)
Definition exported (L : layout) : list loc :=
  [l_ai L; l_aj L; l_d L; l_dn L; l_d_sqrt L; l_dn_sqrt L; m_data (l_matrix L)].

(** The dictionary [to_shared] returns for the graph [G] laid out as [L]. *)
Definition descriptor (G : Graph) (L : layout) : gmap string value :=
  <["weighted" := VBool (g_weighted G)]>
  (<["vol" := VFloat (g_vol G)]>
  (<["m" := VInt (g_m G)]>
  (<["n" := VInt (g_n G)]>
  (<["a" := VShared (m_data (l_matrix L)) float64 (length (data (g_matrix G)))]>
  (<["dn_sqrt" := VShared (l_dn_sqrt L) float64 (length (g_dn_sqrt G))]>
  (<["d_sqrt" := VShared (l_d_sqrt L) float64 (length (g_d_sqrt G))]>
  (<["dn" := VShared (l_dn L) float64 (length (g_dn G))]>
  (<["d" := VShared (l_d L) float64 (length (g_d G))]>
  (<["aj" := VShared (l_aj L) (l_vtype L) (length (g_aj G))]>
  (<["ai" := VShared (l_ai L) (l_itype L) (length (g_ai G))]> ∅)))))))))).

(** What a reader finds after the adjacency matrix has been rebuilt from the
    graph's own index arrays (l. 366-368 and l. 385-387): the matrix has the
    arrays [ai] and [aj] for its row pointers and column indices. *)
Definition rebuilt (G : Graph) : Graph :=
  {| g_n := g_n G;
     g_m := g_m G;
     g_weighted := g_weighted G;
     g_vol := g_vol G;
     g_matrix := {| shape := Z.to_nat (g_n G); indptr := g_ai G; indices := g_aj G;
                    data := data (g_matrix G) |};
     g_ai := g_ai G;
     g_aj := g_aj G;
     g_d := g_d G;
     g_dn := g_dn G;
     g_d_sqrt := g_d_sqrt G;
     g_dn_sqrt := g_dn_sqrt G |}.

(** The triplet [e] sits at position [(i, j)]. *)
Definition at_position (i j : nat) (e : Z * Z * Qc) : Prop :=
  e.1.1 = Z.of_nat i ∧ e.1.2 = Z.of_nat j.

#[global] Instance at_position_dec i j e : Decision (at_position i j e).
Proof. unfold at_position. apply _. Defined.

(** ** A graph of two components: the edge 0 - 1 and the path 2 - 3 - 4 *)

Definition forest_program : M oid := build [0; 2; 3] [1; 3; 4] [1; 1; 1]%Qc.
Definition forest_graph : oid := 0%nat.
Definition forest_world : world := (forest_program empty_world).2.

(** Two components of two vertices each: the edge 0-3 of weight 2 and the
    edge 1-2 of weight 4. *)
Definition pairs_program : M oid := build [0; 1] [3; 2] (Qc_of_Z <$> [2; 4]).
Definition pairs_graph : oid := 0%nat.
Definition pairs_world : world := (pairs_program empty_world).2.

(** * Proofs *)

Local Open Scope Z_scope.

(** * CSR layout *)

Lemma np_slice_nonneg {A} (l : list A) (s e : nat) :
  (s ≤ e ≤ length l)%nat →
  np_slice l (Z.of_nat s) (Z.of_nat e) = take (e - s) (drop s l).
Proof.
  intros H. unfold np_slice, clip_bound.
  repeat case_decide; try lia.
  rewrite !Z.min_l by lia. f_equal; [lia|]. f_equal. lia.
Qed.

Lemma offsets_from_lookup acc lens i :
  (i ≤ length lens)%nat →
  offsets_from acc lens !! i = Some (acc + Z.of_nat (sum_list (take i lens))).
Proof.
  revert acc i. induction lens as [|k ks IH]; intros acc [|i] Hi; simpl in *;
    try (f_equal; lia).
  rewrite IH by lia. f_equal. lia.
Qed.

Lemma offsets_from_length acc lens : length (offsets_from acc lens) = S (length lens).
Proof. revert acc. induction lens; intros; simpl; [done|]. by rewrite IHlens. Qed.

Lemma length_concat_fmap {A B} (f : A → list B) (g : A → nat) (rs : list A) :
  (∀ r, length (f r) = g r) →
  length (concat (f <$> rs)) = sum_list (g <$> rs).
Proof. intros Hf. induction rs; csimpl; [done|]. by rewrite length_app, Hf, IHrs. Qed.

Lemma slice_concat {A B} (f : A → list B) (g : A → nat) (rs : list A) i r :
  (∀ r, length (f r) = g r) →
  rs !! i = Some r →
  np_slice (concat (f <$> rs))
           (Z.of_nat (sum_list (take i (g <$> rs))))
           (Z.of_nat (sum_list (take (S i) (g <$> rs)))) = f r.
Proof.
  intros Hf Hi.
  rewrite <-(take_drop_middle rs i r Hi) at 1.
  assert (length (take i rs) = i) as Hlen.
  { rewrite length_take. apply lookup_lt_Some in Hi. lia. }
  rewrite (take_S_r _ i (g r)) by (by rewrite list_lookup_fmap, Hi).
  rewrite sum_list_with_app. simpl.
  rewrite <-!fmap_take, <-(length_concat_fmap f g) by done.
  rewrite fmap_app, concat_app. simpl.
  rewrite np_slice_nonneg.
  2:{ rewrite !length_app, Hf. lia. }
  rewrite drop_app_length.
  replace (_ + (g r + 0) - _)%nat with (length (f r)) by (rewrite Hf; lia).
  by rewrite take_app_length.
Qed.

Lemma row_of_rows n rs i r : rs !! i = Some r → row (of_rows n rs) i = r.
Proof.
  intros Hi. unfold row, of_rows. simpl.
  pose proof (lookup_lt_Some _ _ _ Hi) as Hlt.
  rewrite !offsets_from_lookup by (rewrite length_fmap; lia). simpl.
  rewrite !Z.add_0_l.
  rewrite (slice_concat row_indices row_length rs i r), (slice_concat row_data row_length rs i r);
    try done.
  - apply zip_fst_snd.
  - intros. unfold row_data, row_length. by rewrite length_fmap.
  - intros. unfold row_indices, row_length. by rewrite length_fmap.
Qed.

Lemma row_tabulate n f i : (i < n)%nat → row (tabulate n f) i = tab_row n f i.
Proof.
  intros Hi. unfold tabulate. apply row_of_rows.
  rewrite list_lookup_fmap, lookup_seq_lt by done. done.
Qed.

Lemma shape_tabulate n f : shape (tabulate n f) = n.
Proof. done. Qed.

Lemma rows_tabulate n f : rows (tabulate n f) = tab_row n f <$> seq 0 n.
Proof.
  unfold rows. rewrite shape_tabulate. apply list_fmap_ext.
  intros i x Hx. apply lookup_seq in Hx as [-> ?]. by apply row_tabulate.
Qed.

Lemma lookup_col_omap (g : nat → option Qc) (l : list nat) j :
  NoDup l →
  lookup_col (Z.of_nat j) (omap (λ j, (Z.of_nat j,.) <$> g j) l) =
  if decide (j ∈ l) then g j else None.
Proof.
  induction 1 as [|x l Hx Hnd IH]; csimpl; [done|].
  assert (lookup_col (Z.of_nat j) (omap (λ j, (Z.of_nat j,.) <$> g j) l) =
          if decide (j = x) then None else if decide (j ∈ x :: l) then g j else None) as IH'.
  { rewrite IH. destruct (decide (j = x)) as [->|]; [by rewrite decide_False|].
    destruct (decide (j ∈ l)).
    - by rewrite decide_True by set_solver.
    - by rewrite decide_False by set_solver. }
  clear IH. destruct (decide (j = x)) as [->|Hne].
  - rewrite (decide_True (P := x ∈ x :: l)) by set_solver.
    destruct (g x) as [w|] eqn:Hg; csimpl; [|done].
    by rewrite decide_True.
  - destruct (g x) as [w|] eqn:Hg; csimpl; [|done].
    by rewrite decide_False by lia.
Qed.

Lemma get_tabulate n f i j :
  (i < n)%nat → (j < n)%nat → get (tabulate n f) i j = f i j.
Proof.
  intros Hi Hj. unfold get. rewrite row_tabulate by done. unfold tab_row.
  rewrite lookup_col_omap by apply NoDup_seq.
  rewrite decide_True; [done|]. apply elem_of_seq. lia.
Qed.

Lemma val_tabulate n f i j :
  (i < n)%nat → (j < n)%nat → val (tabulate n f) i j = default 0%Qc (f i j).
Proof. intros. unfold val. by rewrite get_tabulate. Qed.

Lemma default_nonzero q : default 0%Qc (nonzero q) = q.
Proof. unfold nonzero. by case_decide. Qed.

Lemma val_binop op A B i j :
  (i < shape A)%nat → (j < shape A)%nat →
  val (binop op A B) i j = op (val A i j) (val B i j).
Proof. intros. unfold binop. by rewrite val_tabulate, default_nonzero. Qed.

Lemma get_binop op A B i j :
  (i < shape A)%nat → (j < shape A)%nat →
  get (binop op A B) i j = nonzero (op (val A i j) (val B i j)).
Proof. intros. unfold binop. by rewrite get_tabulate. Qed.

Lemma val_transpose A i j :
  (i < shape A)%nat → (j < shape A)%nat → val (transpose A) i j = val A j i.
Proof. intros. unfold transpose, val. by rewrite get_tabulate. Qed.

Local Open Scope Z_scope.

(** * Stored entries of a tabulated matrix *)

Lemma elem_of_tab_row n f i j w :
  (Z.of_nat j, w) ∈ tab_row n f i ↔ (j < n)%nat ∧ f i j = Some w.
Proof.
  unfold tab_row. rewrite list_elem_of_omap. split.
  - intros (j' & Hj' & Hf). apply elem_of_seq in Hj'.
    destruct (f i j') as [w'|] eqn:E; simplify_eq/=.
    split; [lia|done].
  - intros [Hj Hf]. exists j. rewrite Hf. split; [|done]. apply elem_of_seq. lia.
Qed.

Lemma elem_of_tab_row_inv n f i c w :
  (c, w) ∈ tab_row n f i → ∃ j, c = Z.of_nat j ∧ (j < n)%nat ∧ f i j = Some w.
Proof.
  unfold tab_row. rewrite list_elem_of_omap.
  intros (j & Hj & Hf). apply elem_of_seq in Hj.
  destruct (f i j) as [w'|] eqn:E; simplify_eq/=. exists j. split; [done|]. split; [lia|done].
Qed.

Lemma elem_of_entries A u v w :
  (u, v, w) ∈ entries A ↔ ∃ i, (i < shape A)%nat ∧ u = Z.of_nat i ∧ (v, w) ∈ row A i.
Proof.
  unfold entries. rewrite list_elem_of_bind. split.
  - intros (i & Hin & Hi). apply elem_of_seq in Hi.
    apply list_elem_of_fmap in Hin as ([c w'] & Heq & Hin). simplify_eq/=.
    exists i. split; [lia|]. done.
  - intros (i & Hi & -> & Hin). exists i. split; [|apply elem_of_seq; lia].
    apply list_elem_of_fmap. by exists (v, w).
Qed.

Lemma elem_of_entries_tabulate n f u v w :
  (u, v, w) ∈ entries (tabulate n f) ↔
  ∃ i j, u = Z.of_nat i ∧ v = Z.of_nat j ∧ (i < n)%nat ∧ (j < n)%nat ∧ f i j = Some w.
Proof.
  rewrite elem_of_entries, shape_tabulate. split.
  - intros (i & Hi & -> & Hin). rewrite row_tabulate in Hin by done.
    apply elem_of_tab_row_inv in Hin as (j & -> & Hj & Hf). by exists i, j.
  - intros (i & j & -> & -> & Hi & Hj & Hf). exists i. split; [done|]. split; [done|].
    rewrite row_tabulate by done. by apply elem_of_tab_row.
Qed.

Lemma data_tabulate n f :
  data (tabulate n f) = concat ((λ i, row_data (tab_row n f i)) <$> seq 0 n).
Proof. unfold tabulate, of_rows. simpl. by rewrite <-list_fmap_compose. Qed.

Lemma indices_tabulate n f :
  indices (tabulate n f) = concat ((λ i, row_indices (tab_row n f i)) <$> seq 0 n).
Proof. unfold tabulate, of_rows. simpl. by rewrite <-list_fmap_compose. Qed.

Lemma concat_join {A} (ls : list (list A)) : concat ls = mjoin ls.
Proof. induction ls; csimpl; congruence. Qed.

Lemma elem_of_data_tabulate n f w :
  w ∈ data (tabulate n f) ↔ ∃ i j, (i < n)%nat ∧ (j < n)%nat ∧ f i j = Some w.
Proof.
  rewrite data_tabulate, concat_join, list_elem_of_join. split.
  - intros (l & Hw & Hl). apply list_elem_of_fmap in Hl as (i & -> & Hi).
    apply elem_of_seq in Hi. unfold row_data in Hw.
    apply list_elem_of_fmap in Hw as ([c w'] & -> & Hin).
    apply elem_of_tab_row_inv in Hin as (j & -> & Hj & Hf). exists i, j. split; [lia|done].
  - intros (i & j & Hi & Hj & Hf). exists (row_data (tab_row n f i)). split.
    + unfold row_data. apply list_elem_of_fmap. exists (Z.of_nat j, w). split; [done|].
      by apply elem_of_tab_row.
    + apply list_elem_of_fmap. exists i. split; [done|]. apply elem_of_seq. lia.
Qed.

Lemma tabulate_ext n f f' :
  (∀ i j, (i < n)%nat → (j < n)%nat → f i j = f' i j) → tabulate n f = tabulate n f'.
Proof.
  intros H. unfold tabulate. f_equal. apply list_fmap_ext. intros k i Hi.
  apply lookup_seq in Hi as [-> Hi]. simpl. apply list_omap_ext.
  apply Forall2_same_length_lookup. split; [done|].
  intros k' j j' Hj Hj'. simplify_eq. apply lookup_seq in Hj as [-> Hj]. simpl.
  by rewrite H.
Qed.

(** * Sums of rationals *)

Lemma Qc_sum_from (a : Qc) l : foldl Qcplus a l = (a + Qc_sum l)%Qc.
Proof.
  unfold Qc_sum. revert a. induction l as [|x l IH]; intros a; simpl.
  - by rewrite Qcplus_0_r.
  - rewrite IH, (IH (0 + x)%Qc). ring.
Qed.

Lemma Qc_sum_nil : Qc_sum [] = 0%Qc.
Proof. done. Qed.

Lemma Qc_sum_cons x l : Qc_sum (x :: l) = (x + Qc_sum l)%Qc.
Proof. unfold Qc_sum at 1. simpl. rewrite Qc_sum_from. ring. Qed.

Lemma Qc_sum_app l k : Qc_sum (l ++ k) = (Qc_sum l + Qc_sum k)%Qc.
Proof.
  induction l as [|x l IH]; simpl.
  - rewrite Qc_sum_nil. ring.
  - rewrite !Qc_sum_cons, IH. ring.
Qed.

Lemma Qc_sum_pos l : Forall (λ x, 0 < x)%Qc l → l ≠ [] → (0 < Qc_sum l)%Qc.
Proof.
  induction 1 as [|x l Hx Hl IH]; [done|]. intros _. rewrite Qc_sum_cons.
  destruct l as [|y l]; [by rewrite Qc_sum_nil, Qcplus_0_r|].
  apply Qcplus_pos_pos; [done|]. by apply IH.
Qed.

Local Open Scope Z_scope.

(** * Running programs on a focused world *)

Lemma focus_intro σ g attrs :
  objs σ !! g = Some attrs → σ = focus (heap σ) [] (objs σ) g attrs.
Proof.
  intros H. unfold focus. rewrite app_nil_r, list_insert_id by done. by destruct σ.
Qed.

Lemma run_bind {A B} (c : M A) (k : A → M B) σ :
  (c ≫= k) σ = match c σ with (Ok a, σ') => k a σ' | (Raise e, σ') => (Raise e, σ') end.
Proof. done. Qed.

Lemma run_ret {A} (a : A) σ : (mret a : M A) σ = (Ok a, σ).
Proof. done. Qed.

Lemma run_raise {A} e σ : (raise e : M A) σ = (Raise e, σ).
Proof. done. Qed.

Lemma run_lift {A} (r : result A) σ : lift r σ = (r, σ).
Proof. done. Qed.

Section focus.
Context (h0 hs : list cell) (os : list (gmap string value)) (g : oid)
        (attrs : gmap string value).

Lemma getattr_focus a :
  (g < length os)%nat →
  getattr g a (focus h0 hs os g attrs) =
  (match attrs !! a with Some v => Ok v | None => Raise AttributeError end,
   focus h0 hs os g attrs).
Proof.
  intros Hg.
  unfold getattr, focus. simpl. rewrite list_lookup_insert_eq by done. simpl.
  by destruct (attrs !! a).
Qed.

Lemma setattr_focus a v :
  (g < length os)%nat →
  setattr g a v (focus h0 hs os g attrs) = (Ok (), focus h0 hs os g (<[a:=v]> attrs)).
Proof.
  intros Hg.
  unfold setattr, focus. simpl. rewrite list_lookup_insert_eq by done.
  by rewrite list_insert_insert_eq.
Qed.

Lemma alloc_cell_focus c :
  alloc_cell c (focus h0 hs os g attrs) =
  (Ok (length h0 + length hs)%nat, focus h0 (hs ++ [c]) os g attrs).
Proof. unfold alloc_cell, focus. simpl. by rewrite length_app, app_assoc. Qed.

Lemma load_focus_new (k : nat) :
  load (length h0 + k)%nat (focus h0 hs os g attrs) =
  (match hs !! k with Some c => Ok (contents c) | None => Raise ValueError end,
   focus h0 hs os g attrs).
Proof.
  unfold load, focus. simpl. rewrite lookup_app_r by lia.
  replace (length h0 + k - length h0)%nat with k by lia. by destruct (hs !! k).
Qed.

Lemma load_focus_old l c :
  h0 !! l = Some c →
  load l (focus h0 hs os g attrs) = (Ok (contents c), focus h0 hs os g attrs).
Proof. intros H. unfold load, focus. simpl. by rewrite (lookup_app_l_Some _ _ _ _ H). Qed.

Lemma store_focus_new (k : nat) b c :
  hs !! k = Some c →
  store (length h0 + k)%nat b (focus h0 hs os g attrs) =
  (Ok (), focus h0 (<[k := Cell (shared c) b]> hs) os g attrs).
Proof.
  intros H. unfold store, focus. simpl. rewrite lookup_app_r by lia.
  replace (length h0 + k - length h0)%nat with k by lia. rewrite H.
  by rewrite insert_app_r.
Qed.

Lemma store_focus_old l b c :
  h0 !! l = Some c →
  store l b (focus h0 hs os g attrs) =
  (Ok (), focus (<[l := Cell (shared c) b]> h0) hs os g attrs).
Proof.
  intros H. unfold store, focus. simpl. rewrite (lookup_app_l_Some _ _ _ _ H).
  rewrite insert_app_l by (by eapply lookup_lt_Some). done.
Qed.

End focus.

Lemma load_focus h0 hs os g attrs l c :
  (h0 ++ hs) !! l = Some c →
  load l (focus h0 hs os g attrs) = (Ok (contents c), focus h0 hs os g attrs).
Proof. intros H. unfold load, focus. simpl. by rewrite H. Qed.

Lemma csr_in_app h hs A Av : csr_in h A Av → csr_in (h ++ hs) A Av.
Proof.
  intros (? & [s1 H1] & (s2 & t2 & H2) & (s3 & t3 & H3)).
  unfold csr_in, floats_in, ints_in. split_and!; eauto using lookup_app_l_Some.
Qed.

Lemma load_csr_focus h0 hs os g attrs A Av :
  csr_in (h0 ++ hs) A Av →
  load_csr A (focus h0 hs os g attrs) = (Ok Av, focus h0 hs os g attrs).
Proof.
  intros (Hs & [s1 H1] & (s2 & t2 & H2) & (s3 & t3 & H3)).
  unfold load_csr, load_floats, load_ints.
  rewrite !run_bind, (load_focus _ _ _ _ _ _ _ H1). simpl.
  rewrite !run_bind, (load_focus _ _ _ _ _ _ _ H2). simpl.
  rewrite !run_bind, (load_focus _ _ _ _ _ _ _ H3). simpl.
  rewrite Hs. by destruct Av.
Qed.

Ltac run_step :=
  first
    [ rewrite run_bind
    | rewrite run_ret
    | rewrite run_raise
    | rewrite run_lift
    | rewrite getattr_focus by done
    | rewrite setattr_focus by done
    | rewrite alloc_cell_focus by done ].


Ltac run :=
  repeat first
    [ run_step
    | rewrite lookup_insert_eq
    | rewrite lookup_insert_ne by done
    | progress cbv beta iota ].

Lemma lookup_new (h0 hs cs : list cell) (l k : nat) c :
  l = (length h0 + length hs + k)%nat → cs !! k = Some c →
  (h0 ++ hs ++ cs) !! l = Some c.
Proof.
  intros -> H. rewrite lookup_app_r by lia. rewrite lookup_app_r by lia.
  rewrite <-H. f_equal. lia.
Qed.

Lemma rows_length A : length (rows A) = shape A.
Proof. unfold rows. by rewrite length_fmap, length_seq. Qed.

Lemma row_sums_length A : length (row_sums A) = shape A.
Proof. unfold row_sums. by rewrite length_fmap, rows_length. Qed.


Lemma store_focus_app h0 hs cs os g attrs (l k : nat) b c :
  l = (length h0 + length hs + k)%nat → cs !! k = Some c →
  store l b (focus h0 (hs ++ cs) os g attrs) =
  (Ok (), focus h0 (hs ++ <[k := Cell (shared c) b]> cs) os g attrs).
Proof.
  intros -> H. replace (length h0 + length hs + k)%nat with (length h0 + (length hs + k))%nat by lia.
  rewrite store_focus_new with (c := c).
  - by rewrite insert_app_r.
  - rewrite lookup_app_r by lia. rewrite <-H. f_equal. lia.
Qed.

Ltac norm_loc :=
  repeat match goal with
  | |- context [(length ?h0 + (length ?hs + ?k))%nat] =>
      let k' := eval cbv in k in
      replace (length h0 + (length hs + k))%nat with (length h0 + length hs + k')%nat by lia
  end.

Ltac norm_heap := rewrite <-?app_assoc, ?length_app; cbn [app length]; norm_loc.

Lemma compute_statistics_focus h0 hs os g attrs A Av :
  (g < length os)%nat →
  attrs !! "adjacency_matrix" = Some (VMatrix A) →
  attrs !! "_num_vertices" = Some (VInt (Z.of_nat (shape Av))) →
  csr_in (h0 ++ hs) A Av →
  let dv := row_sums Av in
  let b := (length h0 + length hs)%nat in
  compute_statistics g (focus h0 hs os g attrs) =
  (Ok (),
   focus h0 (hs ++ [Cell false (floats dv); Cell false (floats (inv_degree <$> dv));
                    Cell false (surds (Sqrt <$> dv));
                    Cell false (surds (Sqrt <$> (inv_degree <$> dv)))])
         os g
         (<["vol_G" := VFloat (Qc_sum dv)]>
          (<["dn_sqrt" := VArray (b + 3)%nat]>
          (<["d_sqrt" := VArray (b + 2)%nat]>
          (<["dn" := VArray (b + 1)%nat]>
          (<["d" := VArray b]> attrs)))))).
Proof.
  intros Hg HA Hn Hcsr dv b.
  unfold compute_statistics, get_matrix, get_int, alloc.
  run. rewrite HA. run. rewrite (load_csr_focus _ _ _ _ _ _ _ Hcsr).
  run. rewrite Hn. run.
  rewrite decide_False by lia. run.
  rewrite decide_True by (rewrite row_sums_length; lia). run.
  norm_heap.
  erewrite store_focus_app with (k := 1%nat); [|lia|done].
  simpl (<[_:=_]> [_; _]).
  run. norm_heap. run.
  done.
Qed.

Local Open Scope Z_scope.

(** * Symmetrization *)

Lemma shape_binop op A B : shape (binop op A B) = shape A.
Proof. done. Qed.

Lemma shape_transpose A : shape (transpose A) = shape A.
Proof. done. Qed.


Lemma shape_symmetrize A : shape (symmetrize A) = shape A.
Proof. done. Qed.

Lemma val_symmetrize A i j :
  (i < shape A)%nat → (j < shape A)%nat →
  val (symmetrize A) i j = Qc_max (val A i j) (val A j i).
Proof.
  intros Hi Hj. unfold symmetrize, csr_add, csr_sub, csr_multiply, csr_gt.
  rewrite !val_binop, !val_transpose by done.
  unfold Qc_max, Qc_of_bool. case_bool_decide; case_decide; try done; ring.
Qed.

Lemma Qc_max_comm a b : Qc_max a b = Qc_max b a.
Proof.
  unfold Qc_max. repeat case_decide; try done.
  - exfalso. by eapply Qclt_not_le; [|apply Qclt_le_weak].
  - apply Qcle_antisym; by apply Qcnot_lt_le.
Qed.

Lemma data_tabulate_none n : data (tabulate n (λ _ _, None)) = [].
Proof.
  rewrite data_tabulate. unfold tab_row.
  assert (∀ l : list nat, omap (λ j, (Z.of_nat j,.) <$> (@None Qc)) l = []) as Hrow.
  { induction l; csimpl; done. }
  setoid_rewrite Hrow.
  induction (seq 0 n) as [|x l IH]; csimpl; done.
Qed.

Lemma csr_ne_sum_zero A B :
  (∀ i j, (i < shape A)%nat → (j < shape A)%nat → val A i j = val B i j) →
  csr_sum (csr_ne A B) = 0%Qc.
Proof.
  intros H. unfold csr_sum, csr_ne, binop.
  rewrite (tabulate_ext _ _ (λ _ _, None)).
  - by rewrite data_tabulate_none.
  - intros i j Hi Hj. rewrite H by done. unfold nonzero, Qc_of_bool.
    rewrite bool_decide_false by naive_solver. done.
Qed.

Lemma csr_ne_sum_zero_inv A B i j :
  csr_sum (csr_ne A B) = 0%Qc →
  (i < shape A)%nat → (j < shape A)%nat → val A i j = val B i j.
Proof.
  intros Hsum Hi Hj. destruct (decide (val A i j = val B i j)) as [|Hne]; [done|].
  exfalso. unfold csr_sum, csr_ne, binop in Hsum.
  set (f := λ i j, nonzero (Qc_of_bool (bool_decide (val A i j ≠ val B i j)))) in *.
  assert (0 < Qc_sum (data (tabulate (shape A) f)))%Qc as Hpos.
  { apply Qc_sum_pos.
    - apply Forall_forall. intros w Hw. apply elem_of_data_tabulate in Hw as (i' & j' & _ & _ & Hf).
      unfold f, nonzero, Qc_of_bool in Hf. case_bool_decide; case_decide; by simplify_eq.
    - intros Hnil. assert (1%Qc ∈ data (tabulate (shape A) f)) as Hin.
      { apply elem_of_data_tabulate. exists i, j. split; [done|]. split; [done|].
        unfold f, nonzero, Qc_of_bool. by rewrite bool_decide_true. }
      rewrite Hnil in Hin. by apply elem_of_nil in Hin. }
  rewrite Hsum in Hpos. by apply Qclt_not_eq in Hpos.
Qed.

Lemma symmetrize_assert A :
  csr_sum (csr_ne (symmetrize A) (transpose (symmetrize A))) = 0%Qc.
Proof.
  apply csr_ne_sum_zero. intros i j Hi Hj. rewrite shape_symmetrize in *.
  rewrite val_transpose by done. rewrite !val_symmetrize by done. apply Qc_max_comm.
Qed.

Lemma shape_symmetrized A : shape (symmetrized A) = shape A.
Proof. unfold symmetrized. by case_decide. Qed.

Lemma val_symmetrized A i j :
  (i < shape A)%nat → (j < shape A)%nat →
  val (symmetrized A) i j = Qc_max (val A i j) (val A j i).
Proof.
  intros Hi Hj. unfold symmetrized. case_decide as Hs.
  - pose proof (csr_ne_sum_zero_inv _ _ i j Hs Hi Hj) as Heq.
    rewrite val_transpose in Heq by done. rewrite <-Heq.
    unfold Qc_max. case_decide as Hlt; [|done]. by apply Qclt_not_eq in Hlt.
  - by apply val_symmetrize.
Qed.

Local Open Scope Z_scope.
Local Open Scope nat_scope.

Lemma attr_focus h0 hs os g attrs a :
  (g < length os)%nat → attr (focus h0 hs os g attrs) g a = attrs !! a.
Proof. intros. unfold attr, focus. simpl. by rewrite list_lookup_insert_eq. Qed.

Lemma new_csr_focus h0 hs os g attrs Av :
  new_csr Av (focus h0 hs os g attrs) =
  (Ok (CsrMatrix (shape Av) (length h0 + length hs) (length h0 + length hs + 1)
                 (length h0 + length hs + 2)),
   focus h0 (hs ++ [Cell false (floats (data Av)); Cell false (ints int32 (indices Av));
                    Cell false (ints int32 (indptr Av))]) os g attrs).
Proof. unfold new_csr, alloc. run. norm_heap. run. done. Qed.

Lemma csr_in_new h0 hs cs A (b : nat) Av s1 s2 s3 t2 t3 :
  m_shape A = shape Av →
  m_data A = length h0 + length hs + b →
  m_indices A = length h0 + length hs + S b →
  m_indptr A = length h0 + length hs + S (S b) →
  cs !! b = Some (Cell s1 (floats (data Av))) →
  cs !! S b = Some (Cell s2 (ints t2 (indices Av))) →
  cs !! S (S b) = Some (Cell s3 (ints t3 (indptr Av))) →
  csr_in (h0 ++ hs ++ cs) A Av.
Proof.
  intros Hs E1 E2 E3 H1 H2 H3. unfold csr_in, floats_in, ints_in. split_and!; [done|..].
  - exists s1. by apply (lookup_new _ _ _ _ b).
  - exists s2, t2. by apply (lookup_new _ _ _ _ (S b)).
  - exists s3, t3. by apply (lookup_new _ _ _ _ (S (S b))).
Qed.

Ltac proj_simpl :=
  cbn [g_n g_m g_weighted g_vol g_matrix g_ai g_aj g_d g_dn g_d_sqrt g_dn_sqrt
       l_matrix l_ai l_aj l_d l_dn l_d_sqrt l_dn_sqrt l_itype l_vtype
       m_shape m_data m_indices m_indptr heap objs].

Ltac csr_new := eapply (csr_in_new _ _ _ _ 0); proj_simpl; first [reflexivity | lia].

Lemma symmetrize_and_index_focus h0 hs os g attrs A Av vt it :
  (g < length os)%nat →
  attrs !! "adjacency_matrix" = Some (VMatrix A) →
  attrs !! "_num_vertices" = Some (VInt (Z.of_nat (shape Av))) →
  csr_in (h0 ++ hs) A Av →
  ∃ hs' attrs' L,
    symmetrize_and_index g vt it (focus h0 hs os g attrs) =
      (Ok (), focus h0 (hs ++ hs') os g attrs') ∧
    graph_at (focus h0 (hs ++ hs') os g attrs') g
      (graph_of (symmetrized Av) (bool_decide (Exists (λ x, x ≠ 1%Qc) (data Av))) vt it) L ∧
    l_itype L = it ∧ l_vtype L = vt.
Proof.
  intros Hg HA Hn Hcsr.
  unfold symmetrize_and_index, get_matrix.
  run. rewrite HA. run. rewrite (load_csr_focus _ _ _ _ _ _ _ Hcsr). run.
  unfold symmetrized. fold (symmetrize Av).
  destruct (decide (csr_sum (csr_ne Av (transpose Av)) = 0%Qc)) as [Hsym|Hsym].
  - rewrite bool_decide_true by done. run. rewrite HA. run.
    rewrite (load_csr_focus _ _ _ _ _ _ _ Hcsr). run.
    erewrite compute_statistics_focus; [|done|by run|by run|done].
    run. rewrite HA. run.
    rewrite (load_csr_focus h0 _ _ _ _ A Av) by (rewrite app_assoc; by apply csr_in_app).
    unfold alloc. run. norm_heap. run.
    eexists _, _, (Layout A _ _ _ _ _ _ it vt). split; [done|]. split; [|by split].
    unfold graph_of, graph_at. proj_simpl.
    rewrite !attr_focus by done. unfold focus. proj_simpl.
    do 11 (split; [by run|]). split_and!.
    + rewrite app_assoc. by apply csr_in_app.
    + eexists. apply (lookup_new _ _ _ _ 4); [lia|done].
    + eexists. apply (lookup_new _ _ _ _ 5); [lia|done].
    + eexists. apply (lookup_new _ _ _ _ 0); [lia|done].
    + eexists. apply (lookup_new _ _ _ _ 1); [lia|done].
    + eexists. apply (lookup_new _ _ _ _ 2); [lia|done].
    + eexists. apply (lookup_new _ _ _ _ 3); [lia|done].
  - rewrite bool_decide_false by done. run.
    rewrite new_csr_focus. run.
    unfold py_assert. rewrite bool_decide_true by apply symmetrize_assert. run.
    rewrite (load_csr_focus h0 _ _ _ _ _ (symmetrize Av)) by csr_new. run.
    erewrite (compute_statistics_focus _ _ _ _ _ _ (symmetrize Av));
      [|done|by run|run; exact Hn|csr_new].
    run. norm_heap.
    rewrite (load_csr_focus h0 _ _ _ _ _ (symmetrize Av)) by csr_new.
    unfold alloc. run. norm_heap. run.
    eexists _, _, (Layout _ _ _ _ _ _ _ it vt). split; [done|]. split; [|by split].
    unfold graph_of, graph_at. proj_simpl.
    rewrite !attr_focus by done. unfold focus. proj_simpl.
    do 11 (split; [by run|]). split_and!.
    + csr_new.
    + eexists. apply (lookup_new _ _ _ _ 7); [lia|done].
    + eexists. apply (lookup_new _ _ _ _ 8); [lia|done].
    + eexists. apply (lookup_new _ _ _ _ 3); [lia|done].
    + eexists. apply (lookup_new _ _ _ _ 4); [lia|done].
    + eexists. apply (lookup_new _ _ _ _ 5); [lia|done].
    + eexists. apply (lookup_new _ _ _ _ 6); [lia|done].
Qed.

Local Open Scope Z_scope.
Local Open Scope nat_scope.

Lemma csr_from_coo_shape w r c n A : csr_from_coo w r c n = Ok A → Z.of_nat (shape A) = n.
Proof.
  unfold csr_from_coo. repeat case_decide; intros [=]; subst. rewrite shape_tabulate. lia.
Qed.

(** The constructor on the arrays after the cast, from the state in which
    [_num_edges] has been set. *)
Lemma construct_focus h0 os g attrs s t w vt it :
  g < length os →
  match edge_matrix s t w with
  | Ok A0 =>
      ∃ hs attrs' L,
        (smax ← lift (np_max s);
         tmax ← lift (np_max t);
         setattr g "_num_vertices" (VInt (Z.max (smax + 1) (tmax + 1)));;
         n ← get_int g "_num_vertices";
         Av ← lift (csr_from_coo w s t n);
         A ← new_csr Av;
         setattr g "adjacency_matrix" (VMatrix A);;
         symmetrize_and_index g vt it) (focus h0 [] os g attrs) =
        (Ok (), focus h0 hs os g attrs') ∧
        graph_at (focus h0 hs os g attrs') g
          (graph_of (symmetrized A0) (is_weighted A0) vt it) L ∧
        l_itype L = it ∧ l_vtype L = vt
  | Raise e =>
      ∃ attrs',
        (smax ← lift (np_max s);
         tmax ← lift (np_max t);
         setattr g "_num_vertices" (VInt (Z.max (smax + 1) (tmax + 1)));;
         n ← get_int g "_num_vertices";
         Av ← lift (csr_from_coo w s t n);
         A ← new_csr Av;
         setattr g "adjacency_matrix" (VMatrix A);;
         symmetrize_and_index g vt it) (focus h0 [] os g attrs) =
        (Raise e, focus h0 [] os g attrs')
  end.
Proof.
  intros Hg. unfold edge_matrix.
  destruct (np_max s) as [smax|e] eqn:Hs; [|eexists; by run].
  destruct (np_max t) as [tmax|e] eqn:Ht; [|eexists; by run].
  destruct (csr_from_coo w s t _) as [A0|e] eqn:HA.
  - unfold get_int. run. rewrite HA. run. rewrite new_csr_focus. run.
    pose proof (csr_from_coo_shape _ _ _ _ _ HA) as Hshape.
    set (cs := [Cell false (floats (data A0)); Cell false (ints int32 (indices A0));
                Cell false (ints int32 (indptr A0))]).
    set (A := CsrMatrix (shape A0) (length h0 + length (@nil cell))
                (length h0 + length (@nil cell) + 1) (length h0 + length (@nil cell) + 2)).
    set (attrs1 := <["adjacency_matrix":=VMatrix A]> (<["_num_vertices":=_]> attrs)).
    assert (csr_in (h0 ++ [] ++ cs) A A0) as Hcsr.
    { eapply (csr_in_new h0 [] _ _ 0); subst A cs; proj_simpl; cbn [length];
        first [reflexivity|lia]. }
    destruct (symmetrize_and_index_focus h0 ([] ++ cs) os g attrs1 A A0 vt it)
      as (hs' & attrs' & L & Hrun & Hat & Hty); [done|by subst attrs1; run| |done|].
    { subst attrs1. run. by rewrite Hshape. }
    rewrite Hrun. eexists _, _, _. split; [done|]. split; [exact Hat|exact Hty].
  - unfold get_int. run. rewrite HA. run. eexists. done.
Qed.

Local Open Scope Z_scope.
Local Open Scope nat_scope.

Lemma new_object_run σ0 :
  new_object σ0 = (Ok (length (objs σ0)),
                   focus (heap σ0) [] (objs σ0 ++ [∅]) (length (objs σ0)) ∅).
Proof.
  unfold new_object, focus. rewrite app_nil_r. do 2 f_equal.
  rewrite insert_app_r_alt by lia. by rewrite Nat.sub_diag.
Qed.

Lemma extends_focus_new σ0 hs attrs :
  extends σ0 (focus (heap σ0) hs (objs σ0 ++ [∅]) (length (objs σ0)) attrs).
Proof.
  unfold extends, focus. simpl. split; [by apply prefix_app_r|].
  rewrite insert_app_r_alt by lia. by apply prefix_app_r.
Qed.

Lemma list_to_gl_focus h0 os g attrs s t w vt it :
  g < length os →
  match edge_matrix (astype vt <$> s) (astype vt <$> t) w with
  | Ok A0 =>
      ∃ hs attrs' L,
        list_to_gl g s t w vt it (focus h0 [] os g attrs) = (Ok (), focus h0 hs os g attrs') ∧
        graph_at (focus h0 hs os g attrs') g
          (graph_of (symmetrized A0) (is_weighted A0) vt it) L ∧
        l_itype L = it ∧ l_vtype L = vt
  | Raise e =>
      ∃ attrs', list_to_gl g s t w vt it (focus h0 [] os g attrs) =
                (Raise e, focus h0 [] os g attrs')
  end.
Proof.
  intros Hg. unfold list_to_gl. run.
  apply (construct_focus h0 os g _ (astype vt <$> s) (astype vt <$> t) w vt it Hg).
Qed.

Lemma read_graph_focus h0 os g attrs df vt it :
  g < length os →
  match table_edges df with
  | Raise e => read_graph g df vt it (focus h0 [] os g attrs) = (Raise e, focus h0 [] os g attrs)
  | Ok (s, t, w) =>
      match edge_matrix s t w with
      | Ok A0 =>
          ∃ hs attrs' L,
            read_graph g df vt it (focus h0 [] os g attrs) = (Ok (), focus h0 hs os g attrs') ∧
            graph_at (focus h0 hs os g attrs') g
              (graph_of (symmetrized A0) (is_weighted A0) vt it) L ∧
            l_itype L = it ∧ l_vtype L = vt
      | Raise e =>
          ∃ attrs', read_graph g df vt it (focus h0 [] os g attrs) =
                    (Raise e, focus h0 [] os g attrs')
      end
  end.
Proof.
  intros Hg. unfold read_graph, table_edges, id_columns, weight_column.
  destruct df as [c|s t [|c [|c' others]]]; cbn [shape1 length]; run; [done|..].
  - rewrite decide_True by done. run.
    apply (construct_focus h0 os g _ s t _ vt it Hg).
  - rewrite decide_False, decide_True by done. run.
    apply (construct_focus h0 os g _ s t _ vt it Hg).
  - rewrite !decide_False by done. by run.
Qed.

(** [build] and [build_from_table], from any world. *)
Lemma build_run s t w σ0 :
  match edge_matrix (astype uint32 <$> s) (astype uint32 <$> t) w with
  | Ok A0 =>
      ∃ σ L, build s t w σ0 = (Ok (length (objs σ0)), σ) ∧ extends σ0 σ ∧
             graph_at σ (length (objs σ0))
               (graph_of (symmetrized A0) (is_weighted A0) uint32 uint32) L ∧
             l_itype L = uint32 ∧ l_vtype L = uint32
  | Raise e => ∃ σ, build s t w σ0 = (Raise e, σ)
  end.
Proof.
  unfold build. rewrite run_bind, new_object_run.
  pose proof (list_to_gl_focus (heap σ0) (objs σ0 ++ [∅]) (length (objs σ0)) ∅ s t w
                uint32 uint32) as H.
  destruct (edge_matrix _ _ _) as [A0|e].
  - destruct H as (hs & attrs' & L & Hrun & Hat & Hty); [rewrite length_app; simpl; lia|].
    eexists _, L. rewrite run_bind, Hrun. run. split; [done|].
    split; [apply extends_focus_new|]. split; [done|exact Hty].
  - destruct H as (attrs' & Hrun); [rewrite length_app; simpl; lia|].
    eexists. rewrite run_bind, Hrun. done.
Qed.

Lemma build_from_table_run df σ0 :
  match table_edges df with
  | Raise e => ∃ σ, build_from_table df σ0 = (Raise e, σ)
  | Ok (s, t, w) =>
      match edge_matrix s t w with
      | Ok A0 =>
          ∃ σ L, build_from_table df σ0 = (Ok (length (objs σ0)), σ) ∧ extends σ0 σ ∧
                 graph_at σ (length (objs σ0))
                   (graph_of (symmetrized A0) (is_weighted A0) uint32 uint32) L ∧
                 l_itype L = uint32 ∧ l_vtype L = uint32
      | Raise e => ∃ σ, build_from_table df σ0 = (Raise e, σ)
      end
  end.
Proof.
  unfold build_from_table. rewrite run_bind, new_object_run.
  pose proof (read_graph_focus (heap σ0) (objs σ0 ++ [∅]) (length (objs σ0)) ∅ df
                uint32 uint32) as H.
  destruct (table_edges df) as [[[s t] w]|e].
  - destruct (edge_matrix _ _ _) as [A0|e].
    + destruct H as (hs & attrs' & L & Hrun & Hat & Hty); [rewrite length_app; simpl; lia|].
      eexists _, L. rewrite run_bind, Hrun. run. split; [done|].
      split; [apply extends_focus_new|]. split; [done|exact Hty].
    + destruct H as (attrs' & Hrun); [rewrite length_app; simpl; lia|].
      eexists. rewrite run_bind, Hrun. done.
  - eexists. rewrite run_bind, H by (rewrite length_app; simpl; lia). done.
Qed.

Lemma built_graph_at_typed σ g :
  built σ g →
  ∃ G L, constructed G ∧ graph_at σ g G L ∧ l_itype L = uint32 ∧ l_vtype L = uint32.
Proof.
  intros [σ0 s t w H|σ0 df H].
  - pose proof (build_run s t w σ0) as Hb.
    destruct (edge_matrix _ _ _) as [A0|e] eqn:HA.
    + destruct Hb as (σ' & L & Hrun & _ & Hat & Hty). rewrite Hrun in H. simplify_eq.
      eexists _, L. split; [|done]. by eexists _, _, _, A0.
    + destruct Hb as (σ' & Hrun). rewrite Hrun in H. done.
  - pose proof (build_from_table_run df σ0) as Hb.
    destruct (table_edges df) as [[[s t] w]|e].
    + destruct (edge_matrix _ _ _) as [A0|e] eqn:HA.
      * destruct Hb as (σ' & L & Hrun & _ & Hat & Hty). rewrite Hrun in H. simplify_eq.
        eexists _, L. split; [|done]. by eexists _, _, _, A0.
      * destruct Hb as (σ' & Hrun). rewrite Hrun in H. done.
    + destruct Hb as (σ' & Hrun). rewrite Hrun in H. done.
Qed.

Lemma built_graph_at σ g : built σ g → ∃ G L, constructed G ∧ graph_at σ g G L.
Proof.
  intros (G & L & HG & Hat & _)%built_graph_at_typed. by exists G, L.
Qed.

Local Open Scope Z_scope.

(** * Reading a graph in any world *)

Lemma getattr_attr σ g a v : attr σ g a = Some v → getattr g a σ = (Ok v, σ).
Proof. unfold attr, getattr. by intros ->. Qed.

Lemma load_lookup σ l c : heap σ !! l = Some c → load l σ = (Ok (contents c), σ).
Proof. unfold load. by intros ->. Qed.

Lemma load_floats_in σ l xs : floats_in (heap σ) l xs → load_floats l σ = (Ok xs, σ).
Proof. intros [s H]. unfold load_floats. by rewrite run_bind, (load_lookup _ _ _ H). Qed.

Lemma load_surds_in σ l xs : surds_in (heap σ) l xs → load_surds l σ = (Ok xs, σ).
Proof. intros [s H]. unfold load_surds. by rewrite run_bind, (load_lookup _ _ _ H). Qed.

Lemma load_ints_in σ l xs : ints_in (heap σ) l xs → load_ints l σ = (Ok xs, σ).
Proof. intros (s & t & H). unfold load_ints. by rewrite run_bind, (load_lookup _ _ _ H). Qed.

Lemma load_typed_ints_in σ l t xs : typed_ints_in (heap σ) l t xs → load_ints l σ = (Ok xs, σ).
Proof. intros (s & H). unfold load_ints. by rewrite run_bind, (load_lookup _ _ _ H). Qed.

Lemma load_csr_in σ A Av : csr_in (heap σ) A Av → load_csr A σ = (Ok Av, σ).
Proof.
  intros (Hs & H1 & H2 & H3). unfold load_csr.
  rewrite run_bind, (load_floats_in _ _ _ H1).
  rewrite run_bind, (load_ints_in _ _ _ H2).
  rewrite run_bind, (load_ints_in _ _ _ H3).
  rewrite run_ret, Hs. by destruct Av.
Qed.

Ltac read_step G :=
  first
    [ rewrite run_bind
    | rewrite run_ret
    | rewrite run_raise
    | rewrite run_lift
    | erewrite getattr_attr by apply G
    | erewrite load_floats_in by apply G
    | erewrite load_surds_in by apply G
    | erewrite load_typed_ints_in by apply G
    | erewrite load_csr_in by apply G
    | progress cbv beta iota ].

Ltac read G := repeat read_step G.

Lemma view_graph_at σ g G L : graph_at σ g G L → view g σ = (Ok G, σ).
Proof.
  intros H. unfold view, get_int, get_bool, get_float, get_matrix, get_array.
  read H. by destruct G.
Qed.

Local Open Scope Z_scope.

(** * numpy indexing within bounds *)

Lemma np_index_in_range {A} (l : list A) i :
  0 ≤ i < Z.of_nat (length l) → np_index l i = Some (Z.to_nat i).
Proof. intros H. unfold np_index. by rewrite decide_True. Qed.

Lemma np_getitem_in_range {A} (l : list A) i x :
  0 ≤ i → l !! Z.to_nat i = Some x → np_getitem l i = Ok x.
Proof.
  intros Hi Hl. unfold np_getitem. rewrite np_index_in_range; [simpl; by rewrite Hl|].
  apply lookup_lt_Some in Hl. lia.
Qed.

Lemma np_take_in_range (l : list Qc) R :
  Forall (λ v, 0 ≤ v < Z.of_nat (length l)) R →
  np_take l R = Ok ((λ v, default 0%Qc (l !! Z.to_nat v)) <$> R).
Proof.
  induction 1 as [|v R Hv HR IH]; csimpl; [done|].
  destruct (lookup_lt_is_Some_2 l (Z.to_nat v)) as [x Hx]; [lia|].
  rewrite (np_getitem_in_range l v x) by (done || lia). by rewrite IH, Hx.
Qed.

Lemma np_put_in_range {A} (l : list A) R x :
  Forall (λ v, 0 ≤ v < Z.of_nat (length l)) R →
  ∃ l', np_put l R x = Ok l' ∧ length l' = length l ∧
        ∀ i, l' !! i = if decide (Z.of_nat i ∈ R) then (λ _, x) <$> l !! i else l !! i.
Proof.
  intros H. revert l H. induction R as [|v R IH]; intros l H; simpl.
  - by exists l.
  - apply Forall_cons in H as [Hv HR].
    rewrite np_index_in_range by done.
    destruct (IH (<[Z.to_nat v := x]> l)) as (l' & Hput & Hlen & Hl').
    { by rewrite length_insert. }
    exists l'. split; [done|]. split; [by rewrite Hlen, length_insert|].
    intros i. rewrite Hl'. destruct (decide (Z.of_nat i = v)) as [<-|Hne].
    + rewrite Nat2Z.id, list_lookup_insert_eq by lia.
      rewrite (decide_True (P := Z.of_nat i ∈ Z.of_nat i :: R)) by set_solver.
      destruct (lookup_lt_is_Some_2 l i) as [y ->]; [lia|]. by case_decide.
    + rewrite list_lookup_insert_ne by lia.
      destruct (decide (Z.of_nat i ∈ R)).
      * by rewrite decide_True by set_solver.
      * by rewrite decide_False by set_solver.
Qed.

Lemma np_put_indicator (n : nat) R :
  Forall (λ v, 0 ≤ v < Z.of_nat n) R →
  np_put (replicate n 0%Qc) R 1%Qc = Ok ((λ i, ind R (Z.of_nat i)) <$> seq 0 n).
Proof.
  intros H. destruct (np_put_in_range (replicate n 0%Qc) R 1%Qc) as (l' & -> & Hlen & Hl').
  { by rewrite length_replicate. }
  f_equal. apply list_eq. intros i. rewrite Hl', list_lookup_fmap.
  rewrite length_replicate in Hlen.
  destruct (decide (i < n)%nat) as [Hi|Hi].
  - rewrite lookup_seq_lt, lookup_replicate_2 by done. simpl. unfold ind. by case_decide.
  - rewrite lookup_seq_ge by lia. rewrite (proj1 (lookup_replicate_None n 0%Qc i)) by lia.
    simpl. by case_decide.
Qed.

(** * The quadratic form *)

Lemma Qc_sum_fmap_concat {A} (f : A → list Qc) (l : list A) :
  Qc_sum (l ≫= f) = Qc_sum ((λ x, Qc_sum (f x)) <$> l).
Proof.
  induction l as [|x l IH]; csimpl; [done|].
  by rewrite Qc_sum_app, Qc_sum_cons, IH.
Qed.

Lemma Qc_sum_ext {A} (f g : A → Qc) (l : list A) :
  (∀ x, x ∈ l → f x = g x) → Qc_sum (f <$> l) = Qc_sum (g <$> l).
Proof.
  induction l as [|x l IH]; intros H; csimpl; [done|].
  rewrite !Qc_sum_cons, IH, H by set_solver. done.
Qed.

Lemma filter_bind {A B} (P : B → Prop) `{!∀ x, Decision (P x)} (f : A → list B) (l : list A) :
  filter P (l ≫= f) = l ≫= (λ x, filter P (f x)).
Proof. induction l as [|x l IH]; csimpl; [done|]. by rewrite filter_app, IH. Qed.

Lemma fmap_bind_list {A B C} (g : B → C) (f : A → list B) (l : list A) :
  g <$> (l ≫= f) = l ≫= (λ x, g <$> f x).
Proof. induction l as [|x l IH]; csimpl; [done|]. by rewrite fmap_app, IH. Qed.

(** The entries of one row with both ends in [R], and those leaving [R]. *)
Lemma row_sum_internal (R : list Z) (i : Z) (r : list (Z * Qc)) :
  Qc_sum (snd <$> filter (λ e : Z * Z * Qc, e.1.1 ∈ R ∧ e.1.2 ∈ R)
                         ((λ e : Z * Qc, (i, e.1, e.2)) <$> r)) =
  (ind R i * Qc_sum ((λ e : Z * Qc, e.2 * ind R e.1) <$> r))%Qc.
Proof.
  unfold ind. induction r as [|[c w] r IH]; csimpl.
  - rewrite Qc_sum_nil. ring.
  - rewrite (Qc_sum_cons (w * _)%Qc), Qcmult_plus_distr_r, <-IH. rewrite filter_cons. simpl.
    destruct (decide (i ∈ R)), (decide (c ∈ R)).
    + rewrite decide_True by done. csimpl. rewrite Qc_sum_cons. ring.
    + rewrite decide_False by naive_solver. ring.
    + rewrite decide_False by naive_solver. ring.
    + rewrite decide_False by naive_solver. ring.
Qed.

Lemma row_sum_boundary (R : list Z) (i : Z) (r : list (Z * Qc)) :
  Qc_sum (snd <$> filter (λ e : Z * Z * Qc, e.1.1 ∈ R ∧ e.1.2 ∉ R)
                         ((λ e : Z * Qc, (i, e.1, e.2)) <$> r)) =
  (ind R i * Qc_sum ((λ e : Z * Qc, e.2 * (1 - ind R e.1)) <$> r))%Qc.
Proof.
  unfold ind. induction r as [|[c w] r IH]; csimpl.
  - rewrite Qc_sum_nil. ring.
  - rewrite (Qc_sum_cons (w * _)%Qc), Qcmult_plus_distr_r, <-IH. rewrite filter_cons. simpl.
    destruct (decide (i ∈ R)), (decide (c ∈ R)).
    + rewrite decide_False by naive_solver. ring.
    + rewrite decide_True by done. csimpl. rewrite Qc_sum_cons. ring.
    + rewrite decide_False by naive_solver. ring.
    + rewrite decide_False by naive_solver. ring.
Qed.

Lemma row_columns_tabulate n f i c w :
  (i < n)%nat → (c, w) ∈ row (tabulate n f) i → 0 ≤ c < Z.of_nat n.
Proof.
  intros Hi Hin. rewrite row_tabulate in Hin by done.
  apply elem_of_tab_row_inv in Hin as (j & -> & Hj & _). lia.
Qed.

Lemma quadratic_form n f R :
  let A := tabulate n f in
  let v := (λ i, ind R (Z.of_nat i)) <$> seq 0 n in
  np_dot v (csr_dot A v) = internal_weight A R.
Proof.
  intros A v. subst v. unfold np_dot, csr_dot, internal_weight, entries, rows.
  replace (shape A) with n by done.
  rewrite zip_with_fmap_l, !zip_with_fmap_r, zip_with_diag.
  rewrite filter_bind, fmap_bind_list, Qc_sum_fmap_concat.
  apply Qc_sum_ext. intros i Hi%elem_of_seq.
  rewrite row_sum_internal. f_equal.
  apply Qc_sum_ext. intros [c w] Hin. simpl.
  apply row_columns_tabulate in Hin; [|lia].
  rewrite list_lookup_fmap, lookup_seq_lt by lia. simpl.
  by rewrite Z2Nat.id by lia.
Qed.

Local Open Scope Z_scope.

Lemma tabulated_tabulate n f : tabulated (tabulate n f).
Proof. by exists f. Qed.

Lemma tabulated_symmetrized A : tabulated A → tabulated (symmetrized A).
Proof.
  intros HA. unfold symmetrized. case_decide; [done|]. apply tabulated_tabulate.
Qed.

Lemma edge_matrix_tabulate s t w A0 :
  edge_matrix s t w = Ok A0 → A0 = tabulate (shape A0) (coo_sum s t w) ∧ (0 < shape A0)%nat.
Proof.
  unfold edge_matrix. destruct (np_max s) as [smax|] eqn:Hs; [|done].
  destruct (np_max t) as [tmax|] eqn:Ht; [|done].
  unfold csr_from_coo. repeat case_decide; intros [=]; subst.
  rewrite shape_tabulate. split; [done|].
  destruct s as [|x s]; [done|]. simpl in Hs.
  destruct_and!. match goal with H : Forall _ (x :: s) |- _ => apply Forall_cons in H as [? _] end.
  lia.
Qed.

Lemma constructed_facts_of G : constructed G → constructed_facts G.
Proof.
  intros (s & t & w & A0 & HA & ->).
  apply edge_matrix_tabulate in HA as [HA Hpos].
  split; simpl; try done.
  - apply tabulated_symmetrized. rewrite HA. apply tabulated_tabulate.
  - rewrite shape_symmetrized. lia.
Qed.

(** * The reference scorer *)

Lemma set_scores_reference_run σ g G L R :
  graph_at σ g G L → constructed_facts G →
  Forall (λ v, 0 ≤ v < g_n G) R →
  set_scores g R false σ =
  (Ok (finish_scores (g_n G) (g_vol G) R (Qc_sum (degree G <$> R))
         (Qc_sum (degree G <$> R) - internal_weight (g_matrix G) R)%Qc), σ).
Proof.
  intros Hat HG HR. destruct HG as [cf_matrix0 cf_n0 cf_pos0 _ cf_d0 _ _ _ _ _ _].
  unfold set_scores, get_int, get_array, get_matrix, get_float.
  read Hat.
  rewrite np_take_in_range.
  2:{ rewrite cf_d0, row_sums_length, <-cf_n0. done. }
  read Hat. rewrite decide_False by lia. read Hat.
  rewrite np_put_indicator by (rewrite Z2Nat.id by lia; done).
  read Hat.
  rewrite decide_True.
  2:{ rewrite length_fmap, length_seq. lia. }
  read Hat.
  destruct cf_matrix0 as [f Hf].
  replace (Z.to_nat (g_n G)) with (shape (g_matrix G)) by lia.
  pose proof (quadratic_form (shape (g_matrix G)) f R) as Hq. simpl in Hq.
  rewrite <-Hf in Hq. rewrite Hq. done.
Qed.

Local Open Scope Z_scope.

Lemma py_min_Qc_min a b : py_min a b = Qc_min a b.
Proof.
  unfold py_min, Qc_min. repeat case_decide; try done.
  - exfalso. by eapply Qclt_not_le.
  - exfalso. by apply Qcnot_lt_le in H.
Qed.

Lemma Qc_min_eq_l a b : Qc_min a b = a ↔ ¬ (b < a)%Qc.
Proof.
  unfold Qc_min. case_decide as H; split; try done.
  - intros _. by apply Qcle_not_lt.
  - intros ->. apply Qcnot_le_lt in H. by apply Qclt_not_eq in H.
  - intros Hn. by apply Qcnot_lt_le in Hn.
Qed.

Lemma min_lt_or_eq a b (x y : Z) :
  (if decide (Qc_min a b < a)%Qc then x else y) = (if decide (Qc_min a b = a) then y else x).
Proof.
  unfold Qc_min. destruct (decide (a ≤ b)%Qc) as [Hle|Hle].
  - rewrite (decide_True (P := a = a)) by done.
    rewrite (decide_False (P := (a < a)%Qc)); [done|].
    intros Hlt. by apply Qclt_not_eq in Hlt.
  - apply Qcnot_le_lt in Hle. rewrite (decide_True (P := (b < a)%Qc)) by done.
    rewrite (decide_False (P := b = a)); [done|]. intros ->. by apply Qclt_not_eq in Hle.
Qed.

Lemma Qc_this_inj (a b : Qc) : this a = this b → a = b.
Proof. intros H. apply Qc_is_canon. by rewrite H. Qed.

Lemma Qc_list_eq (l k : list Qc) : this <$> l = this <$> k → l = k.
Proof.
  revert k. induction l as [|a l IH]; intros [|b k] H; simplify_eq/=; [done|].
  f_equal; [by apply Qc_this_inj|by apply IH].
Qed.

Lemma path_built : built path_world path_graph.
Proof. apply (built_from_lists _ _ empty_world [0; 1; 2] [1; 2; 3] [1; 1; 1]%Qc). by vm_compute. Qed.

(** C1: for every built graph and every duplicate-free subset [R] of its
    vertices, the reference strategy of [set_scores] returns
    voltrue = the sum of the degrees of [R], cut = voltrue minus the weight
    of the stored entries with both ends in [R], voleff = min(voltrue,
    vol_G - voltrue), sizetrue = |R|, sizeeff = |R| when voleff = voltrue and
    n - |R| otherwise, cond = cut / voleff (1 when voleff = 0) and
    isop = cut / sizeeff (1 when sizeeff = 0); on the unit-weight path
    0 - 1 - 2 - 3 the degrees are 1, 2, 2, 1, the volume is 6 and R = {0, 1}
    scores voltrue 3, cut 1, voleff 3, cond 1/3, sizeeff 2, isop 1/2. *)
Theorem set_scores_reference_correct :
  (∀ σ g R, built σ g → NoDup R →
     ∃ G, view g σ = (Ok G, σ) ∧
       (Forall (λ v, 0 ≤ v < g_n G) R →
        ∃ s, set_scores g R false σ = (Ok s, σ) ∧
          voltrue s = Qc_sum (degree G <$> R) ∧
          cut s = (voltrue s - internal_weight (g_matrix G) R)%Qc ∧
          voleff s = Qc_min (voltrue s) (g_vol G - voltrue s)%Qc ∧
          sizetrue s = Z.of_nat (length R) ∧
          sizeeff s = (if decide (voleff s = voltrue s) then Z.of_nat (length R)
                       else g_n G - Z.of_nat (length R)) ∧
          cond s = (if decide (voleff s = 0%Qc) then 1%Qc else (cut s / voleff s)%Qc) ∧
          isop s = (if decide (sizeeff s = 0) then 1%Qc
                    else (cut s / Qc_of_Z (sizeeff s))%Qc))) ∧
  (∃ G s, view path_graph path_world = (Ok G, path_world) ∧
          set_scores path_graph [0; 1] false path_world = (Ok s, path_world) ∧
          g_d G = [1; 2; 2; 1]%Qc ∧ g_vol G = Qc_of_Z 6 ∧
          voltrue s = Qc_of_Z 3 ∧ cut s = 1%Qc ∧ voleff s = Qc_of_Z 3 ∧
          cond s = Q2Qc (Qmake 1 3) ∧ sizeeff s = 2 ∧ isop s = Q2Qc (Qmake 1 2)).
Proof.
  assert (∀ σ g R, built σ g → NoDup R →
     ∃ G, view g σ = (Ok G, σ) ∧
       (Forall (λ v, 0 ≤ v < g_n G) R →
        ∃ s, set_scores g R false σ = (Ok s, σ) ∧
          voltrue s = Qc_sum (degree G <$> R) ∧
          cut s = (voltrue s - internal_weight (g_matrix G) R)%Qc ∧
          voleff s = Qc_min (voltrue s) (g_vol G - voltrue s)%Qc ∧
          sizetrue s = Z.of_nat (length R) ∧
          sizeeff s = (if decide (voleff s = voltrue s) then Z.of_nat (length R)
                       else g_n G - Z.of_nat (length R)) ∧
          cond s = (if decide (voleff s = 0%Qc) then 1%Qc else (cut s / voleff s)%Qc) ∧
          isop s = (if decide (sizeeff s = 0) then 1%Qc
                    else (cut s / Qc_of_Z (sizeeff s))%Qc))) as Hgen.
  { intros σ g R Hb _.
    destruct (built_graph_at σ g Hb) as (G & L & HG%constructed_facts_of & Hat).
    exists G. split; [by eapply view_graph_at|]. intros HR.
    eexists. split; [by apply (set_scores_reference_run σ g G L)|]. simpl.
    rewrite py_min_Qc_min. split_and!; try done.
    - apply min_lt_or_eq.
    - by repeat case_decide.
    - by repeat case_decide. }
  split; [exact Hgen|].
  destruct (Hgen path_world path_graph [0; 1] path_built) as (G & Hview & Hs).
  { repeat constructor; set_solver. }
  assert (g_n G = 4 ∧ g_d G = [1; 2; 2; 1]%Qc ∧ g_vol G = Qc_of_Z 6 ∧
          internal_weight (g_matrix G) [0; 1] = Qc_of_Z 2) as (Hn & Hd & Hvol & Hint).
  { assert (fst (view path_graph path_world) = Ok G) as HG by (by rewrite Hview).
    set (r := fst (view path_graph path_world)) in HG. vm_compute in r. subst r.
    injection HG as <-. split_and!.
    - reflexivity.
    - apply Qc_list_eq. reflexivity.
    - apply Qc_this_inj. reflexivity.
    - apply Qc_this_inj. by vm_compute. }
  destruct Hs as (s & Hrun & Hvt & Hcut & Hve & Hst & Hse & Hcond & Hisop).
  { rewrite Hn. repeat constructor; lia. }
  exists G, s. split; [done|]. split; [done|]. split; [done|]. split; [done|].
  assert (voltrue s = Qc_of_Z 3) as Hvt'.
  { rewrite Hvt. unfold degree. rewrite Hd. apply Qc_is_canon. reflexivity. }
  assert (cut s = 1%Qc) as Hcut'.
  { rewrite Hcut, Hvt', Hint. apply Qc_is_canon. reflexivity. }
  assert (voleff s = Qc_of_Z 3) as Hve'.
  { rewrite Hve, Hvt', Hvol. apply Qc_is_canon. reflexivity. }
  assert (sizeeff s = 2) as Hse'.
  { rewrite Hse, Hve', Hvt'. by rewrite decide_True. }
  split_and!; [exact Hvt'|exact Hcut'|exact Hve'| |exact Hse'| ].
  - rewrite Hcond, Hve', Hcut'. rewrite decide_False; [by apply Qc_is_canon|].
    intros Heq. by apply (f_equal this) in Heq.
  - rewrite Hisop, Hse', Hcut'. rewrite decide_False by done. by apply Qc_is_canon.
Qed.

Local Open Scope Z_scope.

(** * The index arrays of a built graph *)

Lemma indptr_tabulate_lookup n f (i : nat) :
  (i ≤ n)%nat →
  indptr (tabulate n f) !! i =
  Some (Z.of_nat (sum_list (take i (row_length <$> (tab_row n f <$> seq 0 n))))).
Proof.
  intros Hi. unfold tabulate, of_rows. simpl. fold (tab_row n f).
  rewrite offsets_from_lookup by (rewrite !length_fmap, length_seq; lia). f_equal. 
Qed.

Lemma indptr_tabulate_length n f : length (indptr (tabulate n f)) = S n.
Proof.
  unfold tabulate, of_rows. simpl. by rewrite offsets_from_length, !length_fmap, length_seq.
Qed.

Lemma sum_list_take_le (l : list nat) i : (sum_list (take i l) ≤ sum_list l)%nat.
Proof.
  revert i. induction l as [|x l IH]; intros [|i]; simpl; try lia. specialize (IH i). lia.
Qed.

Lemma sum_list_take_mono (l : list nat) i j :
  (i ≤ j)%nat → (sum_list (take i l) ≤ sum_list (take j l))%nat.
Proof.
  revert i j. induction l as [|x l IH]; intros [|i] [|j] H; simpl; try lia.
  specialize (IH i j). lia.
Qed.

Lemma data_tabulate_length n f :
  length (data (tabulate n f)) = sum_list (row_length <$> (tab_row n f <$> seq 0 n)).
Proof.
  unfold tabulate, of_rows. simpl. fold (tab_row n f).
  apply length_concat_fmap. intros r. unfold row_data, row_length. by rewrite length_fmap.
Qed.

Lemma indices_tabulate_length n f :
  length (indices (tabulate n f)) = length (data (tabulate n f)).
Proof.
  rewrite data_tabulate_length. unfold tabulate, of_rows. simpl. fold (tab_row n f).
  apply length_concat_fmap. intros r. unfold row_indices, row_length. by rewrite length_fmap.
Qed.

Lemma indptr_tabulate_bounds n f (i : nat) z :
  indptr (tabulate n f) !! i = Some z → 0 ≤ z ≤ nnz (tabulate n f).
Proof.
  intros H. pose proof (lookup_lt_Some _ _ _ H) as Hlt. rewrite indptr_tabulate_length in Hlt.
  rewrite indptr_tabulate_lookup in H by lia. simplify_eq. unfold nnz.
  rewrite data_tabulate_length. split; [lia|]. apply inj_le, sum_list_take_le.
Qed.

Lemma indptr_tabulate_mono n f (i j : nat) z z' :
  (i ≤ j)%nat → indptr (tabulate n f) !! i = Some z → indptr (tabulate n f) !! j = Some z' →
  z ≤ z'.
Proof.
  intros Hij Hi Hj. pose proof (lookup_lt_Some _ _ _ Hj) as Hlt.
  rewrite indptr_tabulate_length in Hlt.
  rewrite indptr_tabulate_lookup in Hi, Hj by lia. simplify_eq.
  by apply inj_le, sum_list_take_mono.
Qed.

Lemma indices_tabulate_bounds n f c : c ∈ indices (tabulate n f) → 0 ≤ c < Z.of_nat n.
Proof.
  rewrite indices_tabulate, concat_join, list_elem_of_join.
  intros (l & Hc & Hl). apply list_elem_of_fmap in Hl as (i & -> & Hi).
  unfold row_indices in Hc. apply list_elem_of_fmap in Hc as ([c' w] & -> & Hin).
  apply elem_of_tab_row_inv in Hin as (j & -> & Hj & _). simpl. lia.
Qed.

Lemma row_indices_slice n f (i : nat) s e :
  (i < n)%nat →
  indptr (tabulate n f) !! i = Some s → indptr (tabulate n f) !! S i = Some e →
  np_slice (indices (tabulate n f)) s e = (tab_row n f i).*1.
Proof.
  intros Hi Hs He. rewrite indptr_tabulate_lookup in Hs, He by lia. simplify_eq.
  unfold tabulate, of_rows. simpl. fold (tab_row n f).
  apply (slice_concat row_indices row_length).
  - intros r. unfold row_indices, row_length. by rewrite length_fmap.
  - by rewrite list_lookup_fmap, lookup_seq_lt.
Qed.

Lemma astype_uint32_small z : 0 ≤ z < 2^32 → astype uint32 z = z.
Proof. intros. unfold astype. by apply Z.mod_small. Qed.

Lemma astype_uint32_bounds z : 0 ≤ z → 0 ≤ astype uint32 z ≤ z.
Proof.
  intros. unfold astype. split; [apply Z.mod_pos_bound; lia|]. apply Z.mod_le; lia.
Qed.

Lemma fmap_astype_small (l : list Z) :
  Forall (λ z, 0 ≤ z < 2^32) l → astype uint32 <$> l = l.
Proof.
  induction 1 as [|z l Hz Hl IH]; [done|]. by rewrite fmap_cons, IH, (astype_uint32_small z).
Qed.

(** * neighbors *)

Lemma neighbors_run σ g G L v :
  graph_at σ g G L → neighbors g v σ = (neighbors_of (g_ai G) (g_aj G) v, σ).
Proof.
  intros Hat. unfold neighbors, neighbors_of, get_array. read Hat.
  destruct (np_getitem (g_ai G) v); read Hat; [|done].
  destruct (np_getitem (g_ai G) (v + 1)); by read Hat.
Qed.

Lemma np_getitem_out_of_range {A} (l : list A) i :
  Z.of_nat (length l) ≤ i ∨ i < - Z.of_nat (length l) → np_getitem l i = Raise IndexError.
Proof.
  intros H. unfold np_getitem, np_index. by rewrite !decide_False by lia.
Qed.

Lemma np_getitem_negative {A} (l : list A) i :
  - Z.of_nat (length l) ≤ i < 0 → np_getitem l i = np_getitem l (Z.of_nat (length l) + i).
Proof.
  intros H. unfold np_getitem, np_index.
  rewrite (decide_False (P := 0 ≤ i < _)) by lia.
  rewrite (decide_True (P := - _ ≤ i < 0)) by lia.
  rewrite (decide_True (P := 0 ≤ _ + i < _)) by lia. done.
Qed.

Lemma np_slice_empty {A} (l : list A) s : 0 ≤ s → np_slice l s 0 = [].
Proof.
  intros Hs. unfold np_slice, clip_bound. rewrite !decide_False by lia.
  rewrite (Z.min_l 0) by lia. replace (Z.to_nat _) with 0%nat by lia. done.
Qed.

Local Open Scope Z_scope.

Lemma built_index_fit G :
  constructed_facts G → index_arrays_fit G →
  g_ai G = indptr (g_matrix G) ∧ g_aj G = indices (g_matrix G).
Proof.
  intros [[f Hf] Hn _ Hm _ _ _ _ _ Hai Haj] [Hfm Hfn]. rewrite Hai, Haj. split.
  - apply fmap_astype_small. apply Forall_forall. intros z Hz.
    apply list_elem_of_lookup in Hz as [i Hi]. rewrite Hf in Hi.
    apply indptr_tabulate_bounds in Hi. rewrite <-Hf in Hi. lia.
  - apply fmap_astype_small. apply Forall_forall. intros z Hz.
    rewrite Hf in Hz. apply indices_tabulate_bounds in Hz. lia.
Qed.

Lemma built_ai_lookup G (i : nat) :
  constructed_facts G → (Z.of_nat i ≤ g_n G) →
  ∃ z, indptr (g_matrix G) !! i = Some z ∧ g_ai G !! i = Some (astype uint32 z) ∧
       0 ≤ z ≤ g_m G.
Proof.
  intros [[f Hf] Hn _ Hm _ _ _ _ _ Hai Haj] Hi.
  destruct (lookup_lt_is_Some_2 (indptr (g_matrix G)) i) as [z Hz].
  { rewrite Hf, indptr_tabulate_length. lia. }
  exists z. split; [done|]. split; [by rewrite Hai, list_lookup_fmap, Hz|].
  rewrite Hf in Hz. apply indptr_tabulate_bounds in Hz. rewrite <-Hf in Hz. lia.
Qed.

Lemma built_ai_length G : constructed_facts G → Z.of_nat (length (g_ai G)) = g_n G + 1.
Proof.
  intros [[f Hf] Hn _ Hm _ _ _ _ _ Hai Haj]. rewrite Hai, length_fmap, Hf, indptr_tabulate_length. lia.
Qed.

Lemma built_aj_length G : constructed_facts G → Z.of_nat (length (g_aj G)) = g_m G.
Proof.
  intros [[f Hf] Hn _ Hm _ _ _ _ _ Hai Haj].
  rewrite Haj, length_fmap, Hf, indices_tabulate_length, <-Hf, Hm. done.
Qed.

(** C6 (as amended): on a built graph with [n] vertices, [neighbors v]
    returns the slice [aj[ai[v]:ai[v+1]]], which is the list of columns of
    row [v] in storage order when the index arrays hold the matrix's index
    values, for every [v] in [0, n); it raises IndexError when [v >= n] or
    [v < -(n+1)]; for [-(n+1) <= v < -1] it answers as for the vertex
    [n + 1 + v], and for [v = -1] it returns the empty list. *)
Theorem neighbors_in_and_out_of_range σ g :
  built σ g →
  ∃ G, view g σ = (Ok G, σ) ∧ ∀ v,
    (0 ≤ v < g_n G →
       ∃ s e, g_ai G !! Z.to_nat v = Some s ∧ g_ai G !! Z.to_nat (v + 1) = Some e ∧
              neighbors g v σ = (Ok (np_slice (g_aj G) s e), σ) ∧
              (index_arrays_fit G →
               np_slice (g_aj G) s e = (row (g_matrix G) (Z.to_nat v)).*1)) ∧
    (g_n G ≤ v ∨ v < - (g_n G + 1) → neighbors g v σ = (Raise IndexError, σ)) ∧
    (- (g_n G + 1) ≤ v < -1 → neighbors g v σ = neighbors g (g_n G + 1 + v) σ) ∧
    (v = -1 → neighbors g v σ = (Ok [], σ)).
Proof.
  intros Hb. destruct (built_graph_at σ g Hb) as (G & L & HG%constructed_facts_of & Hat).
  exists G. split; [by eapply view_graph_at|]. intros v.
  pose proof (built_ai_length G HG) as Hlen.
  split_and!.
  - intros Hv.
    destruct (built_ai_lookup G (Z.to_nat v) HG) as (z & Hz & Hai & Hzb); [lia|].
    destruct (built_ai_lookup G (Z.to_nat (v + 1)) HG) as (z' & Hz' & Hai' & Hzb'); [lia|].
    exists (astype uint32 z), (astype uint32 z'). split; [done|]. split; [done|]. split.
    + rewrite (neighbors_run _ _ _ _ _ Hat). unfold neighbors_of.
      rewrite (np_getitem_in_range _ v _) by (done || lia).
      rewrite (np_getitem_in_range _ (v + 1) _) by (done || lia). done.
    + intros Hfit. destruct (built_index_fit G HG Hfit) as [_ Haj].
      destruct Hfit as [Hfm Hfn].
      rewrite !astype_uint32_small by lia. rewrite Haj.
      destruct HG as [[f Hf] Hn _ _ _ _ _ _ _ _ _].
      revert Hz Hz'. rewrite Hf. intros Hz Hz'.
      replace (Z.to_nat (v + 1)) with (S (Z.to_nat v)) in Hz' by lia.
      rewrite (row_indices_slice _ _ (Z.to_nat v) z z') by (done || lia).
      rewrite row_tabulate by lia. done.
  - intros Hv. rewrite (neighbors_run _ _ _ _ _ Hat). unfold neighbors_of.
    destruct (decide (v = g_n G)) as [->|Hne].
    + destruct (built_ai_lookup G (Z.to_nat (g_n G)) HG) as (z & Hz & Hai & Hzb);
        [destruct HG; lia|].
      rewrite (np_getitem_in_range _ (g_n G) _) by (done || destruct HG; lia).
      rewrite np_getitem_out_of_range by lia. done.
    + rewrite np_getitem_out_of_range by lia. done.
  - intros Hv. rewrite !(neighbors_run _ _ _ _ _ Hat). unfold neighbors_of.
    rewrite (np_getitem_negative _ v) by lia.
    rewrite (np_getitem_negative _ (v + 1)) by lia.
    rewrite Hlen. do 2 f_equal. replace (g_n G + 1 + (v + 1)) with (g_n G + 1 + v + 1) by lia.
    done.
  - intros ->. rewrite (neighbors_run _ _ _ _ _ Hat). unfold neighbors_of.
    pose proof (cf_pos G HG) as Hpos.
    rewrite (np_getitem_negative _ (-1)) by lia. rewrite Hlen.
    destruct (built_ai_lookup G (Z.to_nat (g_n G)) HG) as (z & Hz & Hai & Hzb); [lia|].
    destruct (built_ai_lookup G 0 HG) as (z0 & Hz0 & Hai0 & Hzb0); [lia|].
    assert (z0 = 0) as ->.
    { destruct HG as [[f Hf] _ _ _ _ _ _ _ _ _ _]. rewrite Hf in Hz0.
      rewrite indptr_tabulate_lookup in Hz0 by lia. by simplify_eq. }
    rewrite (np_getitem_in_range _ (g_n G + 1 + -1) (astype uint32 z)).
    2:{ lia. }
    2:{ replace (g_n G + 1 + -1) with (g_n G) by lia. done. }
    rewrite (np_getitem_in_range _ (-1 + 1) (astype uint32 0)) by done.
    rewrite np_slice_empty; [done|]. apply astype_uint32_bounds. lia.
Qed.

Lemma neighbors_in_and_out_of_range_witness :
  built path_world path_graph ∧
  ∃ G, view path_graph path_world = (Ok G, path_world) ∧ ∀ v,
    (0 ≤ v < g_n G →
       ∃ s e, g_ai G !! Z.to_nat v = Some s ∧ g_ai G !! Z.to_nat (v + 1) = Some e ∧
              neighbors path_graph v path_world = (Ok (np_slice (g_aj G) s e), path_world) ∧
              (index_arrays_fit G →
               np_slice (g_aj G) s e = (row (g_matrix G) (Z.to_nat v)).*1)) ∧
    (g_n G ≤ v ∨ v < - (g_n G + 1) →
       neighbors path_graph v path_world = (Raise IndexError, path_world)) ∧
    (- (g_n G + 1) ≤ v < -1 →
       neighbors path_graph v path_world = neighbors path_graph (g_n G + 1 + v) path_world) ∧
    (v = -1 → neighbors path_graph v path_world = (Ok [], path_world)).
Proof.
  split; [exact path_built|]. apply neighbors_in_and_out_of_range. exact path_built.
Defined.

(** C6 as stated fails: a negative vertex is answered, not refused. *)
Lemma neighbors_negative_vertex :
  ¬ (0 ≤ -2 < 4) ∧
  ∃ G, view path_graph path_world = (Ok G, path_world) ∧ g_n G = 4 ∧
       neighbors path_graph (-2) path_world = (Ok [2], path_world).
Proof.
  split; [lia|]. eexists. split; [vm_compute; reflexivity|]. split; by vm_compute.
Qed.

Local Open Scope Z_scope.

Lemma range_nil a b : b ≤ a → range a b = [].
Proof. intros. unfold range. by replace (Z.to_nat (b - a)) with 0%nat by lia. Qed.

Lemma range_cons a b : a < b → range a b = a :: range (a + 1) b.
Proof.
  intros. unfold range. replace (Z.to_nat (b - a)) with (S (Z.to_nat (b - (a + 1)))) by lia.
  cbn [seq]. rewrite fmap_cons. f_equal; [lia|].
  rewrite <-seq_shift, <-list_fmap_compose. apply list_fmap_ext. intros _ k _. simpl. lia.
Qed.

Lemma elem_of_range a b i : i ∈ range a b ↔ a ≤ i < b.
Proof.
  unfold range. rewrite list_elem_of_fmap. split.
  - intros (k & -> & Hk%elem_of_seq). lia.
  - intros Hi. exists (Z.to_nat (i - a)). split; [lia|]. apply elem_of_seq. lia.
Qed.

Lemma range_sorted a b : StronglySorted Z.lt (range a b).
Proof.
  remember (Z.to_nat (b - a)) as k eqn:Hk. revert a Hk.
  induction k as [|k IH]; intros a Hk.
  - rewrite range_nil by lia. constructor.
  - rewrite range_cons by lia. constructor; [apply IH; lia|].
    apply Forall_forall. intros j Hj%elem_of_range. lia.
Qed.

Lemma sublist_strongly_sorted {A} (R : relation A) (k l : list A) :
  sublist k l → StronglySorted R l → StronglySorted R k.
Proof.
  induction 1 as [|x k l Hkl IH|x k l Hkl IH]; intros Hs; [done| |].
  - apply StronglySorted_inv in Hs as [Hs Hx]. constructor; [by apply IH|].
    eapply Forall_forall. intros y Hy. eapply Forall_forall in Hx; [done|].
    by eapply sublist_submseteq, elem_of_submseteq in Hkl.
  - apply StronglySorted_inv in Hs as [Hs Hx]. by apply IH.
Qed.

(** Reading [aj] at the positions [range s e] is the slice [aj[s:e]]. *)
Lemma np_take_range_slice {A} (aj : list A) s e :
  0 ≤ s → 0 ≤ e ≤ Z.of_nat (length aj) →
  np_take aj (range s e) = Ok (np_slice aj s e).
Proof.
  intros Hs He. remember (Z.to_nat (e - s)) as k eqn:Hk. revert s Hs Hk.
  induction k as [|k IH]; intros s Hs Hk.
  - rewrite range_nil by lia. unfold np_slice, clip_bound.
    rewrite !decide_False by lia. simpl.
    replace (Z.to_nat _) with 0%nat by lia. done.
  - rewrite range_cons by lia. cbn [np_take].
    destruct (lookup_lt_is_Some_2 aj (Z.to_nat s)) as [x Hx]; [lia|].
    rewrite (np_getitem_in_range _ s x) by (done || lia).
    rewrite IH by lia.
    f_equal. unfold np_slice, clip_bound. rewrite !decide_False by lia.
    rewrite !Z.min_l by lia.
    replace (Z.to_nat (e - s)) with (S (Z.to_nat (e - (s + 1)))) by lia.
    replace (Z.to_nat (s + 1)) with (S (Z.to_nat s)) by lia.
    rewrite (drop_S _ _ _ Hx). done.
Qed.

Lemma precedes_dec (strict : bool) (a b : Qc) :
  (if strict then bool_decide (a < b)%Qc else bool_decide (a ≤ b)%Qc) = true ↔
  precedes strict a b.
Proof. destruct strict; simpl; by rewrite bool_decide_eq_true. Qed.

(** The inner loop: it never raises on well-formed arrays, and answers
    whether every neighbor read passes the comparison. *)
Lemma scan_row_spec aj vals factor strict i x nzis ns :
  np_take aj nzis = Ok ns →
  Forall (λ v, 0 ≤ v < Z.of_nat (length vals)) ns →
  ∃ b, scan_row aj vals factor strict i (factor * x)%Qc nzis = Ok b ∧
       (b = true ↔ extremum vals factor strict i x ns).
Proof.
  revert ns. induction nzis as [|nzi nzis IH]; intros ns Hns Hb.
  - simpl in Hns. simplify_eq. exists true. split; [done|]. split; [|done].
    intros _ j Hj. by apply elem_of_nil in Hj.
  - cbn [np_take] in Hns. cbn [scan_row].
    destruct (np_getitem aj nzi) as [v|] eqn:Hv; [|done].
    destruct (np_take aj nzis) as [ns'|] eqn:Hns'; [|done].
    simplify_eq. apply Forall_cons in Hb as [Hvb Hb].
    destruct (IH ns' eq_refl Hb) as (b & Hrun & Hiff).
    destruct (lookup_lt_is_Some_2 vals (Z.to_nat v)) as [y Hy]; [lia|].
    destruct (decide (v = i)) as [->|Hne].
    + exists b. split; [done|]. rewrite Hiff. unfold extremum. split.
      * intros H j Hj Hji. apply elem_of_cons in Hj as [->|Hj]; [done|]. by apply H.
      * intros H j Hj Hji. apply H; [|done]. by apply elem_of_cons; right.
    + rewrite (np_getitem_in_range vals v y) by (done || lia).
      destruct (if strict then _ else _) eqn:Hcmp.
      * apply precedes_dec in Hcmp. exists b. split; [done|]. rewrite Hiff.
        unfold extremum. split.
        -- intros H j Hj Hji. apply elem_of_cons in Hj as [->|Hj]; [by exists y|]. by apply H.
        -- intros H j Hj Hji. apply H; [|done]. by apply elem_of_cons; right.
      * exists false. split; [done|]. split; [done|]. intros H.
        destruct (H v) as (y' & Hy' & Hp); [by apply elem_of_cons; left|done|].
        simplify_eq. apply precedes_dec in Hp. congruence.
Qed.

(** The outer loop, on arrays as the constructors leave them. *)
Lemma scan_vertices_spec ai aj vals factor strict vs :
  Forall (λ v, 0 ≤ v < Z.of_nat (length vals)) aj →
  Forall (λ i, 0 ≤ i < Z.of_nat (length vals) ∧ i + 1 < Z.of_nat (length ai)) vs →
  Forall (λ s, 0 ≤ s ≤ Z.of_nat (length aj)) ai →
  ∃ verts, scan_vertices ai aj vals factor strict vs = Ok verts ∧
    sublist verts vs ∧
    ∀ i, i ∈ verts ↔
      i ∈ vs ∧ ∃ x ns, vals !! Z.to_nat i = Some x ∧ neighbors_of ai aj i = Ok ns ∧
                       extremum vals factor strict i x ns.
Proof.
  intros Haj Hvs Hai. induction vs as [|i vs IH].
  - exists []. split; [done|]. split; [done|]. intros i. split.
    + by intros ?%elem_of_nil.
    + by intros [?%elem_of_nil _].
  - apply Forall_cons in Hvs as [[Hi Hi'] Hvs]. destruct (IH Hvs) as (verts & Hrun & Hsub & Hiff).
    cbn [scan_vertices].
    destruct (lookup_lt_is_Some_2 vals (Z.to_nat i)) as [x Hx]; [lia|].
    destruct (lookup_lt_is_Some_2 ai (Z.to_nat i)) as [s Hs]; [lia|].
    destruct (lookup_lt_is_Some_2 ai (Z.to_nat (i + 1))) as [e He]; [lia|].
    rewrite (np_getitem_in_range vals i x) by (done || lia).
    rewrite (np_getitem_in_range ai i s) by (done || lia).
    rewrite (np_getitem_in_range ai (i + 1) e) by (done || lia).
    assert (0 ≤ s ≤ Z.of_nat (length aj)) as Hsb.
    { eapply Forall_forall in Hai; [done|]. by eapply list_elem_of_lookup_2. }
    assert (0 ≤ e ≤ Z.of_nat (length aj)) as Heb.
    { eapply Forall_forall in Hai; [done|]. by eapply list_elem_of_lookup_2. }
    assert (neighbors_of ai aj i = Ok (np_slice aj s e)) as Hnb.
    { unfold neighbors_of. rewrite (np_getitem_in_range ai i s) by (done || lia).
      by rewrite (np_getitem_in_range ai (i + 1) e) by (done || lia). }
    destruct (scan_row_spec aj vals factor strict i x (range s e) (np_slice aj s e))
      as (b & Hrow & Hb).
    { apply np_take_range_slice; lia. }
    { apply Forall_forall. intros v Hv. eapply Forall_forall in Haj; [done|].
      unfold np_slice in Hv. by apply subseteq_take, subseteq_drop in Hv. }
    rewrite Hrow, Hrun.
    assert (∀ j, j ∈ verts → j ∈ vs) as Hin.
    { intros j Hj. by apply Hiff in Hj as [? _]. }
    destruct b.
    + eexists. split; [done|]. split; [by constructor|]. intros j.
      rewrite !elem_of_cons, Hiff. split.
      * intros [->|[Hj Hq]]; [|by split; [right|]].
        split; [by left|]. exists x, (np_slice aj s e). split_and!; [done..|]. by apply Hb.
      * intros [[->|Hj] Hq]; [by left|]. right. done.
    + eexists. split; [done|]. split; [by constructor|]. intros j.
      rewrite elem_of_cons, Hiff. split.
      * intros [Hj Hq]. split; [by right|done].
      * intros [[->|Hj] Hq]; [|done]. destruct Hq as (x' & ns & Hx' & Hns & Hex).
        rewrite Hnb in Hns. simplify_eq. by apply Hb in Hex.
Qed.

Lemma local_extrema_run σ g G L vals strict reverse :
  graph_at σ g G L → g_n G = Z.of_nat (shape (g_matrix G)) →
  local_extrema g vals strict reverse σ =
  (match scan_vertices (g_ai G) (g_aj G) vals (if reverse then (-1)%Qc else 1%Qc) strict
           (range 0 (g_n G)) with
   | Ok minverts =>
       match np_take vals minverts with
       | Ok minvals => Ok (minverts, minvals)
       | Raise e => Raise e
       end
   | Raise e => Raise e
   end, σ).
Proof.
  intros Hat Hn. unfold local_extrema, get_array, get_matrix. read Hat.
  destruct Hat as (_ & _ & _ & _ & _ & _ & _ & _ & _ & _ & _ & [Hs _] & _).
  rewrite Hs, <-Hn.
  destruct (scan_vertices _ _ _ _ _ _) as [mv|]; read Hat; [|done].
  destruct (np_take vals mv); by read Hat.
Qed.

Lemma np_take_total (vals : list Qc) vs :
  Forall (λ i, 0 ≤ i < Z.of_nat (length vals)) vs →
  ∃ xs, np_take vals vs = Ok xs ∧ Forall2 (λ i x, vals !! Z.to_nat i = Some x) vs xs.
Proof.
  induction 1 as [|i vs Hi Hvs (xs & Hxs & Hall)].
  - by exists [].
  - destruct (lookup_lt_is_Some_2 vals (Z.to_nat i)) as [x Hx]; [lia|].
    exists (x :: xs). cbn [np_take]. rewrite (np_getitem_in_range vals i x) by (done || lia).
    rewrite Hxs. split; [done|]. by constructor.
Qed.

Lemma built_aj_bounds G :
  constructed_facts G → Forall (λ v, 0 ≤ v < g_n G) (g_aj G).
Proof.
  intros [[f Hf] Hn _ Hm _ _ _ _ _ Hai Haj]. rewrite Haj. apply Forall_fmap, Forall_forall.
  intros c Hc. rewrite Hf in Hc. apply indices_tabulate_bounds in Hc. unfold compose.
  pose proof (astype_uint32_bounds c). lia.
Qed.

Lemma built_ai_bounds G :
  constructed_facts G → Forall (λ s, 0 ≤ s ≤ Z.of_nat (length (g_aj G))) (g_ai G).
Proof.
  intros HG. rewrite (built_aj_length G HG).
  destruct HG as [[f Hf] Hn _ Hm _ _ _ _ _ Hai Haj]. rewrite Hai. apply Forall_fmap, Forall_forall.
  intros z Hz. apply list_elem_of_lookup in Hz as [i Hi]. rewrite Hf in Hi.
  apply indptr_tabulate_bounds in Hi. rewrite <-Hf in Hi. unfold compose.
  pose proof (astype_uint32_bounds z). lia.
Qed.

(** C7: for every built graph and every value array of length [n],
    [local_extrema vals strict reverse] returns exactly the vertices [i]
    such that, with factor = -1 if [reverse] and 1 otherwise, every neighbor
    [j] of [i] other than [i] itself has factor * vals[i] <= factor * vals[j]
    (< when [strict]); a vertex without neighbors qualifies; the vertices
    are returned in ascending order and the values returned are those of
    the vertices, position by position. *)
Theorem local_extrema_characterised σ g vals strict reverse :
  built σ g →
  ∃ G, view g σ = (Ok G, σ) ∧
    (Z.of_nat (length vals) = g_n G →
     ∃ verts minvals,
       local_extrema g vals strict reverse σ = (Ok (verts, minvals), σ) ∧
       (∀ i, i ∈ verts ↔
          0 ≤ i < g_n G ∧
          ∃ x ns, vals !! Z.to_nat i = Some x ∧ neighbors g i σ = (Ok ns, σ) ∧
                  extremum vals (if reverse then (-1)%Qc else 1%Qc) strict i x ns) ∧
       (∀ i, 0 ≤ i < g_n G → neighbors g i σ = (Ok [], σ) → i ∈ verts) ∧
       StronglySorted Z.lt verts ∧
       Forall2 (λ i x, vals !! Z.to_nat i = Some x) verts minvals).
Proof.
  intros Hb. destruct (built_graph_at σ g Hb) as (G & L & HG%constructed_facts_of & Hat).
  exists G. split; [by eapply view_graph_at|]. intros Hlen.
  pose proof (built_ai_length G HG) as Hail.
  destruct (scan_vertices_spec (g_ai G) (g_aj G) vals (if reverse then (-1)%Qc else 1%Qc)
              strict (range 0 (g_n G))) as (verts & Hrun & Hsub & Hiff).
  { rewrite Hlen. by apply built_aj_bounds. }
  { apply Forall_forall. intros i Hi%elem_of_range. lia. }
  { by apply built_ai_bounds. }
  destruct (np_take_total vals verts) as (minvals & Htake & Hvals).
  { apply Forall_forall. intros i Hi. apply Hiff in Hi as [Hi%elem_of_range _]. lia. }
  assert (∀ i, i ∈ verts ↔
          0 ≤ i < g_n G ∧
          ∃ x ns, vals !! Z.to_nat i = Some x ∧ neighbors g i σ = (Ok ns, σ) ∧
                  extremum vals (if reverse then (-1)%Qc else 1%Qc) strict i x ns) as Hchar.
  { intros i. rewrite Hiff, elem_of_range. split.
    - intros (Hi & x & ns & Hx & Hns & Hex). split; [done|]. exists x, ns.
      split_and!; [done| |done]. by rewrite (neighbors_run _ _ _ _ _ Hat), Hns.
    - intros (Hi & x & ns & Hx & Hns & Hex). split; [done|]. exists x, ns.
      split_and!; [done| |done]. rewrite (neighbors_run _ _ _ _ _ Hat) in Hns. congruence. }
  exists verts, minvals. split_and!.
  - rewrite (local_extrema_run _ _ _ _ _ _ _ Hat (cf_n G HG)). by rewrite Hrun, Htake.
  - done.
  - intros i Hi Hnb. apply Hchar. split; [done|].
    destruct (lookup_lt_is_Some_2 vals (Z.to_nat i)) as [x Hx]; [lia|].
    exists x, []. split_and!; [done..|]. intros j Hj. by apply elem_of_nil in Hj.
  - eapply sublist_strongly_sorted; [done|]. apply range_sorted.
  - done.
Qed.

Lemma local_extrema_characterised_witness :
  built path_world path_graph ∧
  ∃ G, view path_graph path_world = (Ok G, path_world) ∧
    (Z.of_nat (length (Qc_of_Z <$> [3; 1; 2; 0])) = g_n G →
     ∃ verts minvals,
       local_extrema path_graph (Qc_of_Z <$> [3; 1; 2; 0]) false false path_world =
         (Ok (verts, minvals), path_world) ∧
       (∀ i, i ∈ verts ↔
          0 ≤ i < g_n G ∧
          ∃ x ns, (Qc_of_Z <$> [3; 1; 2; 0]) !! Z.to_nat i = Some x ∧
                  neighbors path_graph i path_world = (Ok ns, path_world) ∧
                  extremum (Qc_of_Z <$> [3; 1; 2; 0]) 1%Qc false i x ns) ∧
       (∀ i, 0 ≤ i < g_n G → neighbors path_graph i path_world = (Ok [], path_world) →
             i ∈ verts) ∧
       StronglySorted Z.lt verts ∧
       Forall2 (λ i x, (Qc_of_Z <$> [3; 1; 2; 0]) !! Z.to_nat i = Some x) verts minvals).
Proof.
  split; [exact path_built|].
  apply (local_extrema_characterised path_world path_graph (Qc_of_Z <$> [3; 1; 2; 0]) false false).
  exact path_built.
Defined.

Local Open Scope Z_scope.

Lemma mirror_stored A u v w :
  tabulated A →
  (∀ i j, (i < shape A)%nat → (j < shape A)%nat → val A i j = val A j i) →
  (u, v, w) ∈ entries A → w ≠ 0%Qc → (v, u, w) ∈ entries A.
Proof.
  intros [f Hf] Hsym Hin Hw. rewrite Hf in Hin |- *.
  apply elem_of_entries_tabulate in Hin as (i & j & -> & -> & Hi & Hj & Hfij).
  apply elem_of_entries_tabulate. exists j, i. split_and!; [done..|].
  specialize (Hsym i j Hi Hj). rewrite Hf, !val_tabulate in Hsym by done.
  rewrite Hfij in Hsym. simpl in Hsym. destruct (f j i) as [w'|]; simpl in Hsym; congruence.
Qed.

Lemma symmetrized_reconciled A0 : tabulated A0 → reconciled A0 (symmetrized A0).
Proof.
  intros HA0. pose proof (shape_symmetrized A0) as Hshape.
  assert (∀ i j, (i < shape A0)%nat → (j < shape A0)%nat →
                 val (symmetrized A0) i j = val (symmetrized A0) j i) as Hsym.
  { intros i j Hi Hj. rewrite !val_symmetrized by done. apply Qc_max_comm. }
  split_and!; [done| |done|].
  - intros i j Hi Hj. by apply val_symmetrized.
  - intros u v w. apply mirror_stored; [by apply tabulated_symmetrized|].
    rewrite Hshape. done.
Qed.

Lemma edge_matrix_error s t w e : edge_matrix s t w = Raise e → e = ValueError.
Proof.
  unfold edge_matrix, np_max, csr_from_coo. intros H.
  destruct s; [by simplify_eq|]. destruct t; [by simplify_eq|].
  repeat case_decide; by simplify_eq.
Qed.

Lemma table_edges_error df e : table_edges df = Raise e → e ≠ AssertionError.
Proof.
  unfold table_edges. intros H.
  destruct df as [c|s t [|c [|c' others]]]; by simplify_eq.
Qed.

(** C3 (as amended): a graph built by [list_to_gl] or [read_graph] from an
    edge list whose summed matrix is [A0] stores, at every position, the
    larger of the two directed weights of [A0]; its matrix reads the same
    in both directions, and every stored entry [(u, v, w)] with [w <> 0] has
    the stored mirror [(v, u, w)]; neither constructor ever fails with the
    assertion error for asymmetry. *)
Theorem construction_reconciles_directions :
  (∀ σ0 s t w A0,
     edge_matrix (astype uint32 <$> s) (astype uint32 <$> t) w = Ok A0 →
     ∃ g σ G, build s t w σ0 = (Ok g, σ) ∧ view g σ = (Ok G, σ) ∧
              reconciled A0 (g_matrix G)) ∧
  (∀ σ0 df s t w A0,
     table_edges df = Ok (s, t, w) → edge_matrix s t w = Ok A0 →
     ∃ g σ G, build_from_table df σ0 = (Ok g, σ) ∧ view g σ = (Ok G, σ) ∧
              reconciled A0 (g_matrix G)) ∧
  (∀ σ g, built σ g →
     ∃ G, view g σ = (Ok G, σ) ∧
          (∀ i j, 0 ≤ i < g_n G → 0 ≤ j < g_n G →
                  val (g_matrix G) (Z.to_nat i) (Z.to_nat j) =
                  val (g_matrix G) (Z.to_nat j) (Z.to_nat i)) ∧
          (∀ u v w, (u, v, w) ∈ entries (g_matrix G) → w ≠ 0%Qc →
                    (v, u, w) ∈ entries (g_matrix G))) ∧
  (∀ σ0 s t w e σ, build s t w σ0 = (Raise e, σ) → e ≠ AssertionError) ∧
  (∀ σ0 df e σ, build_from_table df σ0 = (Raise e, σ) → e ≠ AssertionError).
Proof.
  split_and!.
  - intros σ0 s t w A0 HA. pose proof (build_run s t w σ0) as Hb. rewrite HA in Hb.
    destruct Hb as (σ & L & Hrun & _ & Hat & _).
    eexists _, σ, _. split; [done|]. split; [by eapply view_graph_at|].
    apply symmetrized_reconciled. apply edge_matrix_tabulate in HA as [HA _]. by eexists.
  - intros σ0 df s t w A0 Hdf HA. pose proof (build_from_table_run df σ0) as Hb.
    rewrite Hdf, HA in Hb. destruct Hb as (σ & L & Hrun & _ & Hat & _).
    eexists _, σ, _. split; [done|]. split; [by eapply view_graph_at|].
    apply symmetrized_reconciled. apply edge_matrix_tabulate in HA as [HA _]. by eexists.
  - intros σ g Hb. destruct (built_graph_at σ g Hb) as (G & L & HG & Hat).
    exists G. split; [by eapply view_graph_at|].
    pose proof (constructed_facts_of G HG) as HF.
    destruct HG as (s & t & w & A0 & HA & ->).
    apply edge_matrix_tabulate in HA as [HA _].
    destruct (symmetrized_reconciled A0) as (Hshape & _ & Hsym & Hmirror); [by eexists|].
    pose proof (cf_n _ HF) as Hn.
    change (g_matrix (graph_of (symmetrized A0) (is_weighted A0) uint32 uint32))
      with (symmetrized A0) in *.
    split.
    + intros i j Hi Hj. apply Hsym; rewrite <-Hshape; lia.
    + exact Hmirror.
  - intros σ0 s t w e σ Hrun. pose proof (build_run s t w σ0) as Hb.
    destruct (edge_matrix _ _ _) as [A0|e'] eqn:HA.
    + destruct Hb as (σ' & L & Hrun' & _). rewrite Hrun' in Hrun. done.
    + destruct Hb as (σ' & Hrun'). rewrite Hrun' in Hrun. simplify_eq.
      by rewrite (edge_matrix_error _ _ _ _ HA).
  - intros σ0 df e σ Hrun. pose proof (build_from_table_run df σ0) as Hb.
    destruct (table_edges df) as [[[s t] w]|e'] eqn:Hdf.
    + destruct (edge_matrix _ _ _) as [A0|e'] eqn:HA.
      * destruct Hb as (σ' & L & Hrun' & _). rewrite Hrun' in Hrun. done.
      * destruct Hb as (σ' & Hrun'). rewrite Hrun' in Hrun. simplify_eq.
        by rewrite (edge_matrix_error _ _ _ _ HA).
    + destruct Hb as (σ' & Hrun'). rewrite Hrun' in Hrun. simplify_eq.
      by eapply table_edges_error.
Qed.

(** C3 as stated fails: an edge of weight zero is stored in one direction
    only. *)
Lemma zero_weight_edge_not_mirrored :
  ∃ g σ G, build [0] [1] [0%Qc] empty_world = (Ok g, σ) ∧ view g σ = (Ok G, σ) ∧
           entries (g_matrix G) = [(0, 1, 0%Qc)].
Proof.
  eexists _, _, _. split; [vm_compute; reflexivity|]. split; [vm_compute; reflexivity|].
  vm_compute. repeat f_equal.
Qed.

Lemma construction_reconciles_directions_witness :
  ∃ A0, edge_matrix (astype uint32 <$> [0; 1]) (astype uint32 <$> [1; 2])
          [Qc_of_Z 2; Qc_of_Z 3] = Ok A0 ∧
        ∃ g σ G, build [0; 1] [1; 2] [Qc_of_Z 2; Qc_of_Z 3] empty_world = (Ok g, σ) ∧
                 view g σ = (Ok G, σ) ∧ reconciled A0 (g_matrix G).
Proof.
  eexists. split; [vm_compute; reflexivity|].
  apply (proj1 construction_reconciles_directions). vm_compute. reflexivity.
Defined.

Local Open Scope Z_scope.

Lemma focus_new_object σ0 attrs :
  focus (heap σ0) [] (objs σ0 ++ [∅]) (length (objs σ0)) attrs =
  World (heap σ0) (objs σ0 ++ [attrs]).
Proof.
  unfold focus. rewrite app_nil_r. f_equal.
  rewrite insert_app_r_alt by lia. by rewrite Nat.sub_diag.
Qed.



Lemma np_max_nonempty l : l ≠ [] → ∃ x, np_max l = Ok x.
Proof. destruct l; [done|]. by eexists. Qed.


Local Open Scope Z_scope.

(** ** Unit weights *)

Lemma tab_row_fmap n f (h : Qc → Qc) i :
  tab_row n (λ i j, h <$> f i j) i = (λ e : Z * Qc, (e.1, h e.2)) <$> tab_row n f i.
Proof.
  unfold tab_row. induction (seq 0 n) as [|j l IH]; [done|]. csimpl.
  destruct (f i j) as [w|]; csimpl; by rewrite IH.
Qed.

Lemma concat_replicate (ls : list (list (Z * Qc))) (x : Qc) :
  concat (row_data <$> ((fmap (λ e : Z * Qc, (e.1, x))) <$> ls)) =
  replicate (length (concat (row_data <$> ls))) x.
Proof.
  induction ls as [|l ls IH]; [done|]. rewrite !fmap_cons. cbn [concat].
  rewrite length_app, replicate_add, IH. f_equal.
  unfold row_data. clear. induction l as [|e l IH]; [done|]. rewrite !fmap_cons. cbn [length replicate].
  by rewrite IH.
Qed.

Lemma unit_weights_tabulate n f :
  unit_weights (tabulate n f) = tabulate n (λ i j, (λ _, 1%Qc) <$> f i j).
Proof.
  unfold unit_weights, tabulate, of_rows. cbn [shape indptr indices data].
  fold (tab_row n f). fold (tab_row n (λ i j, (λ _ : Qc, 1%Qc) <$> f i j)).
  assert (tab_row n (λ i j, (λ _ : Qc, 1%Qc) <$> f i j) <$> seq 0 n =
          fmap (λ e : Z * Qc, (e.1, 1%Qc)) <$> (tab_row n f <$> seq 0 n)) as ->.
  { rewrite <-list_fmap_compose. apply list_fmap_ext. intros _ i _.
    apply (tab_row_fmap n f (λ _, 1%Qc)). }
  f_equal.
  - f_equal. rewrite <-!list_fmap_compose. apply list_fmap_ext. intros _ l _.
    unfold row_length. simpl. by rewrite length_fmap.
  - f_equal. rewrite <-!list_fmap_compose. apply list_fmap_ext. intros _ l _.
    unfold row_indices. simpl. rewrite <-list_fmap_compose. done.
  - symmetry. apply concat_replicate.
Qed.

Lemma symmetrize_tabulate n f :
  symmetrize (tabulate n f) =
  tabulate n (λ i j, nonzero (Qc_max (default 0%Qc (f i j)) (default 0%Qc (f j i)))).
Proof.
  pose proof (val_symmetrize (tabulate n f)) as Hval. rewrite shape_tabulate in Hval.
  unfold symmetrize in *. unfold csr_add at 1. unfold csr_add at 1 in Hval.
  unfold binop at 1.
  change (shape (csr_sub (tabulate n f) (csr_multiply (tabulate n f)
            (csr_gt (transpose (tabulate n f)) (tabulate n f))))) with n.
  apply tabulate_ext. intros i j Hi Hj. f_equal.
  specialize (Hval i j Hi Hj). rewrite val_binop in Hval by done.
  rewrite Hval. by rewrite !val_tabulate.
Qed.

(** ** The matrix of an edge list without repeated pairs *)

Lemma hits_positions (l : list (Z * Z)) (w w' : list Qc) i j :
  length w = length w' →
  (filter (at_position i j) (zip l w)).*1 = (filter (at_position i j) (zip l w')).*1.
Proof.
  revert w w'. induction l as [|p l IH]; intros [|x w] [|x' w'] Hlen; try done.
  cbn [zip zip_with]. rewrite !filter_cons. simpl in Hlen.
  destruct (decide (at_position i j (p, x))) as [H|H];
    destruct (decide (at_position i j (p, x'))) as [H'|H']; try (by destruct H, H').
  - rewrite !fmap_cons. f_equal. apply IH. lia.
  - apply IH. lia.
Qed.

Lemma coo_sum_none r c w w' i j :
  length w = length w' → coo_sum r c w i j = None → coo_sum r c w' i j = None.
Proof.
  intros Hlen. unfold coo_sum. fold (at_position i j).
  pose proof (hits_positions (zip r c) w w' i j Hlen) as H.
  destruct (filter _ (zip (zip r c) w)) as [|e l]; [|done].
  destruct (filter _ (zip (zip r c) w')) as [|e' l']; done.
Qed.

Lemma coo_sum_positive r c w i j x :
  Forall (λ x, 0 < x)%Qc w → coo_sum r c w i j = Some x → (0 < x)%Qc.
Proof.
  intros Hw. unfold coo_sum. fold (at_position i j).
  destruct (filter _ _) as [|e l] eqn:Hf; [done|]. intros [= <-].
  apply Qc_sum_pos; [|done].
  change (Forall (λ x, 0 < x)%Qc (snd <$> (e :: l))).
  apply Forall_fmap, Forall_forall. intros e' He'.
  rewrite <-Hf in He'. apply list_elem_of_filter in He' as [_ He'].
  destruct e' as [p y].
  apply elem_of_zip_r in He'. eapply Forall_forall in Hw; done.
Qed.

Lemma filter_position_nodup (l : list (Z * Z)) (w : list Qc) i j :
  NoDup l → (length (filter (at_position i j) (zip l w)) ≤ 1)%nat.
Proof.
  revert w. induction l as [|p l IH]; intros [|x w] Hnd; try (simpl; lia).
  apply NoDup_cons in Hnd as [Hp Hnd]. cbn [zip zip_with]. rewrite filter_cons.
  destruct (decide _) as [[H1 H2]|_]; [|by apply IH].
  cbn [length]. destruct (filter _ (zip l w)) as [|[q y] k] eqn:Hk; [simpl; lia|].
  exfalso. apply Hp.
  assert ((q, y) ∈ filter (at_position i j) (zip l w)) as Hin by (rewrite Hk; left).
  apply list_elem_of_filter in Hin as [[H1' H2'] Hin]. apply elem_of_zip_l in Hin.
  destruct p as [a b], q as [a' b']. simpl in *. by subst.
Qed.

Lemma coo_sum_unit r c k i j x :
  NoDup (zip r c) → coo_sum r c (replicate k 1%Qc) i j = Some x → x = 1%Qc.
Proof.
  intros Hnd. unfold coo_sum. fold (at_position i j).
  pose proof (filter_position_nodup (zip r c) (replicate k 1%Qc) i j Hnd) as Hlen.
  destruct (filter _ _) as [|e l] eqn:Hf; [done|]. intros [= <-].
  destruct l; [|simpl in Hlen; lia].
  assert (e ∈ filter (at_position i j) (zip (zip r c) (replicate k 1%Qc))) as Hin
    by (rewrite Hf; left).
  apply list_elem_of_filter in Hin as [_ Hin]. destruct e as [p y].
  apply elem_of_zip_r, elem_of_replicate in Hin as [-> _].
  simpl. apply Qc_is_canon. reflexivity.
Qed.

(** ** Discarding weights commutes with symmetrization *)

Lemma symmetric_values n f :
  csr_sum (csr_ne (tabulate n f) (transpose (tabulate n f))) = 0%Qc ↔
  ∀ i j, (i < n)%nat → (j < n)%nat → default 0%Qc (f i j) = default 0%Qc (f j i).
Proof.
  split.
  - intros H i j Hi Hj.
    pose proof (csr_ne_sum_zero_inv _ _ i j H) as Hv. rewrite shape_tabulate in Hv.
    specialize (Hv Hi Hj). rewrite val_transpose in Hv by (rewrite shape_tabulate; done).
    by rewrite !val_tabulate in Hv.
  - intros H. apply csr_ne_sum_zero. rewrite shape_tabulate. intros i j Hi Hj.
    rewrite val_transpose by (rewrite shape_tabulate; done).
    rewrite !val_tabulate by done. by apply H.
Qed.

Lemma unit_symmetrized n f f' :
  (∀ i j, f i j = None → f' i j = None) →
  (∀ i j, f' i j = None → f i j = None) →
  (∀ i j x, f i j = Some x → (0 < x)%Qc) →
  (∀ i j x, f' i j = Some x → x = 1%Qc) →
  unit_weights (symmetrized (tabulate n f)) = symmetrized (tabulate n f').
Proof.
  intros H1 H2 Hpos Hone.
  assert (∀ i j, default 0%Qc (f i j) = 0%Qc ↔ f i j = None) as Hz.
  { intros i j. destruct (f i j) as [x|] eqn:E; simpl; [|done]. split; [|done].
    intros ->. apply Hpos in E. by apply Qclt_not_eq in E. }
  assert (∀ i j, default 0%Qc (f' i j) = 0%Qc ↔ f' i j = None) as Hz'.
  { intros i j. destruct (f' i j) as [x|] eqn:E; simpl; [|done]. split; [|done].
    intros ->. apply Hone in E. done. }
  assert (∀ i j, (λ _, 1%Qc) <$> f i j = f' i j) as Hunit.
  { intros i j. destruct (f i j) as [x|] eqn:E; simpl.
    - destruct (f' i j) as [y|] eqn:E'; [by rewrite (Hone _ _ _ E')|].
      apply H2 in E'. congruence.
    - by rewrite (H1 _ _ E). }
  assert (∀ a b : Qc, (0 ≤ a)%Qc → (0 ≤ b)%Qc → (Qc_max a b = 0%Qc ↔ a = 0%Qc ∧ b = 0%Qc)) as Hmax.
  { intros a b Ha Hb. unfold Qc_max. case_decide as Hc; split.
    - intros ->. split; [|done]. apply Qcle_antisym; [|done]. by apply Qclt_le_weak.
    - by intros [_ ->].
    - intros ->. split; [done|]. apply Qcle_antisym; [|done]. by apply Qcnot_lt_le.
    - by intros [-> _]. }
  assert (∀ i j, (0 ≤ default 0%Qc (f i j))%Qc) as Hnn.
  { intros i j. destruct (f i j) as [x|] eqn:E; simpl; [|done].
    apply Qclt_le_weak. by eapply Hpos. }
  assert (∀ i j, (0 ≤ default 0%Qc (f' i j))%Qc) as Hnn'.
  { intros i j. destruct (f' i j) as [x|] eqn:E; simpl; [|done].
    rewrite (Hone _ _ _ E). done. }
  assert (∀ i j, nonzero (Qc_max (default 0%Qc (f' i j)) (default 0%Qc (f' j i))) =
                 if decide (f i j = None ∧ f j i = None) then None else Some 1%Qc) as Hsym'.
  { intros i j. unfold nonzero. case_decide as Hm.
    - apply Hmax in Hm as [Ha Hb]; [|done..]. apply Hz', H2 in Ha. apply Hz', H2 in Hb.
      by rewrite decide_True.
    - rewrite decide_False.
      2:{ intros [Ha Hb]. apply Hm. apply Hmax; [done..|]. split; apply Hz'; by apply H1. }
      f_equal. unfold Qc_max.
      destruct (f' i j) as [x|] eqn:E; destruct (f' j i) as [y|] eqn:E'; simpl in *.
      + rewrite (Hone _ _ _ E), (Hone _ _ _ E'). by case_decide.
      + rewrite (Hone _ _ _ E). by rewrite decide_False.
      + rewrite (Hone _ _ _ E'). by rewrite decide_True.
      + exfalso. apply Hm. unfold Qc_max. by case_decide. }
  unfold symmetrized. fold (symmetrize (tabulate n f)). fold (symmetrize (tabulate n f')).
  destruct (decide (csr_sum (csr_ne (tabulate n f) _) = 0%Qc)) as [Hs|Hs].
  - rewrite decide_True.
    + rewrite unit_weights_tabulate. apply tabulate_ext. intros i j _ _. apply Hunit.
    + apply symmetric_values. intros i j Hi Hj.
      pose proof (proj1 (symmetric_values n f) Hs i j Hi Hj) as Hv.
      destruct (f' i j) as [x|] eqn:E; destruct (f' j i) as [y|] eqn:E'; simpl.
      * by rewrite (Hone _ _ _ E), (Hone _ _ _ E').
      * exfalso. apply H2, Hz in E'. rewrite E' in Hv. apply Hz, H1 in Hv. congruence.
      * exfalso. apply H2, Hz in E. rewrite E in Hv. symmetry in Hv. apply Hz, H1 in Hv.
        congruence.
      * done.
  - rewrite symmetrize_tabulate, unit_weights_tabulate.
    assert (∀ i j, (λ _, 1%Qc) <$> nonzero (Qc_max (default 0%Qc (f i j)) (default 0%Qc (f j i))) =
                   if decide (f i j = None ∧ f j i = None) then None else Some 1%Qc) as Hsym.
    { intros i j. unfold nonzero. case_decide as Hm.
      - apply Hmax in Hm as [Ha%Hz Hb%Hz]; [|done..]. by rewrite decide_True.
      - rewrite decide_False; [done|]. intros [Ha Hb]. apply Hm. apply Hmax; [done..|].
        split; by apply Hz. }
    destruct (decide (csr_sum (csr_ne (tabulate n f') _) = 0%Qc)) as [Hs'|Hs'].
    + apply tabulate_ext. intros i j Hi Hj. rewrite Hsym.
      pose proof (proj1 (symmetric_values n f') Hs' i j Hi Hj) as Hv.
      case_decide as Hd.
      * destruct Hd as [Ha _]. symmetry. by apply H1.
      * destruct (f' i j) as [x|] eqn:E; [by rewrite (Hone _ _ _ E)|].
        exfalso. apply Hd. split; [by apply H2|].
        simpl in Hv. symmetry in Hv. apply Hz' in Hv. by apply H2.
    + rewrite symmetrize_tabulate. apply tabulate_ext. intros i j _ _.
      by rewrite Hsym, Hsym'.
Qed.

Lemma discarded_graph_of A weighted vt it :
  discarded (graph_of A weighted vt it) = graph_of (unit_weights A) false vt it.
Proof.
  unfold discarded, graph_of. cbn [g_n g_m g_matrix g_ai g_aj].
  f_equal. unfold nnz, unit_weights. cbn [data]. by rewrite length_replicate.
Qed.

Local Open Scope Z_scope.

Lemma graph_at_object σ g G L :
  graph_at σ g G L →
  ∃ attrs, objs σ !! g = Some attrs ∧ (g < length (objs σ))%nat ∧
           ∀ a, attr σ g a = attrs !! a.
Proof.
  intros (Hn & _). unfold attr in *. destruct (objs σ !! g) as [attrs|] eqn:E; [|done].
  exists attrs. split; [done|]. split; [by eapply lookup_lt_Some|]. done.
Qed.

Lemma discard_weights_graph_at σ g G L :
  graph_at σ g G L → g_n G = Z.of_nat (shape (g_matrix G)) →
  ∃ σ' L', discard_weights g σ = (Ok (), σ') ∧ graph_at σ' g (discarded G) L'.
Proof.
  intros Hat HnG. destruct (graph_at_object _ _ _ _ Hat) as (attrs & Hobj & Hg & Hattr).
  destruct Hat as (Hn & Hm & Hw & Hvol & HA & Hai & Haj & Hd & Hdn & Hds & Hdns &
                   Hcsr & Hail & Hajl & Hdl & Hdnl & Hdsl & Hdnsl).
  rewrite Hattr in Hn, Hm, Hw, Hvol, HA, Hai, Haj, Hd, Hdn, Hds, Hdns.
  destruct Hcsr as (Hshape & [s1 Hdat] & (s2 & t2 & Hind) & (s3 & t3 & Hptr)).
  destruct Hail as [s4 Hail]. destruct Hajl as [s5 Hajl].
  set (A := l_matrix L) in *. set (Av := g_matrix G) in *.
  set (h1 := <[m_data A := Cell s1 (floats (replicate (length (data Av)) 1%Qc))]> (heap σ)).
  assert (∀ l c, heap σ !! l = Some c → l ≠ m_data A → h1 !! l = Some c) as Hkeep.
  { intros l c Hl Hne. subst h1. by rewrite list_lookup_insert_ne. }
  assert (csr_in (h1 ++ []) A (unit_weights Av)) as Hcsr'.
  { rewrite app_nil_r. unfold csr_in, floats_in, ints_in, unit_weights. cbn [shape indptr indices data].
    split_and!; [done|..].
    - exists s1. subst h1. apply list_lookup_insert_eq. by eapply lookup_lt_Some.
    - exists s2, t2. apply Hkeep; [done|]. intros E. rewrite E in Hind. congruence.
    - exists s3, t3. apply Hkeep; [done|]. intros E. rewrite E in Hptr. congruence. }
  set (attrs1 := <["_weighted" := VBool false]> attrs).
  pose proof (compute_statistics_focus h1 [] (objs σ) g attrs1 A (unit_weights Av) Hg) as Hcs.
  cbv zeta in Hcs.
  eexists _, (Layout A (l_ai L) (l_aj L) _ _ _ _ (l_itype L) (l_vtype L)).
  split.
  - rewrite (focus_intro σ g attrs Hobj) at 1.
    unfold discard_weights, get_matrix, load_floats. run. rewrite HA. run.
    rewrite (load_focus_old _ _ _ _ _ _ _ Hdat). cbn [contents]. run.
    rewrite (store_focus_old _ _ _ _ _ _ _ _ Hdat). run.
    cbn [shared]. fold h1. fold attrs1.
    rewrite Hcs; [done| |  |done].
    + subst attrs1. by run.
    + subst attrs1. run. rewrite Hn, HnG. done.
  - unfold discarded, graph_at. proj_simpl.
    rewrite !attr_focus by done. unfold focus. proj_simpl. subst attrs1.
    do 11 (split; [by run|]). split_and!.
    + rewrite app_nil_r in Hcsr'. by apply csr_in_app.
    + exists s4. apply lookup_app_l_Some, Hkeep; [done|]. intros E. rewrite E in Hail. congruence.
    + exists s5. apply lookup_app_l_Some, Hkeep; [done|]. intros E. rewrite E in Hajl. congruence.
    + eexists. apply (lookup_new _ [] _ _ 0); [simpl; lia|done].
    + eexists. apply (lookup_new _ [] _ _ 1); [simpl; lia|done].
    + eexists. apply (lookup_new _ [] _ _ 2); [simpl; lia|done].
    + eexists. apply (lookup_new _ [] _ _ 3); [simpl; lia|done].
Qed.

Local Open Scope Z_scope.

Lemma foldl_max_le x l : x ≤ foldl Z.max x l.
Proof. revert x. induction l as [|y l IH]; intros x; simpl; [lia|]. specialize (IH (x `max` y)). lia. Qed.

Lemma foldl_max_bound x l : Forall (λ i, i ≤ foldl Z.max x l) l.
Proof.
  revert x. induction l as [|y l IH]; intros x; simpl; [done|]. constructor; [|apply IH].
  pose proof (foldl_max_le (x `max` y) l). lia.
Qed.

Lemma np_max_bound l m : np_max l = Ok m → Forall (λ i, i ≤ m) l.
Proof.
  destruct l as [|x l]; [done|]. intros [= <-]. constructor; [apply foldl_max_le|].
  apply foldl_max_bound.
Qed.

(** The constructors accept every edge list of non-negative ids with as
    many weights as edges. *)
Lemma edge_matrix_total s t w :
  s ≠ [] → length t = length s → length w = length s →
  Forall (λ i, 0 ≤ i) s → Forall (λ i, 0 ≤ i) t →
  ∃ A0, edge_matrix s t w = Ok A0.
Proof.
  intros Hne Ht Hw Hs0 Ht0. unfold edge_matrix.
  destruct (np_max_nonempty s Hne) as [smax Hs]. rewrite Hs.
  destruct (np_max_nonempty t) as [tmax Htm]. { intros ->. by destruct s. }
  rewrite Htm. pose proof (np_max_bound _ _ Hs) as Hsb. pose proof (np_max_bound _ _ Htm) as Htb.
  unfold csr_from_coo.
  assert (0 ≤ smax). { destruct s as [|x s]; [done|]. apply Forall_cons in Hs0 as [? _].
                       apply Forall_cons in Hsb as [? _]. lia. }
  rewrite decide_False by lia. rewrite decide_True by (split; congruence).
  rewrite decide_True; [by eexists|]. split.
  - apply Forall_forall. intros i Hi. eapply Forall_forall in Hs0, Hsb; [|done..]. lia.
  - apply Forall_forall. intros i Hi. eapply Forall_forall in Ht0, Htb; [|done..]. lia.
Qed.

Lemma edge_matrix_weights s t w w' A0 :
  edge_matrix s t w = Ok A0 → length w' = length w →
  edge_matrix s t w' = Ok (tabulate (shape A0) (coo_sum s t w')).
Proof.
  unfold edge_matrix. destruct (np_max s) as [smax|]; [|done].
  destruct (np_max t) as [tmax|]; [|done]. unfold csr_from_coo. intros H Hlen.
  repeat case_decide; simplify_eq; try done.
  exfalso. destruct_and!. match goal with H : ¬ (_ ∧ _) |- _ => apply H end. split; congruence.
Qed.

Lemma is_weighted_unit n f :
  (∀ i j x, f i j = Some x → x = 1%Qc) → is_weighted (tabulate n f) = false.
Proof.
  intros H. unfold is_weighted. apply bool_decide_eq_false. intros Hex.
  apply Exists_exists in Hex as (x & Hx & Hne).
  apply elem_of_data_tabulate in Hx as (i & j & _ & _ & Hf). by apply H in Hf.
Qed.

Lemma astype_uint32_nonneg l : Forall (λ i, 0 ≤ i) (astype uint32 <$> l).
Proof.
  apply Forall_fmap, Forall_forall. intros z _. unfold compose, astype.
  apply Z.mod_pos_bound. lia.
Qed.

(** C8 (as amended): on every built graph [discard_weights] succeeds and
    leaves every stored weight equal to 1, the stored positions as they
    were, the weighted flag off and the statistics (degrees, volume,
    reciprocals, square roots) recomputed from the new weights; and for an
    edge list without repeated (source, target) pair and with strictly
    positive weights, the graph after [discard_weights] reads exactly as
    the graph built from the same edge list with all weights 1, so the
    reference scorer returns the same record on both for every subset of
    vertices. *)
Theorem discard_weights_effect :
  (∀ σ g, built σ g →
     ∃ G σ', view g σ = (Ok G, σ) ∧ discard_weights g σ = (Ok (), σ') ∧
             view g σ' = (Ok (discarded G), σ') ∧
             data (g_matrix (discarded G)) = replicate (length (data (g_matrix G))) 1%Qc ∧
             indptr (g_matrix (discarded G)) = indptr (g_matrix G) ∧
             indices (g_matrix (discarded G)) = indices (g_matrix G) ∧
             g_weighted (discarded G) = false ∧
             g_d (discarded G) = row_sums (g_matrix (discarded G)) ∧
             g_vol (discarded G) = Qc_sum (g_d (discarded G)) ∧
             g_dn (discarded G) = inv_degree <$> g_d (discarded G) ∧
             g_d_sqrt (discarded G) = Sqrt <$> g_d (discarded G) ∧
             g_dn_sqrt (discarded G) = Sqrt <$> g_dn (discarded G)) ∧
  (∀ s t w σ1 σ2,
     s ≠ [] → length t = length s → length w = length s →
     NoDup (zip (astype uint32 <$> s) (astype uint32 <$> t)) →
     Forall (λ x, (0 < x)%Qc) w →
     ∃ g1 σ1' σ1'' g2 σ2' G,
       build s t w σ1 = (Ok g1, σ1') ∧ discard_weights g1 σ1' = (Ok (), σ1'') ∧
       build s t (replicate (length w) 1%Qc) σ2 = (Ok g2, σ2') ∧
       view g1 σ1'' = (Ok G, σ1'') ∧ view g2 σ2' = (Ok G, σ2') ∧
       ∀ R, Forall (λ v, 0 ≤ v < g_n G) R →
            ∃ sc, set_scores g1 R false σ1'' = (Ok sc, σ1'') ∧
                  set_scores g2 R false σ2' = (Ok sc, σ2')).
Proof.
  split.
  - intros σ g Hb. destruct (built_graph_at σ g Hb) as (G & L & HG%constructed_facts_of & Hat).
    destruct (discard_weights_graph_at σ g G L Hat (cf_n G HG)) as (σ' & L' & Hrun & Hat').
    exists G, σ'. split; [by eapply view_graph_at|]. split; [done|].
    split; [by eapply view_graph_at|]. by split_and!.
  - intros s t w σ1 σ2 Hne Ht Hw Hnd Hpos.
    destruct (edge_matrix_total (astype uint32 <$> s) (astype uint32 <$> t) w) as [A0 HA0].
    { by destruct s. }
    { by rewrite !length_fmap. }
    { by rewrite length_fmap. }
    { apply astype_uint32_nonneg. }
    { apply astype_uint32_nonneg. }
    pose proof (edge_matrix_weights _ _ _ (replicate (length w) 1%Qc) _ HA0) as HB0.
    rewrite length_replicate in HB0. specialize (HB0 eq_refl).
    pose proof (build_run s t w σ1) as H1. rewrite HA0 in H1.
    destruct H1 as (σ1' & L1 & Hrun1 & _ & Hat1 & _).
    pose proof (build_run s t (replicate (length w) 1%Qc) σ2) as H2. rewrite HB0 in H2.
    destruct H2 as (σ2' & L2 & Hrun2 & _ & Hat2 & _).
    destruct (discard_weights_graph_at _ _ _ _ Hat1) as (σ1'' & L1' & Hrun1' & Hat1').
    { proj_simpl. done. }
    rewrite discarded_graph_of in Hat1'.
    apply edge_matrix_tabulate in HA0 as [HA0 _].
    set (n := shape A0) in *.
    set (fA := coo_sum (astype uint32 <$> s) (astype uint32 <$> t) w) in *.
    set (fB := coo_sum (astype uint32 <$> s) (astype uint32 <$> t)
                 (replicate (length w) 1%Qc)) in *.
    assert (is_weighted (tabulate n fB) = false) as HwB.
    { apply is_weighted_unit. intros i j x. by apply coo_sum_unit. }
    assert (unit_weights (symmetrized A0) = symmetrized (tabulate n fB)) as Heq.
    { rewrite HA0. apply unit_symmetrized.
      - intros i j. apply coo_sum_none. by rewrite length_replicate.
      - intros i j. apply coo_sum_none. by rewrite length_replicate.
      - intros i j x. by apply coo_sum_positive.
      - intros i j x. by apply coo_sum_unit. }
    rewrite Heq in Hat1'. rewrite HwB in Hat2.
    eexists _, σ1', σ1'', _, σ2', _. split; [done|]. split; [done|]. split; [done|].
    split; [by eapply view_graph_at|]. split; [by eapply view_graph_at|].
    intros R HR.
    assert (constructed_facts (graph_of (symmetrized (tabulate n fB)) false uint32 uint32)) as HF.
    { apply constructed_facts_of. eexists _, _, _, _. split; [exact HB0|]. by rewrite HwB. }
    eexists. split.
    + by apply (set_scores_reference_run _ _ _ _ R Hat1' HF).
    + by apply (set_scores_reference_run _ _ _ _ R Hat2 HF).
Qed.

Lemma discard_weights_effect_witness :
  ∃ g1 σ1' σ1'' g2 σ2' G,
    build [0; 1] [1; 2] [Qc_of_Z 2; Qc_of_Z 3] empty_world = (Ok g1, σ1') ∧
    discard_weights g1 σ1' = (Ok (), σ1'') ∧
    build [0; 1] [1; 2] (replicate (length [Qc_of_Z 2; Qc_of_Z 3]) 1%Qc) empty_world =
      (Ok g2, σ2') ∧
    view g1 σ1'' = (Ok G, σ1'') ∧ view g2 σ2' = (Ok G, σ2') ∧
    ∀ R, Forall (λ v, 0 ≤ v < g_n G) R →
         ∃ sc, set_scores g1 R false σ1'' = (Ok sc, σ1'') ∧
               set_scores g2 R false σ2' = (Ok sc, σ2').
Proof.
  apply (proj2 discard_weights_effect [0; 1] [1; 2] [Qc_of_Z 2; Qc_of_Z 3]
           empty_world empty_world).
  - done.
  - done.
  - done.
  - vm_compute. repeat constructor; set_solver.
  - repeat constructor.
Defined.

(** C8 as stated fails: an edge listed twice is stored once with the summed
    weight, so the rebuild from unit weights stores 2 where
    [discard_weights] leaves 1. *)
Lemma discard_weights_repeated_edge :
  ∃ g1 σ1 σ1' g2 σ2 s1 s2,
    build [0; 0] [1; 1] [Qc_of_Z 2; Qc_of_Z 2] empty_world = (Ok g1, σ1) ∧
    discard_weights g1 σ1 = (Ok (), σ1') ∧
    build [0; 0] [1; 1] [1%Qc; 1%Qc] empty_world = (Ok g2, σ2) ∧
    set_scores g1 [0] false σ1' = (Ok s1, σ1') ∧
    set_scores g2 [0] false σ2 = (Ok s2, σ2) ∧
    voltrue s1 = 1%Qc ∧ voltrue s2 = Qc_of_Z 2.
Proof.
  eexists _, _, _, _, _, _, _.
  split; [vm_compute; reflexivity|]. split; [vm_compute; reflexivity|].
  split; [vm_compute; reflexivity|]. split; [vm_compute; reflexivity|].
  split; [vm_compute; reflexivity|]. split; by apply Qc_is_canon.
Qed.

Local Open Scope Z_scope.

(** ** Sums over a vertex list *)

Lemma Qc_sum_plus {A} (f g : A → Qc) (l : list A) :
  Qc_sum ((λ x, f x + g x)%Qc <$> l) = (Qc_sum (f <$> l) + Qc_sum (g <$> l))%Qc.
Proof.
  induction l as [|x l IH]; csimpl; [rewrite !Qc_sum_nil; ring|].
  rewrite !Qc_sum_cons, IH. ring.
Qed.

Lemma Qc_sum_zero {A} (l : list A) : Qc_sum ((λ _, 0%Qc) <$> l) = 0%Qc.
Proof. induction l as [|x l IH]; csimpl; [done|]. rewrite Qc_sum_cons, IH. ring. Qed.

Lemma Qc_sum_single (n k : nat) (g : nat → Qc) :
  (k < n)%nat →
  Qc_sum ((λ i, if decide (i = k) then g i else 0%Qc) <$> seq 0 n) = g k.
Proof.
  induction n as [|n IH]; intros Hk; [lia|].
  rewrite seq_S, fmap_app, Qc_sum_app. cbn [plus]. csimpl. rewrite Qc_sum_cons, Qc_sum_nil.
  destruct (decide (n = k)) as [->|Hne].
  - rewrite (Qc_sum_ext _ (λ _, 0%Qc)).
    + rewrite Qc_sum_zero. ring.
    + intros i Hi%elem_of_seq. rewrite decide_False by lia. done.
  - rewrite IH by lia. ring.
Qed.

(** Summing over the vertices in [R] is summing over [R]. *)
Lemma Qc_sum_indicator (n : nat) (R : list Z) (g : nat → Qc) :
  NoDup R → Forall (λ v, 0 ≤ v < Z.of_nat n) R →
  Qc_sum ((λ i, ind R (Z.of_nat i) * g i)%Qc <$> seq 0 n) =
  Qc_sum ((λ v, g (Z.to_nat v)) <$> R).
Proof.
  induction 1 as [|v R Hv Hnd IH]; intros HR.
  - csimpl. rewrite Qc_sum_nil. rewrite (Qc_sum_ext _ (λ _, 0%Qc)); [apply Qc_sum_zero|].
    intros i _. unfold ind. rewrite decide_False by set_solver. ring.
  - apply Forall_cons in HR as [Hvn HR]. csimpl. rewrite Qc_sum_cons, <-IH by done.
    rewrite <-(Qc_sum_single n (Z.to_nat v) g) by lia. rewrite <-Qc_sum_plus.
    apply Qc_sum_ext. intros i _. unfold ind.
    destruct (decide (i = Z.to_nat v)) as [->|Hne].
    + rewrite Z2Nat.id by lia. rewrite decide_True by set_solver.
      rewrite decide_False by done. ring.
    + destruct (decide (Z.of_nat i ∈ R)).
      * rewrite decide_True by set_solver. ring.
      * rewrite decide_False by (rewrite elem_of_cons; intros [?|?]; [lia|done]). ring.
Qed.

(** ** Rows *)

Lemma row_data_split R (r : list (Z * Qc)) :
  Qc_sum (row_data r) =
  (Qc_sum ((λ e : Z * Qc, e.2 * ind R e.1) <$> r) +
   Qc_sum ((λ e : Z * Qc, e.2 * (1 - ind R e.1)) <$> r))%Qc.
Proof.
  unfold row_data. induction r as [|[c w] r IH]; csimpl; [rewrite !Qc_sum_nil; ring|].
  rewrite !Qc_sum_cons, IH. simpl. ring.
Qed.

Lemma internal_weight_rows n f R :
  internal_weight (tabulate n f) R =
  Qc_sum ((λ i, ind R (Z.of_nat i) *
                Qc_sum ((λ e : Z * Qc, e.2 * ind R e.1) <$> row (tabulate n f) i))%Qc
          <$> seq 0 n).
Proof.
  unfold internal_weight, entries. rewrite shape_tabulate.
  rewrite filter_bind, fmap_bind_list, Qc_sum_fmap_concat.
  apply Qc_sum_ext. intros i Hi%elem_of_seq. by rewrite row_sum_internal.
Qed.

Lemma row_sums_lookup A (i : nat) :
  (i < shape A)%nat → row_sums A !! i = Some (Qc_sum (row_data (row A i))).
Proof.
  intros Hi. unfold row_sums, rows. rewrite !list_lookup_fmap, lookup_seq_lt by done. done.
Qed.

Local Open Scope Z_scope.

(** * Shared memory *)

Lemma zeros_like_dtype b : buffer_dtype (zeros_like b) = buffer_dtype b.
Proof. by destruct b. Qed.

Lemma zeros_like_length b : buffer_length (zeros_like b) = buffer_length b.
Proof. destruct b; simpl; by rewrite length_replicate. Qed.

Lemma load_from_shared_focus h0 hs os g attrs l c :
  (h0 ++ hs) !! l = Some c →
  _load_from_shared l (buffer_dtype (contents c)) (buffer_length (contents c))
    (focus h0 hs os g attrs) = (Ok l, focus h0 hs os g attrs).
Proof.
  intros H. unfold _load_from_shared. rewrite run_bind, (load_focus _ _ _ _ _ _ _ H).
  cbv beta iota. rewrite decide_True by done. by rewrite run_ret.
Qed.

Lemma copy_to_shared_focus h0 hs os g attrs a c :
  (h0 ++ hs) !! a = Some c →
  _copy_to_shared a (focus h0 hs os g attrs) =
  (Ok ((length h0 + length hs)%nat,
       VShared (length h0 + length hs)%nat (buffer_dtype (contents c))
               (buffer_length (contents c))),
   focus h0 (hs ++ [Cell true (contents c)]) os g attrs).
Proof.
  intros H. unfold _copy_to_shared.
  rewrite run_bind, (load_focus _ _ _ _ _ _ _ H). cbv beta iota.
  rewrite run_bind, alloc_cell_focus. cbv beta iota.
  rewrite run_bind.
  rewrite <-(zeros_like_dtype (contents c)), <-(zeros_like_length (contents c)).
  rewrite (load_from_shared_focus _ _ _ _ _ _ (Cell true (zeros_like (contents c)))).
  2:{ rewrite app_assoc, lookup_app_r by (rewrite length_app; lia).
      rewrite length_app. replace (_ - _)%nat with 0%nat by lia. done. }
  cbv beta iota. rewrite run_bind.
  rewrite (store_focus_new _ _ _ _ _ (length hs) _ (Cell true (zeros_like (contents c)))).
  2:{ rewrite lookup_app_r by lia. by rewrite Nat.sub_diag. }
  cbv beta iota. rewrite run_ret. cbn [shared].
  rewrite insert_app_r_alt by lia. rewrite Nat.sub_diag. cbn [insert list_insert].
  by rewrite zeros_like_dtype, zeros_like_length.
Qed.

Lemma share_attr_focus h0 hs os g attrs x k vars a c :
  (g < length os)%nat →
  attrs !! x = Some (VArray a) → (h0 ++ hs) !! a = Some c →
  share_attr g x k vars (focus h0 hs os g attrs) =
  (Ok (<[k := VShared (length h0 + length hs)%nat (buffer_dtype (contents c))
                      (buffer_length (contents c))]> vars),
   focus h0 (hs ++ [Cell true (contents c)]) os g
     (<[x := VArray (length h0 + length hs)%nat]> attrs)).
Proof.
  intros Hg Hx Ha. unfold share_attr, get_array. run. rewrite Hx. run.
  rewrite (copy_to_shared_focus _ _ _ _ _ _ _ Ha). run. done.
Qed.

(** ** Rebuilding the matrix from the graph's arrays *)

Lemma astype_int32_fits z : fits_int32 z → astype int32 z = z.
Proof. unfold fits_int32, astype. intros. rewrite Z.mod_small; lia. Qed.

Lemma astype_int64_small z : 0 ≤ z < 2^32 → astype int64 z = z.
Proof. unfold astype. intros. rewrite Z.mod_small; lia. Qed.

Lemma np_array_as_focus h0 hs os g attrs a t s t' xs :
  (h0 ++ hs) !! a = Some (Cell s (ints t' xs)) →
  astype t <$> xs = xs →
  ∃ hs' a', np_array_as a t (focus h0 hs os g attrs) =
              (Ok a', focus h0 (hs ++ hs') os g attrs) ∧
            ints_in (h0 ++ hs ++ hs') a' xs.
Proof.
  intros Ha Hxs. unfold np_array_as. rewrite run_bind, (load_focus _ _ _ _ _ _ _ Ha).
  cbv beta iota. cbn [contents]. destruct (decide (t' = t)) as [->|Hne].
  - exists [], a. rewrite run_ret, !app_nil_r. split; [done|]. by exists s, t.
  - exists [Cell false (ints t xs)], (length h0 + length hs)%nat.
    unfold alloc. rewrite alloc_cell_focus, Hxs. split; [done|].
    exists false, t. rewrite app_assoc, lookup_app_r by (rewrite length_app; lia).
    rewrite length_app. replace (_ - _)%nat with 0%nat by lia. done.
Qed.

Lemma index_conversion_id (i p : list Z) n :
  Forall (λ z, 0 ≤ z < 2^32) i → Forall (λ z, 0 ≤ z < 2^32) p →
  astype (get_index_dtype i p n) <$> i = i ∧ astype (get_index_dtype i p n) <$> p = p.
Proof.
  intros Hi Hp. unfold get_index_dtype. case_decide as Hfit.
  - destruct Hfit as (_ & Hfi & Hfp). split.
    + clear -Hfi. induction Hfi as [|z l Hz Hl IH]; [done|].
      by rewrite fmap_cons, IH, astype_int32_fits.
    + clear -Hfp. induction Hfp as [|z l Hz Hl IH]; [done|].
      by rewrite fmap_cons, IH, astype_int32_fits.
  - split.
    + clear -Hi. induction Hi as [|z l Hz Hl IH]; [done|].
      by rewrite fmap_cons, IH, astype_int64_small.
    + clear -Hp. induction Hp as [|z l Hz Hl IH]; [done|].
      by rewrite fmap_cons, IH, astype_int64_small.
Qed.

Lemma csr_from_arrays_focus h0 hs os g attrs dat ind ptr n s1 d s2 t2 i s3 t3 p :
  (h0 ++ hs) !! dat = Some (Cell s1 (floats d)) →
  (h0 ++ hs) !! ind = Some (Cell s2 (ints t2 i)) →
  (h0 ++ hs) !! ptr = Some (Cell s3 (ints t3 p)) →
  Forall (λ z, 0 ≤ z < 2^32) i → Forall (λ z, 0 ≤ z < 2^32) p →
  0 ≤ n → Z.of_nat (length p) = n + 1 → p !! 0%nat = Some 0 →
  length i = length d → default 0 (last p) ≤ Z.of_nat (length i) →
  ∃ hs' A',
    csr_from_arrays dat ind ptr n (focus h0 hs os g attrs) =
      (Ok A', focus h0 (hs ++ hs') os g attrs) ∧
    csr_in (h0 ++ hs ++ hs') A' (CSR (Z.to_nat n) p i d) ∧
    m_data A' = dat.
Proof.
  intros Hdat Hind Hptr Hib Hpb Hn Hlen H0 Hid Hlast.
  destruct (index_conversion_id i p n Hib Hpb) as [Hci Hcp].
  unfold csr_from_arrays, load_floats, load_ints.
  rewrite run_bind, run_bind, (load_focus _ _ _ _ _ _ _ Hdat). cbv beta iota. cbn [contents].
  rewrite run_ret. cbv beta iota.
  rewrite run_bind, run_bind, (load_focus _ _ _ _ _ _ _ Hind). cbv beta iota. cbn [contents].
  rewrite run_ret. cbv beta iota.
  rewrite run_bind, run_bind, (load_focus _ _ _ _ _ _ _ Hptr). cbv beta iota. cbn [contents].
  rewrite run_ret. cbv beta iota zeta.
  destruct (np_array_as_focus h0 hs os g attrs ind (get_index_dtype i p n) _ _ _ Hind Hci)
    as (hs1 & ind' & Hrun1 & Hin1).
  rewrite run_bind, Hrun1. cbv beta iota.
  destruct (np_array_as_focus h0 (hs ++ hs1) os g attrs ptr (get_index_dtype i p n) s3 t3 p)
    as (hs2 & ptr' & Hrun2 & Hin2); [|done|].
  { rewrite app_assoc. by apply lookup_app_l_Some. }
  rewrite run_bind, Hrun2. cbv beta iota.
  rewrite !decide_False by (try lia; try congruence; naive_solver).
  rewrite run_ret. exists (hs1 ++ hs2), (CsrMatrix (Z.to_nat n) dat ind' ptr').
  rewrite <-!app_assoc in *. split; [done|]. split; [|done].
  unfold csr_in, floats_in. cbn [m_shape m_data m_indices m_indptr shape data indices indptr].
  split_and!; [done| | |done].
  - exists s1. rewrite app_assoc. by apply lookup_app_l_Some.
  - destruct Hin1 as (s & t & H). exists s, t.
    rewrite (app_assoc hs), (app_assoc h0). apply lookup_app_l_Some.
    first [exact H | by rewrite <-app_assoc].
Qed.

Local Open Scope Z_scope.

Lemma lookup_fresh (h0 hs hs' : list cell) (k : nat) c :
  hs !! k = Some c → (h0 ++ hs ++ hs') !! (length h0 + k)%nat = Some c.
Proof.
  intros H. rewrite lookup_app_r by lia. replace (length h0 + k - length h0)%nat with k by lia.
  by apply lookup_app_l_Some.
Qed.

Lemma lookup_fresh_nil (h0 hs : list cell) (k : nat) c :
  hs !! k = Some c → (h0 ++ hs) !! (length h0 + k)%nat = Some c.
Proof. intros H. rewrite <-(app_nil_r hs). by apply lookup_fresh. Qed.

(** The arrays of a built graph are a well-formed CSR triple. *)
Lemma built_arrays_wf G :
  constructed_facts G →
  Forall (λ z, 0 ≤ z < 2^32) (g_aj G) ∧ Forall (λ z, 0 ≤ z < 2^32) (g_ai G) ∧
  0 ≤ g_n G ∧ Z.of_nat (length (g_ai G)) = g_n G + 1 ∧ g_ai G !! 0%nat = Some 0 ∧
  length (g_aj G) = length (data (g_matrix G)) ∧
  default 0 (last (g_ai G)) ≤ Z.of_nat (length (g_aj G)).
Proof.
  intros HG. pose proof (built_ai_length G HG) as Hlen.
  pose proof (built_aj_length G HG) as Hajl.
  pose proof (cf_pos G HG) as Hpos.
  assert (∀ l, Forall (λ z, 0 ≤ z < 2^32) (astype uint32 <$> l)) as Hrange.
  { intros l. apply Forall_fmap, Forall_forall. intros z _. unfold compose, astype.
    apply Z.mod_pos_bound. lia. }
  split_and!.
  - rewrite (cf_aj G HG). apply Hrange.
  - rewrite (cf_ai G HG). apply Hrange.
  - lia.
  - done.
  - destruct (built_ai_lookup G 0 HG) as (z & Hz & Hai & _); [lia|].
    destruct HG as [[f Hf] _ _ _ _ _ _ _ _ _ _]. rewrite Hf in Hz.
    rewrite indptr_tabulate_lookup in Hz by lia. simplify_eq. done.
  - pose proof (cf_m G HG) as Hm. unfold nnz in Hm. lia.
  - rewrite last_lookup.
    destruct (built_ai_lookup G (Z.to_nat (g_n G)) HG) as (z & Hz & Hai & Hzb); [lia|].
    replace (pred (length (g_ai G))) with (Z.to_nat (g_n G)) by lia.
    rewrite Hai. change (astype uint32 z ≤ Z.of_nat (length (g_aj G))).
    pose proof (astype_uint32_bounds z). lia.
Qed.

Lemma to_shared_graph_at σ g G L :
  graph_at σ g G L → constructed_facts G →
  ∃ σ' L', to_shared g σ = (Ok (descriptor G L'), σ') ∧
           graph_at σ' g (rebuilt G) L' ∧
           Forall (λ l, (length (heap σ) ≤ l)%nat ∧ shared_at σ' l) (exported L') ∧
           NoDup (exported L') ∧
           heap σ `prefix_of` heap σ' ∧
           length (objs σ') = length (objs σ) ∧
           (∀ o, o ≠ g → objs σ' !! o = objs σ !! o).
Proof.
  intros Hat HG. destruct (graph_at_object _ _ _ _ Hat) as (attrs & Hobj & Hg & Hattr).
  destruct (built_arrays_wf G HG) as (Hajb & Haib & Hn0 & Hlen & Hai0 & Hajd & Hlast).
  destruct Hat as (Hn & Hm & Hw & Hvol & HA & Hai & Haj & Hd & Hdn & Hds & Hdns &
                   Hcsr & Hail & Hajl & Hdl & Hdnl & Hdsl & Hdnsl).
  rewrite Hattr in Hn, Hm, Hw, Hvol, HA, Hai, Haj, Hd, Hdn, Hds, Hdns.
  destruct Hcsr as (Hshape & [s1 Hdat] & (s2 & t2 & Hind) & (s3 & t3 & Hptr)).
  destruct Hail as [s4 Hail]. destruct Hajl as [s5 Hajl].
  destruct Hdl as [s6 Hdl]. destruct Hdnl as [s7 Hdnl].
  destruct Hdsl as [s8 Hdsl]. destruct Hdnsl as [s9 Hdnsl].
  set (h0 := heap σ) in *. set (os := objs σ) in *.
  set (hs7 := [Cell true (ints (l_itype L) (g_ai G)); Cell true (ints (l_vtype L) (g_aj G));
               Cell true (floats (g_d G)); Cell true (floats (g_dn G));
               Cell true (surds (g_d_sqrt G)); Cell true (surds (g_dn_sqrt G));
               Cell true (floats (data (g_matrix G)))]).
  destruct (csr_from_arrays_focus h0 hs7 os g
              (<["adjacency_matrix" :=
                   VMatrix (CsrMatrix (m_shape (l_matrix L)) (length h0 + 6)%nat
                              (m_indices (l_matrix L)) (m_indptr (l_matrix L)))]>
               (<["dn_sqrt" := VArray (length h0 + 5)%nat]>
               (<["d_sqrt" := VArray (length h0 + 4)%nat]>
               (<["dn" := VArray (length h0 + 3)%nat]>
               (<["d" := VArray (length h0 + 2)%nat]>
               (<["aj" := VArray (length h0 + 1)%nat]>
               (<["ai" := VArray (length h0 + 0)%nat]> attrs)))))))
              (length h0 + 6)%nat (length h0 + 1)%nat (length h0 + 0)%nat (g_n G)
              true (data (g_matrix G)) true (l_vtype L) (g_aj G) true (l_itype L) (g_ai G))
    as (hs' & A' & Hrun & Hcsr' & HdatA'); [by apply lookup_fresh_nil..|done|done|done|done|done|done|done|].
  eexists _, (Layout A' (length h0 + 0)%nat (length h0 + 1)%nat (length h0 + 2)%nat
                (length h0 + 3)%nat (length h0 + 4)%nat (length h0 + 5)%nat
                (l_itype L) (l_vtype L)).
  split_and!.
  - rewrite (focus_intro σ g attrs Hobj) at 1. fold h0 os.
    unfold to_shared, get_matrix, get_array, get_int.
    rewrite run_bind.
    rewrite (share_attr_focus _ _ _ _ _ "ai" "ai" _ (l_ai L) _ Hg Hai)
      by (apply lookup_app_l_Some; exact Hail).
    cbv beta iota. cbn [app length contents buffer_dtype buffer_length].
    rewrite run_bind.
    rewrite (share_attr_focus _ _ _ _ _ "aj" "aj" _ (l_aj L) _ Hg)
      by (by run || (apply lookup_app_l_Some; exact Hajl)).
    cbv beta iota. cbn [app length contents buffer_dtype buffer_length].
    rewrite run_bind.
    rewrite (share_attr_focus _ _ _ _ _ "d" "d" _ (l_d L) _ Hg)
      by (by run || (apply lookup_app_l_Some; exact Hdl)).
    cbv beta iota. cbn [app length contents buffer_dtype buffer_length].
    rewrite run_bind.
    rewrite (share_attr_focus _ _ _ _ _ "dn" "dn" _ (l_dn L) _ Hg)
      by (by run || (apply lookup_app_l_Some; exact Hdnl)).
    cbv beta iota. cbn [app length contents buffer_dtype buffer_length].
    rewrite run_bind.
    rewrite (share_attr_focus _ _ _ _ _ "d_sqrt" "d_sqrt" _ (l_d_sqrt L) _ Hg)
      by (by run || (apply lookup_app_l_Some; exact Hdsl)).
    cbv beta iota. cbn [app length contents buffer_dtype buffer_length].
    rewrite run_bind.
    rewrite (share_attr_focus _ _ _ _ _ "dn_sqrt" "dn_sqrt" _ (l_dn_sqrt L) _ Hg)
      by (by run || (apply lookup_app_l_Some; exact Hdnsl)).
    cbv beta iota. cbn [app length contents buffer_dtype buffer_length].
    run. rewrite HA. run.
    rewrite (copy_to_shared_focus _ _ _ _ _ _ (Cell s1 (floats (data (g_matrix G)))))
      by (apply lookup_app_l_Some; exact Hdat).
    cbn [app length contents buffer_dtype buffer_length]. run.
    fold hs7. cbn [m_data m_shape m_indices m_indptr]. rewrite Hn. run.
    rewrite Hrun. run. rewrite Hn. run. rewrite Hm. run. rewrite Hvol. run. rewrite Hw. run.
    unfold descriptor. proj_simpl. rewrite HdatA'. reflexivity.
  - unfold rebuilt, graph_at. proj_simpl.
    rewrite !attr_focus by done. unfold focus. proj_simpl.
    do 11 (split; [by run|]). split_and!.
    + exact Hcsr'.
    + exists true. by apply (lookup_fresh h0 hs7 hs' 0).
    + exists true. by apply (lookup_fresh h0 hs7 hs' 1).
    + exists true. by apply (lookup_fresh h0 hs7 hs' 2).
    + exists true. by apply (lookup_fresh h0 hs7 hs' 3).
    + exists true. by apply (lookup_fresh h0 hs7 hs' 4).
    + exists true. by apply (lookup_fresh h0 hs7 hs' 5).
  - unfold exported, shared_at, focus. proj_simpl. rewrite HdatA'.
    repeat (apply Forall_cons; split; [split; [lia|eexists]|]); [..|by apply Forall_nil].
    + by apply (lookup_fresh h0 hs7 hs' 0).
    + by apply (lookup_fresh h0 hs7 hs' 1).
    + by apply (lookup_fresh h0 hs7 hs' 2).
    + by apply (lookup_fresh h0 hs7 hs' 3).
    + by apply (lookup_fresh h0 hs7 hs' 4).
    + by apply (lookup_fresh h0 hs7 hs' 5).
    + by apply (lookup_fresh h0 hs7 hs' 6).
  - unfold exported. proj_simpl. rewrite HdatA'.
    apply NoDup_fmap_1 with (f := λ l, (l - length h0)%nat).
    rewrite !fmap_cons, fmap_nil.
    replace (length h0 + 0 - length h0)%nat with 0%nat by lia.
    replace (length h0 + 1 - length h0)%nat with 1%nat by lia.
    replace (length h0 + 2 - length h0)%nat with 2%nat by lia.
    replace (length h0 + 3 - length h0)%nat with 3%nat by lia.
    replace (length h0 + 4 - length h0)%nat with 4%nat by lia.
    replace (length h0 + 5 - length h0)%nat with 5%nat by lia.
    replace (length h0 + 6 - length h0)%nat with 6%nat by lia.
    by apply (NoDup_seq 0 7).
  - unfold focus. proj_simpl. by apply prefix_app_r.
  - unfold focus. proj_simpl. by rewrite length_insert.
  - intros o Ho. unfold focus. proj_simpl. by rewrite list_lookup_insert_ne.
Qed.

Local Open Scope Z_scope.

Lemma load_shared_focus h0 hs os g attrs vars k l dt shp c :
  vars !! k = Some (VShared l dt shp) → (h0 ++ hs) !! l = Some c →
  buffer_dtype (contents c) = dt → buffer_length (contents c) = shp →
  load_shared vars k (focus h0 hs os g attrs) = (Ok l, focus h0 hs os g attrs).
Proof.
  intros Hk Hl <- <-. unfold load_shared, dict_get. rewrite Hk, run_bind, run_ret.
  cbv beta iota. by apply load_from_shared_focus.
Qed.

Lemma graph_at_extends σ σ' g G L : graph_at σ g G L → extends σ σ' → graph_at σ' g G L.
Proof.
  intros Hat [Hh Ho]. destruct (graph_at_object _ _ _ _ Hat) as (attrs & Hobj & Hg & Hattr).
  assert (∀ a, attr σ' g a = attr σ g a) as Ha.
  { intros a. unfold attr. pose proof (prefix_lookup_Some _ _ _ _ Hobj Ho) as HH.
    unfold oid in *. by rewrite HH, Hobj. }
  assert (∀ l c, heap σ !! l = Some c → heap σ' !! l = Some c) as Hl.
  { intros l c H. by eapply prefix_lookup_Some. }
  destruct Hat as (Hn & Hm & Hw & Hvol & HA & Hai & Haj & Hd & Hdn & Hds & Hdns &
                   Hcsr & Hail & Hajl & Hdl & Hdnl & Hdsl & Hdnsl).
  unfold graph_at. rewrite !Ha. do 11 (split; [done|]).
  destruct Hcsr as (Hshape & [s1 Hdat] & (s2 & t2 & Hind) & (s3 & t3 & Hptr)).
  destruct Hail as [s4 Hail]. destruct Hajl as [s5 Hajl].
  destruct Hdl as [s6 Hdl]. destruct Hdnl as [s7 Hdnl].
  destruct Hdsl as [s8 Hdsl]. destruct Hdnsl as [s9 Hdnsl].
  unfold csr_in, floats_in, ints_in, typed_ints_in, surds_in. split_and!; eauto 6.
Qed.

(** [from_shared] on the dictionary of a graph whose arrays are in the store. *)
Lemma from_shared_graph_at σ g G L :
  graph_at σ g G L →
  Forall (λ z, 0 ≤ z < 2^32) (g_aj G) → Forall (λ z, 0 ≤ z < 2^32) (g_ai G) →
  0 ≤ g_n G → Z.of_nat (length (g_ai G)) = g_n G + 1 → g_ai G !! 0%nat = Some 0 →
  length (g_aj G) = length (data (g_matrix G)) →
  default 0 (last (g_ai G)) ≤ Z.of_nat (length (g_aj G)) →
  ∃ σ' L', from_shared (descriptor G L) σ = (Ok (length (objs σ)), σ') ∧
           extends σ σ' ∧
           graph_at σ' (length (objs σ)) (rebuilt G) L' ∧
           exported L' = exported L.
Proof.
  intros Hat Hajb Haib Hn0 Hlen Hai0 Hajd Hlast.
  destruct Hat as (Hn & Hm & Hw & Hvol & HA & Hai & Haj & Hd & Hdn & Hds & Hdns &
                   Hcsr & Hail & Hajl & Hdl & Hdnl & Hdsl & Hdnsl).
  destruct Hcsr as (Hshape & [s1 Hdat] & (s2 & t2 & Hind) & (s3 & t3 & Hptr)).
  destruct Hail as [s4 Hail]. destruct Hajl as [s5 Hajl].
  destruct Hdl as [s6 Hdl]. destruct Hdnl as [s7 Hdnl].
  destruct Hdsl as [s8 Hdsl]. destruct Hdnsl as [s9 Hdnsl].
  set (h0 := heap σ) in *. set (os := objs σ ++ [∅]). set (g' := length (objs σ)).
  assert (g' < length os)%nat as Hg'. { subst os g'. rewrite length_app. simpl. lia. }
  assert (∀ l c, h0 !! l = Some c → (h0 ++ []) !! l = Some c) as Hnil.
  { intros l c H. by rewrite app_nil_r. }
  set (attrs4 := <["aj" := VArray (l_aj L)]>
                 (<["ai" := VArray (l_ai L)]>
                 (<["vol_G" := VFloat (g_vol G)]>
                 (<["_weighted" := VBool (g_weighted G)]>
                 (<["_num_edges" := VInt (g_m G)]>
                 (<["_num_vertices" := VInt (g_n G)]> (∅ : gmap string value))))))).
  destruct (csr_from_arrays_focus h0 [] os g' attrs4
              (m_data (l_matrix L)) (l_aj L) (l_ai L) (g_n G)
              s1 (data (g_matrix G)) s5 (l_vtype L) (g_aj G) s4 (l_itype L) (g_ai G))
    as (hs' & A' & Hrun & Hcsr' & HdatA'); [by apply Hnil..|done|done|done|done|done|done|done|].
  eexists _, (Layout A' (l_ai L) (l_aj L) (l_d L) (l_dn L) (l_d_sqrt L) (l_dn_sqrt L)
                (l_itype L) (l_vtype L)).
  split_and!.
  - unfold from_shared. rewrite run_bind, new_object_run. fold h0 os g'.
    unfold dict_get, descriptor, get_array, get_int. run.
    rewrite (load_shared_focus _ _ _ _ _ _ "ai" (l_ai L) (l_itype L) (length (g_ai G))
               (Cell s4 (ints (l_itype L) (g_ai G)))); [|by run|by apply Hnil|done|done].
    run.
    rewrite (load_shared_focus _ _ _ _ _ _ "aj" (l_aj L) (l_vtype L) (length (g_aj G))
               (Cell s5 (ints (l_vtype L) (g_aj G)))); [|by run|by apply Hnil|done|done].
    run.
    rewrite (load_shared_focus _ _ _ _ _ _ "a" (m_data (l_matrix L)) float64
               (length (data (g_matrix G)))
               (Cell s1 (floats (data (g_matrix G))))); [|by run|by apply Hnil|done|done].
    run. fold attrs4. rewrite Hrun. run. cbn [app].
    rewrite (load_shared_focus _ _ _ _ _ _ "d" (l_d L) float64 (length (g_d G))
               (Cell s6 (floats (g_d G))));
      [|by run|by apply lookup_app_l_Some|done|done].
    run.
    rewrite (load_shared_focus _ _ _ _ _ _ "dn" (l_dn L) float64 (length (g_dn G))
               (Cell s7 (floats (g_dn G))));
      [|by run|by apply lookup_app_l_Some|done|done].
    run.
    rewrite (load_shared_focus _ _ _ _ _ _ "d_sqrt" (l_d_sqrt L) float64 (length (g_d_sqrt G))
               (Cell s8 (surds (g_d_sqrt G))));
      [|by run|by apply lookup_app_l_Some|done|done].
    run.
    rewrite (load_shared_focus _ _ _ _ _ _ "dn_sqrt" (l_dn_sqrt L) float64
               (length (g_dn_sqrt G)) (Cell s9 (surds (g_dn_sqrt G))));
      [|by run|by apply lookup_app_l_Some|done|done].
    run. reflexivity.
  - apply extends_focus_new.
  - unfold rebuilt, graph_at. proj_simpl.
    rewrite !attr_focus by done. unfold focus. proj_simpl. subst attrs4.
    do 11 (split; [by run|]). cbn [app] in Hcsr'. split_and!.
    + exact Hcsr'.
    + exists s4. by apply lookup_app_l_Some.
    + exists s5. by apply lookup_app_l_Some.
    + exists s6. by apply lookup_app_l_Some.
    + exists s7. by apply lookup_app_l_Some.
    + exists s8. by apply lookup_app_l_Some.
    + exists s9. by apply lookup_app_l_Some.
  - unfold exported. proj_simpl. by rewrite HdatA'.
Qed.

Local Open Scope Z_scope.

(** When the index arrays hold the matrix's own index values, rebuilding the
    matrix from them changes nothing. *)
Lemma rebuilt_fit G : constructed_facts G → index_arrays_fit G → rebuilt G = G.
Proof.
  intros HG Hfit. destruct (built_index_fit G HG Hfit) as [Hai Haj].
  pose proof (cf_n G HG) as Hn. unfold rebuilt. rewrite Hai, Haj, Hn, Nat2Z.id, <-Hn.
  destruct G as [n m w vol [sh ptr ind dat] ai aj d dn ds dns]. simpl in *. by subst.
Qed.

(** C10: on every built graph [to_shared] succeeds; afterwards the
    attributes [ai], [aj], [d], [dn], [d_sqrt], [dn_sqrt] and the data of
    the adjacency matrix are seven distinct blocks allocated by the call,
    all of them shared, the dictionary returned describes exactly these
    blocks and the four scalars, the blocks that existed before are
    untouched, and a reader of the object finds the same scalars and the
    same values in every array; the matrix is rebuilt with [ai] and [aj] as
    its index arrays, so the graph read is the same graph whenever these
    hold the matrix's index values. *)
Theorem to_shared_preserves_graph σ g :
  built σ g →
  ∃ G vars σ' L' G',
    view g σ = (Ok G, σ) ∧ to_shared g σ = (Ok vars, σ') ∧
    vars = descriptor G L' ∧
    graph_at σ' g G' L' ∧ view g σ' = (Ok G', σ') ∧
    g_n G' = g_n G ∧ g_m G' = g_m G ∧ g_vol G' = g_vol G ∧ g_weighted G' = g_weighted G ∧
    g_ai G' = g_ai G ∧ g_aj G' = g_aj G ∧ data (g_matrix G') = data (g_matrix G) ∧
    g_d G' = g_d G ∧ g_dn G' = g_dn G ∧ g_d_sqrt G' = g_d_sqrt G ∧
    g_dn_sqrt G' = g_dn_sqrt G ∧
    indptr (g_matrix G') = g_ai G ∧ indices (g_matrix G') = g_aj G ∧
    (index_arrays_fit G → G' = G) ∧
    Forall (λ l, (length (heap σ) ≤ l)%nat ∧ shared_at σ' l) (exported L') ∧
    NoDup (exported L') ∧
    heap σ `prefix_of` heap σ'.
Proof.
  intros Hb. destruct (built_graph_at σ g Hb) as (G & L & HG%constructed_facts_of & Hat).
  destruct (to_shared_graph_at σ g G L Hat HG)
    as (σ' & L' & Hrun & Hat' & Hfresh & Hnd & Hpre & _ & _).
  exists G, (descriptor G L'), σ', L', (rebuilt G).
  split; [by eapply view_graph_at|]. split; [done|]. split; [done|]. split; [done|].
  split; [by eapply view_graph_at|].
  do 13 (split; [reflexivity|]). split; [by apply rebuilt_fit|]. done.
Qed.

Lemma to_shared_preserves_graph_witness :
  built path_world path_graph ∧
  ∃ G vars σ' L' G',
    view path_graph path_world = (Ok G, path_world) ∧
    to_shared path_graph path_world = (Ok vars, σ') ∧
    vars = descriptor G L' ∧
    graph_at σ' path_graph G' L' ∧ view path_graph σ' = (Ok G', σ') ∧
    g_n G' = g_n G ∧ g_m G' = g_m G ∧ g_vol G' = g_vol G ∧ g_weighted G' = g_weighted G ∧
    g_ai G' = g_ai G ∧ g_aj G' = g_aj G ∧ data (g_matrix G') = data (g_matrix G) ∧
    g_d G' = g_d G ∧ g_dn G' = g_dn G ∧ g_d_sqrt G' = g_d_sqrt G ∧
    g_dn_sqrt G' = g_dn_sqrt G ∧
    indptr (g_matrix G') = g_ai G ∧ indices (g_matrix G') = g_aj G ∧
    (index_arrays_fit G → G' = G) ∧
    Forall (λ l, (length (heap path_world) ≤ l)%nat ∧ shared_at σ' l) (exported L') ∧
    NoDup (exported L') ∧
    heap path_world `prefix_of` heap σ'.
Proof.
  split; [exact path_built|]. apply to_shared_preserves_graph. exact path_built.
Defined.

(** C9: for every built graph [g], [from_shared (to_shared g)] succeeds and
    returns a new object whose scalars n, m, volume and weighted flag and
    whose arrays [ai], [aj], matrix data, [d], [dn], [d_sqrt], [dn_sqrt]
    equal those of [g]; these arrays of the new object are the very shared
    blocks [to_shared] left in [g], not copies, and [g] still reads the
    same. *)
Theorem shared_round_trip σ g :
  built σ g →
  ∃ G vars σ1 L1 g' σ2 L2 G',
    view g σ = (Ok G, σ) ∧ to_shared g σ = (Ok vars, σ1) ∧
    from_shared vars σ1 = (Ok g', σ2) ∧ g' ≠ g ∧
    view g' σ2 = (Ok G', σ2) ∧
    g_n G' = g_n G ∧ g_m G' = g_m G ∧ g_vol G' = g_vol G ∧ g_weighted G' = g_weighted G ∧
    g_ai G' = g_ai G ∧ g_aj G' = g_aj G ∧ data (g_matrix G') = data (g_matrix G) ∧
    g_d G' = g_d G ∧ g_dn G' = g_dn G ∧ g_d_sqrt G' = g_d_sqrt G ∧
    g_dn_sqrt G' = g_dn_sqrt G ∧
    (index_arrays_fit G → G' = G) ∧
    graph_at σ1 g G' L1 ∧ graph_at σ2 g' G' L2 ∧ graph_at σ2 g G' L1 ∧
    exported L2 = exported L1 ∧
    Forall (shared_at σ2) (exported L2) ∧
    heap σ1 `prefix_of` heap σ2.
Proof.
  intros Hb. destruct (built_graph_at σ g Hb) as (G & L & HG%constructed_facts_of & Hat).
  destruct (to_shared_graph_at σ g G L Hat HG)
    as (σ1 & L1 & Hrun1 & Hat1 & Hfresh & Hnd & Hpre & Hlen & _).
  destruct (built_arrays_wf G HG) as (Hajb & Haib & Hn0 & Hlenai & Hai0 & Hajd & Hlast).
  destruct (from_shared_graph_at σ1 g (rebuilt G) L1 Hat1)
    as (σ2 & L2 & Hrun2 & Hext & Hat2 & Hexp); [done..|].
  destruct (graph_at_object _ _ _ _ Hat1) as (attrs & Hobj & Hg & _).
  exists G, (descriptor G L1), σ1, L1, (length (objs σ1)), σ2, L2, (rebuilt G).
  split; [by eapply view_graph_at|]. split; [done|]. split; [exact Hrun2|].
  split; [lia|]. split; [by eapply view_graph_at|].
  do 11 (split; [reflexivity|]). split; [by apply rebuilt_fit|].
  split; [done|]. split; [exact Hat2|]. split; [by eapply graph_at_extends|].
  split; [done|]. split; [|by destruct Hext].
  rewrite Hexp. eapply Forall_impl; [exact Hfresh|]. intros l [_ [b Hl]].
  exists b. destruct Hext as [Hh _]. by eapply prefix_lookup_Some.
Qed.

Lemma shared_round_trip_witness :
  built path_world path_graph ∧
  ∃ G vars σ1 L1 g' σ2 L2 G',
    view path_graph path_world = (Ok G, path_world) ∧
    to_shared path_graph path_world = (Ok vars, σ1) ∧
    from_shared vars σ1 = (Ok g', σ2) ∧ g' ≠ path_graph ∧
    view g' σ2 = (Ok G', σ2) ∧
    g_n G' = g_n G ∧ g_m G' = g_m G ∧ g_vol G' = g_vol G ∧ g_weighted G' = g_weighted G ∧
    g_ai G' = g_ai G ∧ g_aj G' = g_aj G ∧ data (g_matrix G') = data (g_matrix G) ∧
    g_d G' = g_d G ∧ g_dn G' = g_dn G ∧ g_d_sqrt G' = g_d_sqrt G ∧
    g_dn_sqrt G' = g_dn_sqrt G ∧
    (index_arrays_fit G → G' = G) ∧
    graph_at σ1 path_graph G' L1 ∧ graph_at σ2 g' G' L2 ∧ graph_at σ2 path_graph G' L1 ∧
    exported L2 = exported L1 ∧
    Forall (shared_at σ2) (exported L2) ∧
    heap σ1 `prefix_of` heap σ2.
Proof.
  split; [exact path_built|]. apply shared_round_trip. exact path_built.
Defined.

Local Open Scope Z_scope.

(** * The largest component *)

(** ** The most common label *)

Lemma first_max_spec xs keys b k :
  first_max xs keys b = Some k →
  (k ∈ keys ∨ b = Some k) ∧
  (∀ x, x ∈ keys → (count_of x xs ≤ count_of k xs)%nat) ∧
  (∀ b0, b = Some b0 → (count_of b0 xs ≤ count_of k xs)%nat).
Proof.
  revert b. induction keys as [|y keys IH]; intros b H; cbn [first_max] in H.
  - subst b. split; [by right|]. split; [by intros x ?%elem_of_nil|].
    intros b0 [= <-]. done.
  - apply IH in H as (Hin & Hkeys & Hbest). split_and!.
    + destruct Hin as [Hin|Hin]; [left; by right|].
      destruct b as [b0|]; [|simplify_eq; left; by left].
      case_decide; simplify_eq; [left; by left|by right].
    + intros x [->|Hx]%elem_of_cons; [|by apply Hkeys].
      destruct b as [b0|]; [|by apply Hbest].
      case_decide as Hc; [by apply Hbest|].
      specialize (Hbest b0 eq_refl). lia.
    + intros b0 ->. case_decide as Hc.
      * specialize (Hbest y eq_refl). lia.
      * by apply Hbest.
Qed.

Lemma first_max_is_some xs keys b : keys ≠ [] ∨ is_Some b → is_Some (first_max xs keys b).
Proof.
  revert b. induction keys as [|y keys IH]; intros b H; cbn [first_max].
  - by destruct H.
  - apply IH. right. destruct b; [case_decide|]; done.
Qed.

Lemma count_of_absent x xs : x ∉ xs → count_of x xs = 0%nat.
Proof.
  intros Hx. unfold count_of. induction xs as [|y xs IH]; [done|].
  rewrite filter_cons. apply not_elem_of_cons in Hx as [Hne Hx].
  rewrite decide_False by done. by apply IH.
Qed.

Lemma elem_of_counter_keys seen xs x :
  x ∈ counter_keys seen xs ↔ x ∈ xs ∧ x ∉ seen.
Proof.
  revert seen. induction xs as [|y xs IH]; intros seen; cbn [counter_keys].
  - set_solver.
  - case_decide.
    + rewrite IH. set_solver.
    + rewrite elem_of_cons, IH. destruct (decide (x = y)); set_solver.
Qed.

(** A key stands where the element was first met: everything met before
    it was a key already. *)
Lemma counter_keys_split seen xs pre k post :
  counter_keys seen xs = pre ++ k :: post →
  ∃ i, xs !! i = Some k ∧ ∀ x, x ∈ take i xs → x ∈ seen ∨ x ∈ pre.
Proof.
  revert seen pre. induction xs as [|y xs IH]; intros seen pre; cbn [counter_keys].
  - by destruct pre.
  - case_decide as Hy.
    + intros (i & Hi & Hpre)%IH. exists (S i). split; [done|].
      intros x [->|Hx]%elem_of_cons; [by left|by apply Hpre].
    + destruct pre as [|p pre]; intros [= <- H].
      * exists 0%nat. split; [done|]. by intros x ?%elem_of_nil.
      * apply IH in H as (i & Hi & Hpre). exists (S i). split; [done|].
        intros x [->|Hx]%elem_of_cons; [right; by left|].
        destruct (Hpre x Hx) as [[->|?]%elem_of_cons|?]; [right; by left|by left|right; by right].
Qed.

(** [first_max] keeps the running best unless a later key is strictly more
    common: the key it returns is strictly more common than every key
    before it. *)
Lemma first_max_first xs keys b k :
  first_max xs keys b = Some k →
  b = Some k ∨
  ∃ pre post, keys = pre ++ k :: post ∧
              (∀ x, x ∈ pre → (count_of x xs < count_of k xs)%nat) ∧
              (∀ b0, b = Some b0 → (count_of b0 xs < count_of k xs)%nat).
Proof.
  revert b. induction keys as [|y keys IH]; intros b H; cbn [first_max] in H.
  - by left.
  - apply IH in H as [H|(pre & post & -> & Hpre & Hb)].
    + destruct b as [b0|]; [case_decide as Hc|]; simplify_eq.
      * right. exists [], keys. split; [done|]. split; [by intros x ?%elem_of_nil|].
        by intros ? [= <-].
      * by left.
      * right. exists [], keys. split; [done|]. split; [by intros x ?%elem_of_nil|done].
    + right. exists (y :: pre), post. split; [done|].
      destruct b as [b0|]; [case_decide as Hc|].
      * specialize (Hb y eq_refl). split.
        -- intros x [->|Hx]%elem_of_cons; [done|by apply Hpre].
        -- intros ? [= <-]. lia.
      * specialize (Hb b0 eq_refl). split.
        -- intros x [->|Hx]%elem_of_cons; [lia|by apply Hpre].
        -- by intros ? [= <-].
      * specialize (Hb y eq_refl). split; [|done].
        intros x [->|Hx]%elem_of_cons; [done|by apply Hpre].
Qed.

(** [most_common(1)] names a label that occurs, none occurs more often, and
    of the labels that occur as often it is the one met first. *)
Lemma most_common_key_spec xs :
  xs ≠ [] →
  ∃ k, most_common_key xs = Ok k ∧ k ∈ xs ∧
       (∀ x, (count_of x xs ≤ count_of k xs)%nat) ∧
       ∃ i, xs !! i = Some k ∧
            ∀ j x, xs !! j = Some x → count_of x xs = count_of k xs → (i ≤ j)%nat.
Proof.
  intros Hne. unfold most_common_key.
  destruct (first_max_is_some xs (counter_keys [] xs) None) as [k Hk].
  { left. destruct xs as [|x xs]; [done|]. cbn [counter_keys].
    by rewrite decide_False by apply not_elem_of_nil. }
  rewrite Hk. exists k. split; [done|].
  pose proof Hk as ([Hin|?] & Hkeys & _)%first_max_spec; [|done].
  split; [by apply elem_of_counter_keys in Hin as [? _]|]. split.
  - intros x. destruct (decide (x ∈ xs)) as [Hx|Hx].
    + apply Hkeys. apply elem_of_counter_keys. split; [done|apply not_elem_of_nil].
    + rewrite count_of_absent by done. lia.
  - apply first_max_first in Hk as [?|(pre & post & Hsplit & Hpre & _)]; [done|].
    apply counter_keys_split in Hsplit as (i & Hi & Hbefore).
    exists i. split; [done|]. intros j x Hj Hc.
    destruct (decide (i ≤ j)%nat) as [|Hlt]; [done|]. exfalso.
    destruct (Hbefore x) as [Hx|Hx].
    + apply (list_elem_of_lookup_2 _ j). rewrite lookup_take_lt by lia. done.
    + by apply elem_of_nil in Hx.
    + apply Hpre in Hx. lia.
Qed.

(** On a tie the label met first wins. *)
Lemma most_common_key_tie : most_common_key [0; 1; 1; 0] = Ok 0.
Proof. reflexivity. Qed.

(** ** The vertices with a given label *)

Lemma range_seq n : range 0 n = Z.of_nat <$> seq 0 (Z.to_nat n).
Proof.
  unfold range. rewrite Z.sub_0_r. apply list_fmap_ext. intros _ k _. lia.
Qed.

Lemma maxccnodes_scan (labels : list Z) (key : Z) (l : list nat) :
  Forall (λ i, (i < length labels)%nat) l →
  foldr (λ i acc,
           match np_getitem labels i, acc with
           | Raise e, _ | Ok _, Raise e => Raise e
           | Ok c, Ok l => Ok (if decide (key = c) then i :: l else l)
           end)
        (Ok []) (Z.of_nat <$> l) =
  Ok (Z.of_nat <$> filter (λ i, labels !! i = Some key) l).
Proof.
  induction 1 as [|i l Hi Hl IH]; [done|]. rewrite fmap_cons. cbn [foldr]. rewrite IH.
  destruct (lookup_lt_is_Some_2 labels i Hi) as [c Hc].
  rewrite (np_getitem_in_range labels (Z.of_nat i) c) by (rewrite ?Nat2Z.id; done || lia).
  rewrite filter_cons. destruct (decide (key = c)) as [->|Hne].
  - by rewrite decide_True.
  - rewrite decide_False by congruence. done.
Qed.

Lemma filter_seq_sorted (P : nat → Prop) `{!∀ i, Decision (P i)} a n :
  StronglySorted lt (filter P (seq a n)).
Proof.
  eapply sublist_strongly_sorted; [apply sublist_filter|].
  revert a. induction n as [|n IH]; intros a; [constructor|]. cbn [seq]. constructor; [apply IH|].
  apply Forall_forall. intros j Hj%elem_of_seq. lia.
Qed.

(** ** Looking at another object *)

Lemma getattr_other h0 hs os g attrs o a attrs_o :
  o ≠ g → os !! o = Some attrs_o →
  getattr o a (focus h0 hs os g attrs) =
  (match attrs_o !! a with Some v => Ok v | None => Raise AttributeError end,
   focus h0 hs os g attrs).
Proof.
  intros Hne Ho. unfold getattr, focus. cbn [objs].
  rewrite list_lookup_insert_ne by done. unfold oid in *. rewrite Ho. simpl. by destruct (attrs_o !! a).
Qed.

Lemma new_object_focus h0 hs os g attrs :
  (g < length os)%nat →
  new_object (focus h0 hs os g attrs) =
  (Ok (length os), focus (h0 ++ hs) [] (<[g := attrs]> os ++ [∅]) (length os) ∅).
Proof.
  intros Hg. rewrite new_object_run. unfold focus. cbn [heap objs].
  by rewrite length_insert.
Qed.

(** A graph stays readable when blocks are added and its attributes, other
    than the two [connected_components] sets, are kept. *)
Lemma graph_at_frame σ σ' g G L :
  graph_at σ g G L → heap σ `prefix_of` heap σ' →
  (∀ a, a ≠ "components" → a ≠ "number_of_components" → attr σ' g a = attr σ g a) →
  graph_at σ' g G L.
Proof.
  intros Hat Hh Ha.
  assert (∀ l c, heap σ !! l = Some c → heap σ' !! l = Some c) as Hl.
  { intros l c H. by eapply prefix_lookup_Some. }
  destruct Hat as (Hn & Hm & Hw & Hvol & HA & Hai & Haj & Hd & Hdn & Hds & Hdns &
                   Hcsr & Hail & Hajl & Hdl & Hdnl & Hdsl & Hdnsl).
  unfold graph_at. rewrite !Ha by done. do 11 (split; [done|]).
  destruct Hcsr as (Hshape & [s1 Hdat] & (s2 & t2 & Hind) & (s3 & t3 & Hptr)).
  destruct Hail as [s4 Hail]. destruct Hajl as [s5 Hajl].
  destruct Hdl as [s6 Hdl]. destruct Hdnl as [s7 Hdnl].
  destruct Hdsl as [s8 Hdsl]. destruct Hdnsl as [s9 Hdnsl].
  unfold csr_in, floats_in, ints_in, typed_ints_in, surds_in. split_and!; eauto 6.
Qed.

Lemma labels_length A : length (csgraph_connected_components A).2 = shape A.
Proof. unfold csgraph_connected_components. cbn [snd]. by rewrite length_fmap, length_seq. Qed.

Lemma shape_submatrix A idx : shape (submatrix A idx) = length idx.
Proof. unfold submatrix. by rewrite shape_tabulate. Qed.

Lemma get_submatrix A idx a b i j :
  idx !! a = Some i → idx !! b = Some j → get (submatrix A idx) a b = get A i j.
Proof.
  intros Ha Hb. unfold submatrix.
  rewrite get_tabulate by (by eapply lookup_lt_Some). by rewrite Ha, Hb.
Qed.

Local Open Scope Z_scope.

Lemma connected_components_focus h0 hs os g attrs A Av :
  (g < length os)%nat →
  attrs !! "adjacency_matrix" = Some (VMatrix A) →
  csr_in (h0 ++ hs) A Av →
  connected_components g (focus h0 hs os g attrs) =
  (Ok (),
   focus h0 (hs ++ [Cell false (ints int32 (csgraph_connected_components Av).2)]) os g
     (<["number_of_components" := VInt (csgraph_connected_components Av).1]>
      (<["components" := VArray (length h0 + length hs)%nat]> attrs))).
Proof.
  intros Hg HA Hcsr. unfold connected_components, get_matrix, alloc.
  run. rewrite HA. run. rewrite (load_csr_focus _ _ _ _ _ _ _ Hcsr). run. done.
Qed.

Lemma fmap_to_nat_of_nat (l : list nat) : Z.to_nat <$> (Z.of_nat <$> l) = l.
Proof.
  rewrite <-list_fmap_compose. rewrite <-(list_fmap_id l) at 2.
  apply list_fmap_ext. intros _ i _. simpl. lia.
Qed.

Lemma index_type_of_focus h0 hs os g attrs l s t z zs :
  (h0 ++ hs) !! l = Some (Cell s (ints t (z :: zs))) →
  index_type_of l (focus h0 hs os g attrs) =
  (Ok (if decide (t = int64) then int64 else uint32), focus h0 hs os g attrs).
Proof.
  intros H. unfold index_type_of. rewrite run_bind, (load_focus _ _ _ _ _ _ _ H).
  cbv beta iota. cbn [contents]. by rewrite run_ret.
Qed.

Lemma index_type_of_empty h0 hs os g attrs l s t :
  (h0 ++ hs) !! l = Some (Cell s (ints t [])) →
  index_type_of l (focus h0 hs os g attrs) = (Raise IndexError, focus h0 hs os g attrs).
Proof.
  intros H. unfold index_type_of. rewrite run_bind, (load_focus _ _ _ _ _ _ _ H).
  cbv beta iota. cbn [contents]. by rewrite run_raise.
Qed.

Lemma largest_component_connected σ g G L :
  graph_at σ g G L →
  (csgraph_connected_components (g_matrix G)).1 = 1 →
  ∃ σ', largest_component g σ = (Ok g, σ') ∧ graph_at σ' g G L ∧
        heap σ `prefix_of` heap σ' ∧ length (objs σ') = length (objs σ).
Proof.
  intros Hat Hk. destruct (graph_at_object _ _ _ _ Hat) as (attrs & Hobj & Hg & Hattr).
  pose proof Hat as (Hn & Hm & Hw & Hvol & HA & Hai & Haj & Hd & Hdn & Hds & Hdns &
                     Hcsr & Hail & Hajl & Hdl & Hdnl & Hdsl & Hdnsl).
  rewrite Hattr in HA.
  eexists. split_and!.
  - rewrite (focus_intro σ g attrs Hobj) at 1. unfold largest_component, get_int.
    rewrite run_bind.
    rewrite (connected_components_focus _ _ _ _ _ _ (g_matrix G) Hg HA)
      by (by rewrite app_nil_r).
    run. rewrite Hk. rewrite decide_True by done. run. reflexivity.
  - eapply graph_at_frame; [exact Hat| |].
    + unfold focus. cbn [heap]. by apply prefix_app_r.
    + intros a Ha1 Ha2. rewrite attr_focus by done. rewrite Hattr.
      by rewrite !lookup_insert_ne by done.
  - unfold focus. cbn [heap]. by apply prefix_app_r.
  - unfold focus. cbn [objs]. by rewrite length_insert.
Qed.

Lemma largest_component_disconnected σ g G L key :
  graph_at σ g G L → l_itype L = uint32 → l_vtype L = uint32 →
  constructed_facts G →
  (csgraph_connected_components (g_matrix G)).1 ≠ 1 →
  0 < g_m G →
  most_common_key (csgraph_connected_components (g_matrix G)).2 = Ok key →
  let nodes := filter (λ i, (csgraph_connected_components (g_matrix G)).2 !! i = Some key)
                      (seq 0 (shape (g_matrix G))) in
  ∃ σ' L',
    largest_component g σ = (Ok (length (objs σ)), σ') ∧
    graph_at σ' (length (objs σ))
      (graph_of (submatrix (g_matrix G) nodes) (g_weighted G) uint32 uint32) L' ∧
    Forall (λ l, (length (heap σ) ≤ l)%nat) (blocks L') ∧
    graph_at σ' g G L ∧
    heap σ `prefix_of` heap σ'.
Proof.
  intros Hat Hit Hvt HG Hk Hm0 Hkey nodes.
  destruct (graph_at_object _ _ _ _ Hat) as (attrs & Hobj & Hg & Hattr).
  pose proof Hat as (Hn & Hm & Hw & Hvol & HA & Hai & Haj & Hd & Hdn & Hds & Hdns &
                     Hcsr & Hail & Hajl & Hdl & Hdnl & Hdsl & Hdnsl).
  rewrite Hattr in Hn, Hm, Hw, Hvol, HA, Hai, Haj, Hd, Hdn, Hds, Hdns.
  destruct Hail as [s4 Hail]. destruct Hajl as [s5 Hajl]. rewrite Hit in Hail. rewrite Hvt in Hajl.
  pose proof (cf_n G HG) as HnG. pose proof (built_ai_length G HG) as Hailen.
  pose proof (built_aj_length G HG) as Hajlen.
  destruct (g_ai G) as [|z0 ai'] eqn:Eai; [simpl in Hailen; lia|].
  destruct (g_aj G) as [|z1 aj'] eqn:Eaj; [simpl in Hajlen; lia|].
  set (h0 := heap σ) in *. set (os := objs σ) in *.
  set (out := csgraph_connected_components (g_matrix G)) in *.
  set (c0 := Cell false (ints int32 out.2)).
  set (attrs2 := <["number_of_components" := VInt out.1]>
                 (<["components" := VArray (length h0 + length (@nil cell))%nat]> attrs)).
  set (os2 := <[g := attrs2]> os ++ [∅]).
  set (g' := length os).
  assert (g' < length os2)%nat as Hg'.
  { subst g' os2. rewrite length_app, length_insert. simpl. lia. }
  assert (g ≠ g') as Hne by (subst g'; lia).
  assert (os2 !! g = Some attrs2) as Hos2.
  { subst os2. rewrite lookup_app_l by (rewrite length_insert; lia).
    by apply list_lookup_insert_eq. }
  set (Av := g_matrix G) in *.
  set (Av' := submatrix Av nodes).
  assert (Forall (λ i, (i < length out.2)%nat) (seq 0 (Z.to_nat (g_n G)))) as Hseq.
  { apply Forall_forall. intros i Hi%elem_of_seq. subst out. rewrite labels_length. lia. }
  eexists _, (Layout (CsrMatrix (shape Av') _ _ _) _ _ _ _ _ _ uint32 uint32).
  split_and!.
  - rewrite (focus_intro σ g attrs Hobj) at 1. fold h0 os.
    unfold largest_component, get_int, get_array, get_matrix.
    rewrite run_bind.
    rewrite (connected_components_focus _ _ _ _ _ _ Av Hg HA) by (by rewrite app_nil_r).
    fold out c0. cbn [app]. run.
    rewrite decide_False by done. run.
    unfold load_ints. rewrite run_bind.
    cbn [length]. rewrite (load_focus_new _ _ _ _ _ 0). cbn [lookup list_lookup].
    unfold c0 at 1. cbn [contents]. run.
    rewrite Hkey. run. rewrite Hn. run.
    rewrite range_seq, (maxccnodes_scan out.2 key _ Hseq). run.
    rewrite new_object_focus by done. fold attrs2 os2 g'. set (h1 := h0 ++ [c0]). run.
    rewrite (getattr_other _ _ _ _ _ g "adjacency_matrix" attrs2) by done.
    unfold attrs2 at 1. run. rewrite HA. run.
    rewrite (load_csr_focus _ _ _ _ _ _ Av) by (rewrite app_nil_r; by apply csr_in_app).
    run. rewrite decide_True.
    2:{ apply Forall_fmap, Forall_forall. intros i Hi. apply list_elem_of_filter in Hi as [_ Hi].
        apply elem_of_seq in Hi. unfold compose. lia. }
    run. rewrite fmap_to_nat_of_nat.
    replace (Z.to_nat (g_n G)) with (shape Av) by lia. fold nodes. fold Av'.
    rewrite new_csr_focus. run. rewrite length_fmap.
    erewrite (compute_statistics_focus _ _ _ _ _ _ Av');
      [|done|by run|by (run; unfold Av'; rewrite shape_submatrix)|csr_new].
    run.
    rewrite (getattr_other _ _ _ _ _ g "_weighted" attrs2) by done.
    unfold attrs2 at 1. run. rewrite Hw. run.
    rewrite (getattr_other _ _ _ _ _ g "ai" attrs2) by done.
    unfold attrs2 at 1. run. rewrite Hai. run.
    rewrite (index_type_of_focus _ _ _ _ _ _ s4 uint32 z0 ai').
    2:{ unfold h1. rewrite <-!app_assoc. apply lookup_app_l_Some. exact Hail. }
    run.
    rewrite (getattr_other _ _ _ _ _ g "aj" attrs2) by done.
    unfold attrs2 at 1. run. rewrite Haj. run.
    rewrite (index_type_of_focus _ _ _ _ _ _ s5 uint32 z1 aj').
    2:{ unfold h1. rewrite <-!app_assoc. apply lookup_app_l_Some. exact Hajl. }
    run. norm_heap.
    rewrite (load_csr_focus _ _ _ _ _ _ Av')
      by (eapply (csr_in_new h1 [] _ _ 0); proj_simpl; cbn [length];
          first [reflexivity | lia]).
    unfold alloc. run. norm_heap. run.
    reflexivity.
  - unfold graph_of, graph_at. proj_simpl.
    rewrite !attr_focus by done. unfold focus. proj_simpl.
    do 11 (split; [by run|]). split_and!.
    + eapply (csr_in_new (h0 ++ [c0]) [] _ _ 0); proj_simpl; cbn [length];
        first [reflexivity | lia].
    + eexists. apply (lookup_new _ [] _ _ 7); [cbn [length]; lia|done].
    + eexists. apply (lookup_new _ [] _ _ 8); [cbn [length]; lia|done].
    + eexists. apply (lookup_new _ [] _ _ 3); [cbn [length]; lia|done].
    + eexists. apply (lookup_new _ [] _ _ 4); [cbn [length]; lia|done].
    + eexists. apply (lookup_new _ [] _ _ 5); [cbn [length]; lia|done].
    + eexists. apply (lookup_new _ [] _ _ 6); [cbn [length]; lia|done].
  - unfold blocks. proj_simpl. rewrite !length_app. cbn [length].
    repeat (apply Forall_cons; split; [lia|]). by apply Forall_nil.
  - eapply graph_at_frame; [exact Hat| |].
    + unfold focus. cbn [heap]. fold h0. rewrite <-app_assoc. by apply prefix_app_r.
    + intros a Ha1 Ha2. rewrite Hattr. unfold attr, focus. cbn [objs].
      rewrite list_lookup_insert_ne by done.
      rewrite lookup_app_l by (rewrite length_insert; done).
      rewrite list_lookup_insert_eq by done. simpl.
      by rewrite !lookup_insert_ne by done.
  - unfold focus. cbn [heap]. fold h0. rewrite <-app_assoc. by apply prefix_app_r.
Qed.

Local Open Scope Z_scope.

Lemma forest_built : built forest_world forest_graph.
Proof. apply (built_from_lists _ _ empty_world [0; 2; 3] [1; 3; 4] [1; 1; 1]%Qc). by vm_compute. Qed.

Lemma labels_nonempty A : (0 < shape A)%nat → (csgraph_connected_components A).2 ≠ [].
Proof.
  intros H E. apply (f_equal length) in E. rewrite labels_length in E. simpl in E. lia.
Qed.

(** C4 (as amended): on a built graph whose matrix scipy finds connected,
    [largest_component] returns the object it was called on; when scipy
    finds several components and the graph has at least one stored entry,
    it returns a new object, none of whose blocks existed before, holding
    the graph induced on the vertices that carry the most common component
    label (on ties the label whose first vertex comes first), taken in
    ascending order and
    renumbered by position: entry [(a, b)] of the new matrix is entry
    [(nodes[a], nodes[b])] of the old one, the degrees, volume, reciprocals
    and square roots are computed from the new matrix, the weighted flag is
    copied, and the original still reads as before. *)
Theorem largest_component_result σ g :
  built σ g →
  ∃ G k labels,
    view g σ = (Ok G, σ) ∧ csgraph_connected_components (g_matrix G) = (k, labels) ∧
    (k = 1 → ∃ σ', largest_component g σ = (Ok g, σ') ∧ view g σ' = (Ok G, σ')) ∧
    (k ≠ 1 → 0 < g_m G →
     ∃ key nodes g' σ' L' G',
       most_common_key labels = Ok key ∧ key ∈ labels ∧
       (∀ x, (count_of x labels ≤ count_of key labels)%nat) ∧
       (∃ i, labels !! i = Some key ∧
             ∀ j x, labels !! j = Some x → count_of x labels = count_of key labels →
                    (i ≤ j)%nat) ∧
       nodes = filter (λ i, labels !! i = Some key) (seq 0 (Z.to_nat (g_n G))) ∧
       StronglySorted lt nodes ∧
       largest_component g σ = (Ok g', σ') ∧ g' ≠ g ∧ g' = length (objs σ) ∧
       view g' σ' = (Ok G', σ') ∧
       G' = graph_of (submatrix (g_matrix G) nodes) (g_weighted G) uint32 uint32 ∧
       g_n G' = Z.of_nat (length nodes) ∧
       (∀ a b i j, nodes !! a = Some i → nodes !! b = Some j →
                   get (g_matrix G') a b = get (g_matrix G) i j) ∧
       g_weighted G' = g_weighted G ∧
       g_d G' = row_sums (g_matrix G') ∧ g_vol G' = Qc_sum (g_d G') ∧
       g_dn G' = inv_degree <$> g_d G' ∧ g_d_sqrt G' = Sqrt <$> g_d G' ∧
       g_dn_sqrt G' = Sqrt <$> g_dn G' ∧
       graph_at σ' g' G' L' ∧ Forall (λ l, (length (heap σ) ≤ l)%nat) (blocks L') ∧
       view g σ' = (Ok G, σ') ∧ heap σ `prefix_of` heap σ').
Proof.
  intros Hb.
  destruct (built_graph_at_typed σ g Hb) as (G & L & HG%constructed_facts_of & Hat & Hit & Hvt).
  destruct (csgraph_connected_components (g_matrix G)) as [k labels] eqn:Hout.
  exists G, k, labels. split; [by eapply view_graph_at|]. split; [done|]. split.
  - intros ->. destruct (largest_component_connected σ g G L Hat) as (σ' & Hrun & Hat' & _).
    { by rewrite Hout. }
    exists σ'. split; [done|]. by eapply view_graph_at.
  - intros Hk Hm.
    pose proof (cf_n G HG) as Hn. pose proof (cf_pos G HG) as Hpos.
    destruct (most_common_key_spec labels) as (key & Hkey & Hin & Hmax & Hfirst).
    { replace labels with (csgraph_connected_components (g_matrix G)).2 by (by rewrite Hout).
      apply labels_nonempty. lia. }
    destruct (largest_component_disconnected σ g G L key Hat Hit Hvt HG)
      as (σ' & L' & Hrun & Hat' & Hfresh & Hatg & Hpre);
      [by rewrite Hout|done|by rewrite Hout|].
    cbv zeta in Hat'. rewrite Hout in Hat'. cbn [snd] in Hat'.
    destruct (graph_at_object _ _ _ _ Hat) as (attrs & Hobj & Hg & _).
    replace (shape (g_matrix G)) with (Z.to_nat (g_n G)) in Hat' by lia.
    eexists key, _, (length (objs σ)), σ', L', _.
    split; [done|]. split; [done|]. split; [done|]. split; [done|]. split; [reflexivity|].
    split; [apply filter_seq_sorted|]. split; [done|]. split; [lia|]. split; [done|].
    split; [by eapply view_graph_at|]. split; [reflexivity|].
    split; [unfold graph_of; cbn [g_n]; by rewrite shape_submatrix|].
    split; [intros a b i j Ha Hb'; by apply get_submatrix|].
    do 6 (split; [reflexivity|]).
    split; [done|]. split; [done|]. split; [by eapply view_graph_at|done].
Qed.

Lemma largest_component_result_witness :
  built forest_world forest_graph ∧
  ∃ G k labels,
    view forest_graph forest_world = (Ok G, forest_world) ∧
    csgraph_connected_components (g_matrix G) = (k, labels) ∧
    (k = 1 → ∃ σ', largest_component forest_graph forest_world = (Ok forest_graph, σ') ∧
                   view forest_graph σ' = (Ok G, σ')) ∧
    (k ≠ 1 → 0 < g_m G →
     ∃ key nodes g' σ' L' G',
       most_common_key labels = Ok key ∧ key ∈ labels ∧
       (∀ x, (count_of x labels ≤ count_of key labels)%nat) ∧
       (∃ i, labels !! i = Some key ∧
             ∀ j x, labels !! j = Some x → count_of x labels = count_of key labels →
                    (i ≤ j)%nat) ∧
       nodes = filter (λ i, labels !! i = Some key) (seq 0 (Z.to_nat (g_n G))) ∧
       StronglySorted lt nodes ∧
       largest_component forest_graph forest_world = (Ok g', σ') ∧ g' ≠ forest_graph ∧
       g' = length (objs forest_world) ∧
       view g' σ' = (Ok G', σ') ∧
       G' = graph_of (submatrix (g_matrix G) nodes) (g_weighted G) uint32 uint32 ∧
       g_n G' = Z.of_nat (length nodes) ∧
       (∀ a b i j, nodes !! a = Some i → nodes !! b = Some j →
                   get (g_matrix G') a b = get (g_matrix G) i j) ∧
       g_weighted G' = g_weighted G ∧
       g_d G' = row_sums (g_matrix G') ∧ g_vol G' = Qc_sum (g_d G') ∧
       g_dn G' = inv_degree <$> g_d G' ∧ g_d_sqrt G' = Sqrt <$> g_d G' ∧
       g_dn_sqrt G' = Sqrt <$> g_dn G' ∧
       graph_at σ' g' G' L' ∧
       Forall (λ l, (length (heap forest_world) ≤ l)%nat) (blocks L') ∧
       view forest_graph σ' = (Ok G, σ') ∧ heap forest_world `prefix_of` heap σ').
Proof.
  split; [exact forest_built|]. apply largest_component_result. exact forest_built.
Defined.

(** C4 as stated fails: on a connected graph the object returned is the
    object the method was called on. *)
Lemma largest_component_returns_self :
  ∃ σ', largest_component path_graph path_world = (Ok path_graph, σ').
Proof. eexists. vm_compute. reflexivity. Qed.

(** Of two components of the same size the one met first is kept, whatever
    the weights: vertices 0 and 3, with the edge of weight 2. *)
Lemma largest_component_tie :
  ∃ g' σ' G', largest_component pairs_graph pairs_world = (Ok g', σ') ∧
              view g' σ' = (Ok G', σ') ∧ g_n G' = 2 ∧
              data (g_matrix G') = Qc_of_Z <$> [2; 2].
Proof.
  eexists _, _, _. split; [vm_compute; reflexivity|].
  split; [vm_compute; reflexivity|]. split; [reflexivity|].
  apply Qc_list_eq. reflexivity.
Qed.

Local Open Scope Z_scope.

(** * More on scoring *)

Lemma boundary_weight_rows n f R :
  boundary_weight (tabulate n f) R =
  Qc_sum ((λ i, ind R (Z.of_nat i) *
                Qc_sum ((λ e : Z * Qc, e.2 * (1 - ind R e.1)) <$> row (tabulate n f) i))%Qc
          <$> seq 0 n).
Proof.
  unfold boundary_weight, entries. rewrite shape_tabulate.
  rewrite filter_bind, fmap_bind_list, Qc_sum_fmap_concat.
  apply Qc_sum_ext. intros i Hi%elem_of_seq. by rewrite row_sum_boundary.
Qed.

(** The degrees of [R] add up to the weight inside [R] plus the weight
    leaving [R]. *)
Lemma volume_splits n f (R : list Z) :
  NoDup R → Forall (λ v, 0 ≤ v < Z.of_nat n) R →
  Qc_sum ((λ v, default 0%Qc (row_sums (tabulate n f) !! Z.to_nat v)) <$> R) =
  (internal_weight (tabulate n f) R + boundary_weight (tabulate n f) R)%Qc.
Proof.
  intros Hnd HR. rewrite internal_weight_rows, boundary_weight_rows.
  rewrite (Qc_sum_indicator n R
             (λ i, Qc_sum ((λ e : Z * Qc, e.2 * ind R e.1)%Qc <$> row (tabulate n f) i))
             Hnd HR).
  rewrite (Qc_sum_indicator n R
             (λ i, Qc_sum ((λ e : Z * Qc, e.2 * (1 - ind R e.1))%Qc <$> row (tabulate n f) i))
             Hnd HR).
  rewrite <-Qc_sum_plus. apply Qc_sum_ext. intros v Hv.
  eapply Forall_forall in HR; [|done].
  rewrite row_sums_lookup by (rewrite shape_tabulate; lia).
  cbn [default from_option]. apply row_data_split.
Qed.

Lemma built_cut_boundary G R :
  constructed_facts G → NoDup R → Forall (λ v, 0 ≤ v < g_n G) R →
  (Qc_sum (degree G <$> R) - internal_weight (g_matrix G) R)%Qc =
  boundary_weight (g_matrix G) R.
Proof.
  intros HG Hnd HR. pose proof HG as [[f Hf] Hn _ _ Hd _ _ _ _ _ _].
  unfold degree. rewrite Hd, Hf. rewrite volume_splits; [ring|done|].
  rewrite <-Hn. done.
Qed.

(** The cut [set_scores] reports is the weight of the stored entries that
    leave [R]. *)
Theorem cut_is_boundary_weight σ g R :
  built σ g → NoDup R →
  ∃ G, view g σ = (Ok G, σ) ∧
       (Forall (λ v, 0 ≤ v < g_n G) R →
        ∃ s, set_scores g R false σ = (Ok s, σ) ∧
             cut s = boundary_weight (g_matrix G) R ∧
             (edgestrue s = internal_weight (g_matrix G) R)).
Proof.
  intros Hb Hnd. destruct (built_graph_at σ g Hb) as (G & L & HG%constructed_facts_of & Hat).
  exists G. split; [by eapply view_graph_at|]. intros HR.
  eexists. split; [by apply (set_scores_reference_run σ g G L)|].
  unfold finish_scores. cbn [cut edgestrue].
  rewrite (built_cut_boundary G R HG Hnd HR). split; [done|].
  rewrite <-(built_cut_boundary G R HG Hnd HR). ring.
Qed.

Lemma cut_is_boundary_weight_witness :
  built path_world path_graph ∧ NoDup [1; 2] ∧
  ∃ G, view path_graph path_world = (Ok G, path_world) ∧
       (Forall (λ v, 0 ≤ v < g_n G) [1; 2] →
        ∃ s, set_scores path_graph [1; 2] false path_world = (Ok s, path_world) ∧
             cut s = boundary_weight (g_matrix G) [1; 2] ∧
             (edgestrue s = internal_weight (g_matrix G) [1; 2])).
Proof.
  assert (NoDup [1; 2]) as Hnd by (repeat constructor; set_solver).
  split; [exact path_built|]. split; [exact Hnd|].
  exact (cut_is_boundary_weight path_world path_graph [1; 2] path_built Hnd).
Defined.

(** ** The empty set *)

Lemma filter_none {A} (P : A → Prop) `{!∀ x, Decision (P x)} (l : list A) :
  Forall (λ x, ¬ P x) l → filter P l = [].
Proof.
  induction 1 as [|x l Hx Hl IH]; [done|]. rewrite filter_cons, decide_False by done. exact IH.
Qed.

Lemma boundary_weight_nil A : boundary_weight A [] = 0%Qc.
Proof.
  unfold boundary_weight. rewrite filter_none; [done|].
  apply Forall_forall. intros e _ [H _]. by apply elem_of_nil in H.
Qed.

Lemma range_nodup a b : NoDup (range a b).
Proof.
  unfold range. apply NoDup_fmap_2; [|apply NoDup_seq]. intros x y H. lia.
Qed.

(** The empty set has no volume, no cut and no size. *)
Theorem set_scores_empty σ g :
  built σ g →
  ∃ G s, view g σ = (Ok G, σ) ∧ set_scores g [] false σ = (Ok s, σ) ∧
         voltrue s = 0%Qc ∧ cut s = 0%Qc ∧ sizetrue s = 0 ∧ edgestrue s = 0%Qc ∧
         ((0 ≤ g_vol G)%Qc → voleff s = 0%Qc ∧ sizeeff s = 0 ∧ cond s = 1%Qc ∧ isop s = 1%Qc).
Proof.
  intros Hb. destruct (built_graph_at σ g Hb) as (G & L & HG%constructed_facts_of & Hat).
  eexists G, _. split; [by eapply view_graph_at|].
  split; [by apply (set_scores_reference_run σ g G L [] Hat HG)|].
  unfold finish_scores. cbn [voltrue cut sizetrue edgestrue voleff sizeeff cond isop].
  rewrite (built_cut_boundary G [] HG) by (constructor || done).
  rewrite boundary_weight_nil. csimpl. rewrite Qc_sum_nil.
  split; [done|]. split; [done|]. split; [done|]. split; [ring|]. intros Hvol.
  assert (py_min 0 (g_vol G - 0) = 0%Qc) as ->.
  { unfold py_min. rewrite decide_False; [done|]. apply Qcle_not_lt.
    by replace (g_vol G - 0)%Qc with (g_vol G) by ring. }
  rewrite !(decide_False (P := (0 < 0)%Qc)) by (intros H; by apply Qclt_not_eq in H).
  by rewrite !decide_False by (intros H; by apply H).
Qed.

Lemma set_scores_empty_witness :
  built path_world path_graph ∧
  ∃ G s, view path_graph path_world = (Ok G, path_world) ∧
         set_scores path_graph [] false path_world = (Ok s, path_world) ∧
         voltrue s = 0%Qc ∧ cut s = 0%Qc ∧ sizetrue s = 0 ∧ edgestrue s = 0%Qc ∧
         ((0 ≤ g_vol G)%Qc → voleff s = 0%Qc ∧ sizeeff s = 0 ∧ cond s = 1%Qc ∧ isop s = 1%Qc).
Proof. split; [exact path_built|]. apply set_scores_empty. exact path_built. Defined.

Local Open Scope Z_scope.

(** * Invariants of a built graph *)

Lemma Qc_sum_concat (ls : list (list Qc)) : Qc_sum (concat ls) = Qc_sum (Qc_sum <$> ls).
Proof.
  induction ls as [|l ls IH]; [done|]. cbn [concat]. rewrite fmap_cons.
  by rewrite Qc_sum_app, Qc_sum_cons, IH.
Qed.

Lemma row_sums_total n f : Qc_sum (row_sums (tabulate n f)) = csr_sum (tabulate n f).
Proof.
  unfold csr_sum, row_sums. rewrite data_tabulate, Qc_sum_concat, rows_tabulate.
  by rewrite <-!list_fmap_compose.
Qed.

(** The statistics [compute_statistics] leaves on a built graph. *)
Theorem statistics_invariants σ g :
  built σ g →
  ∃ G, view g σ = (Ok G, σ) ∧
       0 < g_n G ∧ g_m G = nnz (g_matrix G) ∧
       Z.of_nat (length (g_d G)) = g_n G ∧ Z.of_nat (length (g_dn G)) = g_n G ∧
       Z.of_nat (length (g_d_sqrt G)) = g_n G ∧ Z.of_nat (length (g_dn_sqrt G)) = g_n G ∧
       g_vol G = csr_sum (g_matrix G) ∧
       ∀ i, 0 ≤ i < g_n G →
         let x := Qc_sum (snd <$> row (g_matrix G) (Z.to_nat i)) in
         g_d G !! Z.to_nat i = Some x ∧
         g_dn G !! Z.to_nat i = Some (if decide (x = 0%Qc) then 0%Qc else (1 / x)%Qc) ∧
         g_d_sqrt G !! Z.to_nat i = Some (Sqrt x) ∧
         g_dn_sqrt G !! Z.to_nat i =
           Some (Sqrt (if decide (x = 0%Qc) then 0%Qc else (1 / x)%Qc)).
Proof.
  intros Hb. destruct (built_graph_at σ g Hb) as (G & L & HG%constructed_facts_of & Hat).
  exists G. split; [by eapply view_graph_at|].
  pose proof HG as [[f Hf] Hn Hpos Hm Hd Hvol Hdn Hds Hdns _ _].
  assert (Z.of_nat (length (g_d G)) = g_n G) as Hlen.
  { rewrite Hd, row_sums_length. lia. }
  split; [done|]. split; [done|]. split; [done|].
  split; [by rewrite Hdn, length_fmap|]. split; [by rewrite Hds, length_fmap|].
  split; [by rewrite Hdns, Hdn, !length_fmap|].
  split; [by rewrite Hvol, Hd, Hf, row_sums_total|].
  intros i Hi x.
  assert (g_d G !! Z.to_nat i = Some x) as Hx.
  { rewrite Hd. apply row_sums_lookup. lia. }
  split; [done|]. rewrite Hdns, Hds, Hdn, !list_lookup_fmap, Hx. done.
Qed.

Lemma statistics_invariants_witness :
  built path_world path_graph ∧
  ∃ G, view path_graph path_world = (Ok G, path_world) ∧
       0 < g_n G ∧ g_m G = nnz (g_matrix G) ∧
       Z.of_nat (length (g_d G)) = g_n G ∧ Z.of_nat (length (g_dn G)) = g_n G ∧
       Z.of_nat (length (g_d_sqrt G)) = g_n G ∧ Z.of_nat (length (g_dn_sqrt G)) = g_n G ∧
       g_vol G = csr_sum (g_matrix G) ∧
       ∀ i, 0 ≤ i < g_n G →
         let x := Qc_sum (snd <$> row (g_matrix G) (Z.to_nat i)) in
         g_d G !! Z.to_nat i = Some x ∧
         g_dn G !! Z.to_nat i = Some (if decide (x = 0%Qc) then 0%Qc else (1 / x)%Qc) ∧
         g_d_sqrt G !! Z.to_nat i = Some (Sqrt x) ∧
         g_dn_sqrt G !! Z.to_nat i =
           Some (Sqrt (if decide (x = 0%Qc) then 0%Qc else (1 / x)%Qc)).
Proof. split; [exact path_built|]. apply statistics_invariants. exact path_built. Defined.

(** ** The index arrays *)

Lemma omap_columns_sorted (f : nat → option Qc) a k :
  StronglySorted Z.lt (omap (λ j, (Z.of_nat j,.) <$> f j) (seq a k)).*1 ∧
  Forall (λ c, Z.of_nat a ≤ c) (omap (λ j, (Z.of_nat j,.) <$> f j) (seq a k)).*1.
Proof.
  revert a. induction k as [|k IH]; intros a; [split; constructor|].
  destruct (IH (S a)) as [Hs Hb]. cbn [seq]. csimpl. destruct (f a) as [w|]; csimpl.
  - split.
    + constructor; [done|]. eapply Forall_impl; [exact Hb|]. intros c Hc. simpl in Hc. lia.
    + constructor; [lia|]. eapply Forall_impl; [exact Hb|]. intros c Hc. simpl in Hc. lia.
  - split; [done|]. eapply Forall_impl; [exact Hb|]. intros c Hc. simpl in Hc. lia.
Qed.

Lemma tab_row_columns_sorted n f i : StronglySorted Z.lt (tab_row n f i).*1.
Proof. unfold tab_row. apply (omap_columns_sorted (f i) 0 n). Qed.

Lemma neighbors_row σ g G L v :
  graph_at σ g G L → constructed_facts G → index_arrays_fit G → 0 ≤ v < g_n G →
  neighbors g v σ = (Ok (row (g_matrix G) (Z.to_nat v)).*1, σ).
Proof.
  intros Hat HG Hfit Hv. pose proof (built_ai_length G HG) as Hlen.
  destruct (built_ai_lookup G (Z.to_nat v) HG) as (z & Hz & Hai & Hzb); [lia|].
  destruct (built_ai_lookup G (Z.to_nat (v + 1)) HG) as (z' & Hz' & Hai' & Hzb'); [lia|].
  rewrite (neighbors_run _ _ _ _ _ Hat). unfold neighbors_of.
  rewrite (np_getitem_in_range _ v _) by (done || lia).
  rewrite (np_getitem_in_range _ (v + 1) _) by (done || lia).
  destruct (built_index_fit G HG Hfit) as [_ Haj]. destruct Hfit as [Hfm Hfn].
  rewrite !astype_uint32_small by lia. rewrite Haj.
  destruct HG as [[f Hf] Hn _ _ _ _ _ _ _ _ _].
  revert Hz Hz'. rewrite Hf. intros Hz Hz'.
  replace (Z.to_nat (v + 1)) with (S (Z.to_nat v)) in Hz' by lia.
  rewrite (row_indices_slice _ _ (Z.to_nat v) z z') by (done || lia).
  rewrite row_tabulate by lia. done.
Qed.

(** The arrays [ai] and [aj] of a built graph form a CSR index: [ai] has
    [n + 1] entries starting at 0, [aj] has one entry per stored weight,
    each a vertex; when nothing wrapped around, [ai] is non-decreasing and
    ends at [m]. *)
Theorem index_arrays_invariants σ g :
  built σ g →
  ∃ G, view g σ = (Ok G, σ) ∧
       Z.of_nat (length (g_ai G)) = g_n G + 1 ∧ g_ai G !! 0%nat = Some 0 ∧
       Z.of_nat (length (g_aj G)) = g_m G ∧
       length (g_aj G) = length (data (g_matrix G)) ∧
       Forall (λ c, 0 ≤ c < g_n G) (g_aj G) ∧
       Forall (λ s, 0 ≤ s ≤ g_m G) (g_ai G) ∧
       (index_arrays_fit G →
          g_ai G !! Z.to_nat (g_n G) = Some (g_m G) ∧
          ∀ (i j : nat) a b, (i ≤ j)%nat → g_ai G !! i = Some a → g_ai G !! j = Some b →
                             a ≤ b).
Proof.
  intros Hb. destruct (built_graph_at σ g Hb) as (G & L & HG%constructed_facts_of & Hat).
  exists G. split; [by eapply view_graph_at|].
  destruct (built_arrays_wf G HG) as (_ & _ & Hn0 & Hlen & Hai0 & Hajd & _).
  pose proof (built_aj_length G HG) as Hajl.
  split; [done|]. split; [done|]. split; [done|]. split; [done|].
  split; [by apply built_aj_bounds|].
  split; [rewrite <-Hajl; by apply built_ai_bounds|].
  intros Hfit. destruct (built_index_fit G HG Hfit) as [Hai _]. rewrite Hai.
  pose proof HG as [[f Hf] Hn _ Hm _ _ _ _ _ _ _]. split.
  - rewrite Hf, indptr_tabulate_lookup by lia. f_equal. rewrite Hm, Hf. unfold nnz.
    rewrite data_tabulate_length, <-Hf. f_equal. rewrite firstn_all2; [done|].
    rewrite !length_fmap, length_seq. lia.
  - intros i j a b Hij Ha Hb'. rewrite Hf in Ha, Hb'. by eapply indptr_tabulate_mono.
Qed.

Lemma index_arrays_invariants_witness :
  built path_world path_graph ∧
  ∃ G, view path_graph path_world = (Ok G, path_world) ∧
       Z.of_nat (length (g_ai G)) = g_n G + 1 ∧ g_ai G !! 0%nat = Some 0 ∧
       Z.of_nat (length (g_aj G)) = g_m G ∧
       length (g_aj G) = length (data (g_matrix G)) ∧
       Forall (λ c, 0 ≤ c < g_n G) (g_aj G) ∧
       Forall (λ s, 0 ≤ s ≤ g_m G) (g_ai G) ∧
       (index_arrays_fit G →
          g_ai G !! Z.to_nat (g_n G) = Some (g_m G) ∧
          ∀ (i j : nat) a b, (i ≤ j)%nat → g_ai G !! i = Some a → g_ai G !! j = Some b →
                             a ≤ b).
Proof. split; [exact path_built|]. apply index_arrays_invariants. exact path_built. Defined.

(** The list [neighbors] returns is strictly ascending, holds the columns
    stored in the row of the vertex and nothing else, and a neighbor across
    a non-zero weight has the vertex among its own neighbors. *)
Theorem neighbors_sorted_and_mutual σ g :
  built σ g →
  ∃ G, view g σ = (Ok G, σ) ∧
       (index_arrays_fit G →
        ∀ v, 0 ≤ v < g_n G →
          ∃ ns, neighbors g v σ = (Ok ns, σ) ∧
                StronglySorted Z.lt ns ∧
                (∀ j, j ∈ ns ↔ ∃ w, (v, j, w) ∈ entries (g_matrix G)) ∧
                (∀ j w, (v, j, w) ∈ entries (g_matrix G) → w ≠ 0%Qc →
                        ∃ ns', neighbors g j σ = (Ok ns', σ) ∧ v ∈ ns')).
Proof.
  intros Hb. destruct (built_graph_at σ g Hb) as (G & L & HG & Hat).
  pose proof (constructed_facts_of G HG) as HF.
  exists G. split; [by eapply view_graph_at|]. intros Hfit v Hv.
  pose proof (cf_n G HF) as Hn. destruct (cf_matrix G HF) as [f Hf].
  assert (∀ u, 0 ≤ u < g_n G →
            ∀ j, j ∈ (row (g_matrix G) (Z.to_nat u)).*1 ↔
                 ∃ w, (u, j, w) ∈ entries (g_matrix G)) as Hmem.
  { intros u Hu j. rewrite list_elem_of_fmap. split.
    - intros ([c w] & -> & Hin). exists w. apply elem_of_entries.
      exists (Z.to_nat u). split; [lia|]. split; [lia|done].
    - intros (w & Hin). apply elem_of_entries in Hin as (i & Hi & Hu' & Hin).
      exists (j, w). split; [done|]. replace (Z.to_nat u) with i by lia. done. }
  exists (row (g_matrix G) (Z.to_nat v)).*1. split; [by eapply neighbors_row|]. split.
  { rewrite Hf, row_tabulate by lia. apply tab_row_columns_sorted. }
  split; [by apply Hmem|]. intros j w Hin Hw.
  assert (0 ≤ j < g_n G) as Hj.
  { rewrite Hf in Hin. apply elem_of_entries_tabulate in Hin as (a & b & _ & -> & _ & Hb' & _).
    lia. }
  exists (row (g_matrix G) (Z.to_nat j)).*1. split; [by eapply neighbors_row|].
  apply Hmem; [done|]. exists w.
  destruct HG as (s & t & w0 & A0 & HA & ->).
  change (g_matrix (graph_of (symmetrized A0) (is_weighted A0) uint32 uint32))
    with (symmetrized A0) in *.
  apply edge_matrix_tabulate in HA as [HA _].
  destruct (symmetrized_reconciled A0) as (_ & _ & _ & Hmirror); [by eexists|].
  by apply Hmirror.
Qed.

Lemma neighbors_sorted_and_mutual_witness :
  built path_world path_graph ∧
  ∃ G, view path_graph path_world = (Ok G, path_world) ∧
       (index_arrays_fit G →
        ∀ v, 0 ≤ v < g_n G →
          ∃ ns, neighbors path_graph v path_world = (Ok ns, path_world) ∧
                StronglySorted Z.lt ns ∧
                (∀ j, j ∈ ns ↔ ∃ w, (v, j, w) ∈ entries (g_matrix G)) ∧
                (∀ j w, (v, j, w) ∈ entries (g_matrix G) → w ≠ 0%Qc →
                        ∃ ns', neighbors path_graph j path_world = (Ok ns', path_world) ∧
                               v ∈ ns')).
Proof. split; [exact path_built|]. apply neighbors_sorted_and_mutual. exact path_built. Defined.

Local Open Scope Z_scope.

(** * More on construction *)

Lemma edge_matrix_inv s t w A0 :
  edge_matrix s t w = Ok A0 →
  ∃ smax tmax, np_max s = Ok smax ∧ np_max t = Ok tmax ∧
               Z.of_nat (shape A0) = Z.max (smax + 1) (tmax + 1) ∧
               length s = length w ∧ length t = length w ∧
               Forall (λ i, 0 ≤ i < Z.max (smax + 1) (tmax + 1)) s ∧
               Forall (λ i, 0 ≤ i < Z.max (smax + 1) (tmax + 1)) t.
Proof.
  unfold edge_matrix. destruct (np_max s) as [smax|]; [|done].
  destruct (np_max t) as [tmax|]; [|done]. intros H. exists smax, tmax.
  pose proof (csr_from_coo_shape _ _ _ _ _ H) as Hshape.
  unfold csr_from_coo in H. repeat case_decide; try done. destruct_and!. done.
Qed.

(** The number of vertices is one more than the largest id, every id names
    a vertex, and there are as many sources and targets as weights. *)
Theorem vertex_count σ0 s t w g σ :
  build s t w σ0 = (Ok g, σ) →
  ∃ G smax tmax,
    view g σ = (Ok G, σ) ∧
    np_max (astype uint32 <$> s) = Ok smax ∧ np_max (astype uint32 <$> t) = Ok tmax ∧
    g_n G = Z.max (smax + 1) (tmax + 1) ∧
    length s = length w ∧ length t = length w ∧
    Forall (λ i, 0 ≤ astype uint32 i < g_n G) s ∧
    Forall (λ i, 0 ≤ astype uint32 i < g_n G) t.
Proof.
  intros Hrun. pose proof (build_run s t w σ0) as Hb.
  destruct (edge_matrix _ _ _) as [A0|e] eqn:HA.
  - destruct Hb as (σ' & L & Hrun' & _ & Hat & _). rewrite Hrun' in Hrun. simplify_eq.
    apply edge_matrix_inv in HA as (smax & tmax & Hs & Ht & Hshape & Hls & Hlt & Hsb & Htb).
    eexists _, smax, tmax. split; [by eapply view_graph_at|]. split; [done|]. split; [done|].
    unfold graph_of. cbn [g_n]. rewrite shape_symmetrized, Hshape.
    rewrite !length_fmap in Hls, Hlt. split; [done|]. split; [done|]. split; [done|].
    split; [by apply Forall_fmap in Hsb|by apply Forall_fmap in Htb].
  - destruct Hb as (σ' & Hrun'). rewrite Hrun' in Hrun. done.
Qed.

Lemma vertex_count_witness :
  ∃ G smax tmax,
    view path_graph path_world = (Ok G, path_world) ∧
    np_max (astype uint32 <$> [0; 1; 2]) = Ok smax ∧
    np_max (astype uint32 <$> [1; 2; 3]) = Ok tmax ∧
    g_n G = Z.max (smax + 1) (tmax + 1) ∧
    length [0; 1; 2] = length [1; 1; 1]%Qc ∧ length [1; 2; 3] = length [1; 1; 1]%Qc ∧
    Forall (λ i, 0 ≤ astype uint32 i < g_n G) [0; 1; 2] ∧
    Forall (λ i, 0 ≤ astype uint32 i < g_n G) [1; 2; 3].
Proof.
  apply (vertex_count empty_world [0; 1; 2] [1; 2; 3] [1; 1; 1]%Qc path_graph path_world).
  by vm_compute.
Defined.

(** [read_graph] on a table of three columns and [list_to_gl] on the same
    three arrays build graphs that read the same, when the ids are not
    changed by the cast to the index type. *)
Theorem constructors_agree σ1 σ2 s t w g1 σ1' :
  Forall (λ i, 0 ≤ i < 2^32) s → Forall (λ i, 0 ≤ i < 2^32) t →
  build s t w σ1 = (Ok g1, σ1') →
  ∃ g2 σ2' G, build_from_table (Columns s t [FloatCol w]) σ2 = (Ok g2, σ2') ∧
              view g1 σ1' = (Ok G, σ1') ∧ view g2 σ2' = (Ok G, σ2').
Proof.
  intros Hs Ht Hrun. pose proof (build_run s t w σ1) as Hb.
  pose proof (build_from_table_run (Columns s t [FloatCol w]) σ2) as Hb2.
  cbn [table_edges column_values] in Hb2.
  rewrite !fmap_astype_small in Hb by done.
  destruct (edge_matrix s t w) as [A0|e] eqn:HA.
  - destruct Hb as (σ' & L & Hrun' & _ & Hat & _). rewrite Hrun' in Hrun. simplify_eq.
    destruct Hb2 as (σ2' & L2 & Hrun2 & _ & Hat2 & _).
    eexists _, σ2', _. split; [done|]. split; by eapply view_graph_at.
  - destruct Hb as (σ' & Hrun'). rewrite Hrun' in Hrun. done.
Qed.

Lemma constructors_agree_witness :
  ∃ g2 σ2' G,
    build_from_table (Columns [0; 1; 2] [1; 2; 3] [FloatCol [1; 1; 1]%Qc]) empty_world =
      (Ok g2, σ2') ∧
    view path_graph path_world = (Ok G, path_world) ∧ view g2 σ2' = (Ok G, σ2').
Proof.
  apply (constructors_agree empty_world empty_world [0; 1; 2] [1; 2; 3] [1; 1; 1]%Qc).
  - repeat constructor; lia.
  - repeat constructor; lia.
  - by vm_compute.
Defined.

(** An edge list without edges is refused with ValueError: [list_to_gl] has
    by then recorded [_num_edges = 0] on the object, [read_graph] nothing. *)
Theorem empty_edge_list :
  (∀ σ0 t w,
     build [] t w σ0 =
     (Raise ValueError, World (heap σ0) (objs σ0 ++ [{["_num_edges" := VInt 0]}]))) ∧
  (∀ σ0 df t w, table_edges df = Ok ([], t, w) →
     build_from_table df σ0 = (Raise ValueError, World (heap σ0) (objs σ0 ++ [∅]))).
Proof.
  split.
  - intros σ0 t w. unfold build. rewrite run_bind, new_object_run.
    assert (length (objs σ0) < length (objs σ0 ++ [∅]))%nat as Hg
      by (rewrite length_app; simpl; lia).
    unfold list_to_gl. run. by rewrite focus_new_object.
  - intros σ0 df t w Hdf. unfold build_from_table. rewrite run_bind, new_object_run.
    assert (length (objs σ0) < length (objs σ0 ++ [∅]))%nat as Hg
      by (rewrite length_app; simpl; lia).
    revert Hdf. unfold read_graph, table_edges, id_columns, weight_column.
    destruct df as [c|s' t' [|c [|c' others]]]; cbn [shape1 length];
      [intros H; discriminate H| | |intros H; discriminate H].
    + intros ?; simplify_eq. run. rewrite decide_True by done.
      run. by rewrite focus_new_object.
    + intros ?; simplify_eq. run. rewrite decide_False, decide_True by done.
      run. by rewrite focus_new_object.
Qed.

(** ** Scoring a set that is not a set of vertices *)

Lemma np_take_out_of_range (l : list Qc) R :
  Exists (λ v, Z.of_nat (length l) ≤ v ∨ v < - Z.of_nat (length l)) R →
  np_take l R = Raise IndexError.
Proof.
  induction 1 as [v R Hv|v R Hex IH]; cbn [np_take].
  - by rewrite np_getitem_out_of_range.
  - unfold np_getitem. destruct (np_index l v ≫= _); [|done]. by rewrite IH.
Qed.

(** The reference scorer refuses an id that is not an index of the degree
    array, and changes nothing. *)
Theorem set_scores_out_of_range σ g R :
  built σ g →
  ∃ G, view g σ = (Ok G, σ) ∧
       (Exists (λ v, g_n G ≤ v ∨ v < - g_n G) R →
        set_scores g R false σ = (Raise IndexError, σ) ∧
        compute_conductance g R false σ = (Raise IndexError, σ)).
Proof.
  intros Hb. destruct (built_graph_at σ g Hb) as (G & L & HG%constructed_facts_of & Hat).
  exists G. split; [by eapply view_graph_at|]. intros HR.
  assert (set_scores g R false σ = (Raise IndexError, σ)) as Hrun.
  { unfold set_scores, get_int, get_array. read Hat.
    rewrite np_take_out_of_range; [by read Hat|].
    assert (Z.of_nat (length (g_d G)) = g_n G) as ->; [|done].
    rewrite (cf_d G HG), row_sums_length. pose proof (cf_n G HG). lia. }
  split; [done|]. unfold compute_conductance. by rewrite run_bind, Hrun.
Qed.

Lemma set_scores_out_of_range_witness :
  built path_world path_graph ∧
  ∃ G, view path_graph path_world = (Ok G, path_world) ∧
       (Exists (λ v, g_n G ≤ v ∨ v < - g_n G) [0; 4] →
        set_scores path_graph [0; 4] false path_world = (Raise IndexError, path_world) ∧
        compute_conductance path_graph [0; 4] false path_world =
          (Raise IndexError, path_world)).
Proof. split; [exact path_built|]. apply set_scores_out_of_range. exact path_built. Defined.

Local Open Scope Z_scope.

(** * More on discarding weights *)

Lemma unit_weights_idempotent A : unit_weights (unit_weights A) = unit_weights A.
Proof. unfold unit_weights. cbn [shape indptr indices data]. by rewrite length_replicate. Qed.

Lemma discarded_idempotent G : discarded (discarded G) = discarded G.
Proof.
  unfold discarded. cbn [g_n g_m g_matrix g_ai g_aj]. by rewrite unit_weights_idempotent.
Qed.

(** Discarding the weights a second time changes nothing a reader sees. *)
Theorem discard_weights_idempotent σ g :
  built σ g →
  ∃ G σ1 σ2, view g σ = (Ok G, σ) ∧
             discard_weights g σ = (Ok (), σ1) ∧ discard_weights g σ1 = (Ok (), σ2) ∧
             view g σ1 = (Ok (discarded G), σ1) ∧ view g σ2 = (Ok (discarded G), σ2).
Proof.
  intros Hb. destruct (built_graph_at σ g Hb) as (G & L & HG%constructed_facts_of & Hat).
  destruct (discard_weights_graph_at σ g G L Hat (cf_n G HG)) as (σ1 & L1 & Hrun1 & Hat1).
  destruct (discard_weights_graph_at σ1 g (discarded G) L1 Hat1) as (σ2 & L2 & Hrun2 & Hat2).
  { unfold discarded, unit_weights. cbn [g_n g_matrix shape]. apply (cf_n G HG). }
  rewrite discarded_idempotent in Hat2.
  exists G, σ1, σ2. split; [by eapply view_graph_at|]. split; [done|]. split; [done|].
  split; by eapply view_graph_at.
Qed.

Lemma discard_weights_idempotent_witness :
  built path_world path_graph ∧
  ∃ G σ1 σ2, view path_graph path_world = (Ok G, path_world) ∧
             discard_weights path_graph path_world = (Ok (), σ1) ∧
             discard_weights path_graph σ1 = (Ok (), σ2) ∧
             view path_graph σ1 = (Ok (discarded G), σ1) ∧
             view path_graph σ2 = (Ok (discarded G), σ2).
Proof. split; [exact path_built|]. apply discard_weights_idempotent. exact path_built. Defined.

Lemma Qc_of_Z_succ (k : nat) : (1 + Qc_of_Z (Z.of_nat k))%Qc = Qc_of_Z (Z.of_nat (S k)).
Proof.
  unfold Qc_of_Z. apply Qc_is_canon. simpl. rewrite !Qred_correct.
  unfold Qeq, Qplus, inject_Z. simpl. lia.
Qed.

Lemma Qc_sum_ones (k : nat) : Qc_sum (replicate k 1%Qc) = Qc_of_Z (Z.of_nat k).
Proof.
  induction k as [|k IH]; [by apply Qc_is_canon|].
  cbn [replicate]. by rewrite Qc_sum_cons, IH, Qc_of_Z_succ.
Qed.

Lemma row_unit_weights n f (i : nat) :
  (i < n)%nat →
  row (unit_weights (tabulate n f)) i = (λ e : Z * Qc, (e.1, 1%Qc)) <$> row (tabulate n f) i.
Proof.
  intros Hi. rewrite unit_weights_tabulate, !row_tabulate by done.
  apply (tab_row_fmap n f (λ _, 1%Qc)).
Qed.

Lemma fmap_const_replicate {A} (l : list A) (x : Qc) : (λ _, x) <$> l = replicate (length l) x.
Proof. induction l; csimpl; congruence. Qed.

(** After [discard_weights] the degree of a vertex is the number of entries
    stored in its row, which is the number of neighbors [neighbors] lists,
    and the volume is the number of stored entries. *)
Theorem unit_degrees σ g :
  built σ g →
  ∃ G σ1 G1, view g σ = (Ok G, σ) ∧ discard_weights g σ = (Ok (), σ1) ∧
             view g σ1 = (Ok G1, σ1) ∧
             g_vol G1 = Qc_of_Z (g_m G) ∧
             ∀ v, 0 ≤ v < g_n G →
               g_d G1 !! Z.to_nat v =
                 Some (Qc_of_Z (Z.of_nat (length (row (g_matrix G) (Z.to_nat v))))) ∧
               (index_arrays_fit G →
                ∃ ns, neighbors g v σ1 = (Ok ns, σ1) ∧
                      g_d G1 !! Z.to_nat v = Some (Qc_of_Z (Z.of_nat (length ns)))).
Proof.
  intros Hb. destruct (built_graph_at σ g Hb) as (G & L & HG%constructed_facts_of & Hat).
  destruct (discard_weights_graph_at σ g G L Hat (cf_n G HG)) as (σ1 & L1 & Hrun1 & Hat1).
  exists G, σ1, (discarded G). split; [by eapply view_graph_at|]. split; [done|].
  split; [by eapply view_graph_at|].
  pose proof HG as [[f Hf] Hn _ Hm _ _ _ _ _ Hai Haj].
  assert (∀ v, 0 ≤ v < g_n G →
            g_d (discarded G) !! Z.to_nat v =
            Some (Qc_of_Z (Z.of_nat (length (row (g_matrix G) (Z.to_nat v)))))) as Hdeg.
  { intros v Hv. unfold discarded. cbn [g_d].
    rewrite row_sums_lookup by (unfold unit_weights; cbn [shape]; lia).
    f_equal. rewrite Hf, row_unit_weights by lia. unfold row_data.
    rewrite <-list_fmap_compose. unfold compose. cbn [snd].
    by rewrite fmap_const_replicate, Qc_sum_ones. }
  split.
  - unfold discarded. cbn [g_vol]. rewrite Hf, unit_weights_tabulate, row_sums_total.
    rewrite <-unit_weights_tabulate, <-Hf. unfold csr_sum, unit_weights. cbn [data].
    rewrite Qc_sum_ones, Hm. done.
  - intros v Hv. split; [by apply Hdeg|]. intros Hfit.
    exists (row (g_matrix G) (Z.to_nat v)).*1. split.
    + pose proof (neighbors_row σ g G L v Hat HG Hfit Hv) as Hrow.
      rewrite (neighbors_run _ _ _ _ _ Hat) in Hrow. injection Hrow as Hrow.
      rewrite (neighbors_run _ _ _ _ _ Hat1). unfold discarded. cbn [g_ai g_aj].
      by rewrite Hrow.
    + rewrite length_fmap. by apply Hdeg.
Qed.

Lemma unit_degrees_witness :
  built path_world path_graph ∧
  ∃ G σ1 G1, view path_graph path_world = (Ok G, path_world) ∧
             discard_weights path_graph path_world = (Ok (), σ1) ∧
             view path_graph σ1 = (Ok G1, σ1) ∧
             g_vol G1 = Qc_of_Z (g_m G) ∧
             ∀ v, 0 ≤ v < g_n G →
               g_d G1 !! Z.to_nat v =
                 Some (Qc_of_Z (Z.of_nat (length (row (g_matrix G) (Z.to_nat v))))) ∧
               (index_arrays_fit G →
                ∃ ns, neighbors path_graph v σ1 = (Ok ns, σ1) ∧
                      g_d G1 !! Z.to_nat v = Some (Qc_of_Z (Z.of_nat (length ns)))).
Proof. split; [exact path_built|]. apply unit_degrees. exact path_built. Defined.

Local Open Scope Z_scope.

(** * More on local extrema *)

Lemma np_index_fmap {A B} (f : A → B) (l : list A) i : np_index (f <$> l) i = np_index l i.
Proof. unfold np_index. by rewrite length_fmap. Qed.

Lemma np_getitem_fmap {A B} (f : A → B) (l : list A) i :
  np_getitem (f <$> l) i =
  match np_getitem l i with Ok x => Ok (f x) | Raise e => Raise e end.
Proof.
  unfold np_getitem. rewrite np_index_fmap. destruct (np_index l i) as [k|]; [|done].
  simpl. rewrite list_lookup_fmap. by destruct (l !! k).
Qed.

Lemma np_take_fmap {A B} (f : A → B) (l : list A) idx :
  np_take (f <$> l) idx =
  match np_take l idx with Ok xs => Ok (f <$> xs) | Raise e => Raise e end.
Proof.
  induction idx as [|i idx IH]; [done|]. cbn [np_take]. rewrite np_getitem_fmap, IH.
  destruct (np_getitem l i); [|done]. by destruct (np_take l idx).
Qed.

Lemma reverse_factor (x : Qc) : (Qcopp 1 * x)%Qc = (1 * Qcopp x)%Qc.
Proof. ring. Qed.

Lemma scan_row_reverse aj vals strict i vali nzis :
  scan_row aj vals (-1)%Qc strict i vali nzis =
  scan_row aj (Qcopp <$> vals) 1%Qc strict i vali nzis.
Proof.
  induction nzis as [|nzi nzis IH]; [done|]. cbn [scan_row].
  destruct (np_getitem aj nzi) as [v|]; [|done].
  destruct (decide (v = i)); [done|].
  rewrite np_getitem_fmap. destruct (np_getitem vals v) as [x|]; [|done].
  rewrite (reverse_factor x), IH. done.
Qed.

Lemma scan_vertices_reverse ai aj vals strict vs :
  scan_vertices ai aj vals (-1)%Qc strict vs =
  scan_vertices ai aj (Qcopp <$> vals) 1%Qc strict vs.
Proof.
  induction vs as [|i vs IH]; [done|]. cbn [scan_vertices].
  rewrite np_getitem_fmap. destruct (np_getitem vals i) as [x|]; [|done].
  destruct (np_getitem ai i) as [s|]; [|done].
  destruct (np_getitem ai (i + 1)) as [e|]; [|done].
  rewrite (reverse_factor x), scan_row_reverse, IH. done.
Qed.

(** Looking for maxima is looking for the minima of the negated values. *)
Theorem local_extrema_reverse σ g vals strict :
  built σ g →
  ∃ G, view g σ = (Ok G, σ) ∧
       (Z.of_nat (length vals) = g_n G →
        ∃ verts minvals,
          local_extrema g vals strict true σ = (Ok (verts, minvals), σ) ∧
          local_extrema g (Qcopp <$> vals) strict false σ =
            (Ok (verts, Qcopp <$> minvals), σ)).
Proof.
  intros Hb. destruct (built_graph_at σ g Hb) as (G & L & HG%constructed_facts_of & Hat).
  exists G. split; [by eapply view_graph_at|]. intros Hlen.
  pose proof (built_ai_length G HG) as Hail.
  destruct (scan_vertices_spec (g_ai G) (g_aj G) vals (-1)%Qc strict (range 0 (g_n G)))
    as (verts & Hrun & Hsub & Hiff).
  { rewrite Hlen. by apply built_aj_bounds. }
  { apply Forall_forall. intros i Hi%elem_of_range. lia. }
  { by apply built_ai_bounds. }
  destruct (np_take_total vals verts) as (minvals & Htake & _).
  { apply Forall_forall. intros i Hi. apply Hiff in Hi as [Hi%elem_of_range _]. lia. }
  exists verts, minvals. split.
  - rewrite (local_extrema_run _ _ _ _ _ _ _ Hat (cf_n G HG)). by rewrite Hrun, Htake.
  - rewrite (local_extrema_run _ _ _ _ _ _ _ Hat (cf_n G HG)).
    by rewrite <-scan_vertices_reverse, Hrun, np_take_fmap, Htake.
Qed.

Lemma local_extrema_reverse_witness :
  built path_world path_graph ∧
  ∃ G, view path_graph path_world = (Ok G, path_world) ∧
       (Z.of_nat (length (Qc_of_Z <$> [3; 1; 2; 0])) = g_n G →
        ∃ verts minvals,
          local_extrema path_graph (Qc_of_Z <$> [3; 1; 2; 0]) false true path_world =
            (Ok (verts, minvals), path_world) ∧
          local_extrema path_graph (Qcopp <$> (Qc_of_Z <$> [3; 1; 2; 0])) false false
            path_world = (Ok (verts, Qcopp <$> minvals), path_world)).
Proof.
  split; [exact path_built|].
  apply (local_extrema_reverse path_world path_graph (Qc_of_Z <$> [3; 1; 2; 0]) false).
  exact path_built.
Defined.

Lemma sublist_full {A} (k l : list A) :
  sublist k l → (length l ≤ length k)%nat → k = l.
Proof.
  induction 1 as [|x k l Hkl IH|x k l Hkl IH]; intros Hlen; [done| |].
  - f_equal. apply IH. simpl in Hlen. lia.
  - apply sublist_length in Hkl. simpl in Hlen. lia.
Qed.

Lemma scan_vertices_all ai aj vals factor strict vs :
  NoDup vs →
  Forall (λ v, 0 ≤ v < Z.of_nat (length vals)) aj →
  Forall (λ i, 0 ≤ i < Z.of_nat (length vals) ∧ i + 1 < Z.of_nat (length ai)) vs →
  Forall (λ s, 0 ≤ s ≤ Z.of_nat (length aj)) ai →
  (∀ i x ns, i ∈ vs → vals !! Z.to_nat i = Some x → neighbors_of ai aj i = Ok ns →
             extremum vals factor strict i x ns) →
  scan_vertices ai aj vals factor strict vs = Ok vs.
Proof.
  intros Hnd Haj Hvs Hai Hall.
  destruct (scan_vertices_spec ai aj vals factor strict vs Haj Hvs Hai)
    as (verts & Hrun & Hsub & Hiff).
  rewrite Hrun. f_equal. clear Hrun.
  apply sublist_full; [done|]. apply submseteq_length, NoDup_submseteq; [done|].
  intros i Hi. apply Hiff. split; [done|].
  eapply Forall_forall in Hvs as [Hi1 Hi2]; [|done].
  destruct (lookup_lt_is_Some_2 vals (Z.to_nat i)) as [x Hx]; [lia|].
  destruct (lookup_lt_is_Some_2 ai (Z.to_nat i)) as [s Hs]; [lia|].
  destruct (lookup_lt_is_Some_2 ai (Z.to_nat (i + 1))) as [e He]; [lia|].
  assert (neighbors_of ai aj i = Ok (np_slice aj s e)) as Hnb.
  { unfold neighbors_of. rewrite (np_getitem_in_range ai i s) by (done || lia).
    by rewrite (np_getitem_in_range ai (i + 1) e) by (done || lia). }
  exists x, (np_slice aj s e). split_and!; [done..|]. by eapply Hall.
Qed.

Lemma np_take_replicate (c : Qc) (n : nat) idx :
  Forall (λ i, 0 ≤ i < Z.of_nat n) idx →
  np_take (replicate n c) idx = Ok (replicate (length idx) c).
Proof.
  induction 1 as [|i idx Hi Hidx IH]; [done|]. cbn [np_take].
  rewrite (np_getitem_in_range _ i c).
  - by rewrite IH.
  - lia.
  - apply lookup_replicate_2. lia.
Qed.

(** When all the values are equal, every vertex is a local extremum in the
    non-strict sense, whichever way one looks. *)
Theorem local_extrema_constant σ g (c : Qc) reverse :
  built σ g →
  ∃ G, view g σ = (Ok G, σ) ∧
       local_extrema g (replicate (Z.to_nat (g_n G)) c) false reverse σ =
       (Ok (range 0 (g_n G), replicate (Z.to_nat (g_n G)) c), σ).
Proof.
  intros Hb. destruct (built_graph_at σ g Hb) as (G & L & HG%constructed_facts_of & Hat).
  exists G. split; [by eapply view_graph_at|].
  pose proof (built_ai_length G HG) as Hail. pose proof (cf_pos G HG) as Hpos.
  set (vals := replicate (Z.to_nat (g_n G)) c).
  assert (Z.of_nat (length vals) = g_n G) as Hlen.
  { unfold vals. rewrite length_replicate. lia. }
  rewrite (local_extrema_run _ _ _ _ _ _ _ Hat (cf_n G HG)).
  rewrite scan_vertices_all.
  - unfold vals. rewrite np_take_replicate.
    + do 3 f_equal. unfold range. rewrite length_fmap, length_seq. f_equal. lia.
    + apply Forall_forall. intros i Hi%elem_of_range. lia.
  - apply range_nodup.
  - rewrite Hlen. by apply built_aj_bounds.
  - apply Forall_forall. intros i Hi%elem_of_range. lia.
  - by apply built_ai_bounds.
  - intros i x ns Hi Hx Hns j Hj Hne.
    assert (0 ≤ j < g_n G) as Hjb.
    { pose proof (built_aj_bounds G HG) as Hb'. unfold neighbors_of in Hns.
      destruct (np_getitem (g_ai G) i) as [s|]; [|done].
      destruct (np_getitem (g_ai G) (i + 1)) as [e|]; [|done]. simplify_eq.
      eapply Forall_forall in Hb'; [done|].
      unfold np_slice in Hj. by apply subseteq_take, subseteq_drop in Hj. }
    exists c. split; [apply lookup_replicate_2; lia|].
    apply lookup_replicate in Hx as [-> _]. unfold precedes. apply Qcle_refl.
Qed.

Lemma local_extrema_constant_witness :
  built path_world path_graph ∧
  ∃ G, view path_graph path_world = (Ok G, path_world) ∧
       local_extrema path_graph (replicate (Z.to_nat (g_n G)) 1%Qc) false true path_world =
       (Ok (range 0 (g_n G), replicate (Z.to_nat (g_n G)) 1%Qc), path_world).
Proof. split; [exact path_built|]. apply local_extrema_constant. exact path_built. Defined.

Local Open Scope Z_scope.

(** ** Objects whose graph has not been read *)

Lemma getattr_unread σ a :
  getattr (length (objs σ)) a (World (heap σ) (objs σ ++ [∅])) =
  (Raise AttributeError, World (heap σ) (objs σ ++ [∅])).
Proof.
  unfold getattr. cbn [objs]. rewrite lookup_app_r by lia.
  rewrite Nat.sub_diag. cbn. by rewrite lookup_empty.
Qed.

Ltac unread :=
  unfold get_matrix, get_int, get_array, get_bool, get_float;
  rewrite ?run_bind, getattr_unread; reflexivity.

(** [GraphLocal()] with no file name sets no attribute (l. 126-128), so every
    method that reads the graph raises [AttributeError] on the new object and
    leaves the interpreter state as it is. *)
Theorem unread_object_raises σ vertex R cpp vals strict reverse :
  ∃ g σ', new_object σ = (Ok g, σ') ∧
    compute_statistics g σ' = (Raise AttributeError, σ') ∧
    discard_weights g σ' = (Raise AttributeError, σ') ∧
    neighbors g vertex σ' = (Raise AttributeError, σ') ∧
    set_scores g R cpp σ' = (Raise AttributeError, σ') ∧
    compute_conductance g R cpp σ' = (Raise AttributeError, σ') ∧
    connected_components g σ' = (Raise AttributeError, σ') ∧
    largest_component g σ' = (Raise AttributeError, σ') ∧
    local_extrema g vals strict reverse σ' = (Raise AttributeError, σ') ∧
    to_shared g σ' = (Raise AttributeError, σ').
Proof.
  exists (length (objs σ)), (World (heap σ) (objs σ ++ [∅])).
  split; [done|]. split_and!.
  - unfold compute_statistics. unread.
  - unfold discard_weights. unread.
  - unfold neighbors. unread.
  - unfold set_scores. unread.
  - unfold compute_conductance, set_scores. unread.
  - unfold connected_components. unread.
  - unfold largest_component, connected_components. unread.
  - unfold local_extrema. unread.
  - unfold to_shared, share_attr. unread.
Qed.

(** ** [is_disconnected] *)

(** The guard [if self.d == []] of l. 425 has no truth value when [self.d]
    is an array. *)
Lemma guard_has_no_truth_value (d : list Qc) :
  match np_eq_empty_list d with
  | Ok eq => np_truth eq = Raise ValueError
  | Raise e => e = ValueError
  end.
Proof. unfold np_eq_empty_list. by case_decide. Qed.

(** [is_disconnected] on a constructed graph raises ValueError at its guard
    [if self.d == []] (l. 425), as numpy 2.2 and later evaluate it: the
    components are not computed and the object is left as it was. *)
Theorem is_disconnected_raises σ g :
  built σ g → is_disconnected g σ = (Raise ValueError, σ).
Proof.
  intros Hb. destruct (built_graph_at σ g Hb) as (G & L & _ & Hat).
  unfold is_disconnected, get_array. read Hat.
  pose proof (guard_has_no_truth_value (g_d G)) as Hguard.
  destruct (np_eq_empty_list (g_d G)) as [eq|e]; read Hat.
  - by rewrite Hguard.
  - by subst e.
Qed.

Lemma is_disconnected_raises_witness :
  built forest_world forest_graph ∧
  is_disconnected forest_graph forest_world = (Raise ValueError, forest_world).
Proof. split; [exact forest_built|]. apply is_disconnected_raises. exact forest_built. Defined.

(** ** [from_shared] on an incomplete dictionary *)

Lemma new_object_unread σ :
  new_object σ = (Ok (length (objs σ)),
                  focus (heap σ) [] (objs σ ++ [∅]) (length (objs σ)) ∅).
Proof.
  unfold new_object, focus. rewrite app_nil_r. do 2 f_equal.
  symmetry. apply list_insert_id. rewrite lookup_app_r by lia.
  by rewrite Nat.sub_diag.
Qed.

Lemma dict_get_run sgraphvars k σ :
  dict_get sgraphvars k σ =
  (match sgraphvars !! k with Some v => Ok v | None => Raise KeyError end, σ).
Proof. unfold dict_get. by destruct (sgraphvars !! k). Qed.

(** [from_shared] raises [KeyError] when the dictionary lacks one of the keys
    [n], [m], [weighted], [vol] or [ai], whatever the others hold, and no
    array has been allocated or changed by then. *)
Theorem from_shared_missing_key sgraphvars k σ :
  k ∈ ["n"; "m"; "weighted"; "vol"; "ai"] →
  sgraphvars !! k = None →
  ∃ σ', from_shared sgraphvars σ = (Raise KeyError, σ') ∧ heap σ' = heap σ.
Proof.
  intros Hk Hnone. unfold from_shared, load_shared.
  rewrite run_bind, new_object_unread. cbv beta iota.
  assert (length (objs σ) < length (objs σ ++ [∅]))%nat as Hg.
  { rewrite length_app. simpl. lia. }
  assert (∀ attrs, heap (focus (heap σ) [] (objs σ ++ [∅]) (length (objs σ)) attrs) = heap σ)
    as Hheap.
  { intros attrs. unfold focus. cbn [heap]. by rewrite app_nil_r. }
  rewrite !run_bind, dict_get_run.
  destruct (sgraphvars !! "n") as [vn|] eqn:En; [|by eauto].
  run. rewrite ?run_bind, dict_get_run.
  destruct (sgraphvars !! "m") as [vm|] eqn:Em; [|by eauto].
  run. rewrite ?run_bind, dict_get_run.
  destruct (sgraphvars !! "weighted") as [vw|] eqn:Ew; [|by eauto].
  run. rewrite ?run_bind, dict_get_run.
  destruct (sgraphvars !! "vol") as [vv|] eqn:Ev; [|by eauto].
  run. rewrite ?run_bind, dict_get_run.
  destruct (sgraphvars !! "ai") as [va|] eqn:Ea; [|by eauto].
  exfalso. set_unfold. naive_solver.
Qed.

Lemma from_shared_missing_key_witness :
  "vol" ∈ ["n"; "m"; "weighted"; "vol"; "ai"] ∧
  ({["n" := VInt 2; "m" := VInt 2]} : gmap string value) !! "vol" = None ∧
  ∃ σ', from_shared {["n" := VInt 2; "m" := VInt 2]} empty_world = (Raise KeyError, σ') ∧
        heap σ' = heap empty_world.
Proof.
  split; [repeat constructor|]. split; [reflexivity|].
  apply (from_shared_missing_key _ "vol"); [repeat constructor|reflexivity].
Defined.

Local Open Scope Z_scope.

(** * What the constructors reject *)



